(** * LSMColumnFamily: hierarchical bloom-filter index over column-family SST files

    A shallow embedding of the index core of the repository
    (bloom/bloom_value.cpp, bloom/node.hpp, bloom/bloomTree.cpp,
    src/bloom_manager.cpp, src/db_manager.cpp, include/algorithm.hpp)
    together with the properties stated about it.

    Conventions.
    - [size_t] is a [Z] in [0, 2^64) and [int] a [Z] in [-2^31, 2^31); the
      wrap-around of unsigned arithmetic is written [wrap64].
    - [std::string] is [string]; its relational operators are the
      lexicographic order on bytes, [String.compare].
    - a method that mutates its receiver returns the new receiver; a method
      that may throw returns an [outcome].
    - recursion whose termination depends on the arguments takes a fuel
      argument; running out of fuel is the outcome [OutOfFuel]. *)

From Stdlib Require Import ZArith String Ascii List Lia Bool OrdersEx.
From stdpp Require Import base list gmap strings.

Open Scope string_scope.
Open Scope list_scope.
Open Scope Z_scope.

(** ** Outcomes of fallible code *)

(** [Throw msg] is a [std::runtime_error], [Undefined] an execution the C++
    standard gives no meaning to (indexing a vector out of range, reading an
    indeterminate value), [OutOfFuel] a computation that did not finish in the
    given number of recursive calls. *)
Inductive outcome (A : Type) : Type :=
| Ret (a : A)
| Throw (msg : string)
| Undefined
| OutOfFuel.
Arguments Ret {A} a.
Arguments Throw {A} msg.
Arguments Undefined {A}.
Arguments OutOfFuel {A}.

Global Instance outcome_ret : MRet outcome := fun A a => Ret a.
Global Instance outcome_bind : MBind outcome := fun A B f m =>
  match m with
  | Ret a => f a
  | Throw msg => Throw msg
  | Undefined => Undefined
  | OutOfFuel => OutOfFuel
  end.

(** ** Machine integers *)

Definition wrap64 (z : Z) : Z := z mod 2 ^ 64.
Definition wrap32 (z : Z) : Z := z mod 2 ^ 32.

(** ** [std::string] comparison, [std::max] and [std::min] *)

Definition str_lt (a b : string) : bool := String.ltb a b.
Definition str_le (a b : string) : bool := String.leb a b.
Definition str_gt (a b : string) : bool := String.ltb b a.
Definition str_ge (a b : string) : bool := String.leb b a.

(** [std::max(a, b)] is [(a < b) ? b : a]; [std::min(a, b)] is
    [(b < a) ? b : a]. *)
Definition smax (a b : string) : string := if str_lt a b then b else a.
Definition smin (a b : string) : string := if str_lt b a then b else a.

Definition empty (s : string) : bool :=
  match s with EmptyString => true | String _ _ => false end.

(** ** MurmurHash3 *)

Module Murmur.

Definition rotl32 (x : Z) (r : Z) : Z :=
  wrap32 (Z.lor (Z.shiftl x r) (Z.shiftr x (32 - r))).

Definition c1 : Z := 0xcc9e2d51.
Definition c2 : Z := 0x1b873593.

Definition mix_k1 (k1 : Z) : Z :=
  wrap32 (rotl32 (wrap32 (k1 * c1)) 15 * c2).

Definition mix_h1 (h1 k1 : Z) : Z :=
  wrap32 (rotl32 (Z.lxor h1 (mix_k1 k1)) 13 * 5 + 0xe6546b64).

Definition fmix32 (h : Z) : Z :=
  let h := Z.lxor h (Z.shiftr h 16) in
  let h := wrap32 (h * 0x85ebca6b) in
  let h := Z.lxor h (Z.shiftr h 13) in
  let h := wrap32 (h * 0xc2b2ae35) in
  Z.lxor h (Z.shiftr h 16).

Definition byte_of (c : ascii) : Z := Z.of_N (N_of_ascii c).

(** The body loop over 4-byte little-endian blocks, then the tail of
    [len & 3] bytes. *)
Fixpoint body (data : list Z) (h1 : Z) : Z :=
  match data with
  | b0 :: b1 :: b2 :: b3 :: rest =>
      let k1 := b0 + Z.shiftl b1 8 + Z.shiftl b2 16 + Z.shiftl b3 24 in
      body rest (mix_h1 h1 k1)
  | [b0; b1; b2] =>
      Z.lxor h1 (mix_k1 (Z.lxor (Z.lxor (Z.shiftl b2 16) (Z.shiftl b1 8)) b0))
  | [b0; b1] =>
      Z.lxor h1 (mix_k1 (Z.lxor (Z.shiftl b1 8) b0))
  | [b0] =>
      Z.lxor h1 (mix_k1 b0)
  | [] => h1
  end.

(** Modelled from the spec: [MurmurHash3_x86_32] of MurmurHash3.h, which
    bloom_value.cpp includes and which is not among the sources ("a single
    32-bit non-cryptographic mixing hash (the Murmur3 family is the
    reference) keyed by i as the seed"); the definition is the reference
    algorithm of that name. *)
Definition MurmurHash3_x86_32 (key : string) (seed : Z) : Z :=
  let data := map byte_of (list_ascii_of_string key) in
  let h1 := body data (wrap32 seed) in
  fmix32 (Z.lxor h1 (wrap32 (Z.of_nat (length data)))).

End Murmur.

(** ** Files of bytes (std::ofstream / std::ifstream in binary mode) *)

(** A byte is a [Z] in [0, 256): the object representation of a [char]. *)
Definition bytes : Type := list Z.

(** The part of the file system the index touches: the content of the files
    that exist, and the paths that cannot be opened (missing directory,
    permissions). *)
Record FileSystem : Type := mkFS {
  fs_files : gmap string bytes;
  fs_denied : gset string
}.


(** [std::ofstream file(name, std::ios::binary)], followed by writing [data]:
    the file is created or truncated; [None] when the stream is not good after
    opening. *)
Definition write_file (fs : FileSystem) (name : string) (data : bytes)
  : option FileSystem :=
  if decide (name ∈ fs_denied fs) then None
  else Some (mkFS (<[name := data]> (fs_files fs)) (fs_denied fs)).

(** An input stream: the bytes not yet read, and whether the stream is still
    good. *)
Record ifstream : Type := mkIfstream {
  remaining : bytes;
  good : bool
}.

Definition open_read (fs : FileSystem) (name : string) : option ifstream :=
  if decide (name ∈ fs_denied fs) then None
  else match fs_files fs !! name with
       | Some data => Some (mkIfstream data true)
       | None => None
       end.

(** [file.read(p, n)]: extracts [n] bytes, or the bytes that are left, in
    which case the stream fails; a failed stream extracts nothing. *)
Definition read (file : ifstream) (n : Z) : bytes * ifstream :=
  if good file then
    if n <=? Z.of_nat (length (remaining file)) then
      (take (Z.to_nat n) (remaining file),
       mkIfstream (drop (Z.to_nat n) (remaining file)) true)
    else (remaining file, mkIfstream [] false)
  else ([], file).

(** The object representation of an unsigned integer of [n] bytes, least
    significant byte first, and its inverse. *)
Fixpoint le_bytes (n : nat) (z : Z) : bytes :=
  match n with
  | O => []
  | S n' => z mod 256 :: le_bytes n' (z / 256)
  end.

Fixpoint le_value (bs : bytes) : Z :=
  match bs with
  | [] => 0
  | b :: bs' => b + 256 * le_value bs'
  end.

(** The [int] whose object representation is the unsigned 32-bit [u]. *)
Definition to_int32 (u : Z) : Z := if u <? 2 ^ 31 then u else u - 2 ^ 32.

(** The values [0, 1, ..., n-1] of a loop counter; empty when [n <= 0]. *)
Definition upto (n : Z) : list Z := map Z.of_nat (seq 0 (Z.to_nat n)).

(** [v.size()] as a [size_t]. *)
Definition vsize {A : Type} (v : list A) : Z := Z.of_nat (length v).

(** [v[i]] and [v[i] = x] on a [std::vector]. An index outside the vector is
    undefined in the source: [at_] then has no value and [set_at] leaves the
    vector as it is. *)
Definition at_ {A : Type} (v : list A) (i : Z) : option A :=
  if decide (0 <= i < vsize v) then v !! Z.to_nat i else None.

Definition set_at {A : Type} (v : list A) (i : Z) (x : A) : list A :=
  if decide (0 <= i < vsize v) then <[Z.to_nat i := x]> v else v.

Definition bit_at (v : list bool) (i : Z) : bool := default false (at_ v i).
Definition byte_at (v : bytes) (i : Z) : Z := default 0 (at_ v i).

(** ** bloom/bloom_value.cpp *)

Module BloomFilter.

Record t : Type := mk {
  bitArray : list bool;
  numHashFunctions : Z;
  bitArraySize : Z
}.

Definition with_bits (f : t) (bits : list bool) : t :=
  mk bits (numHashFunctions f) (bitArraySize f).

(** [BloomFilter(size_t size, double numHashFunctions)]; the second
    argument is the [int] the [double] converts to. *)
Definition new (size : Z) (numHashFunctions : Z) : t :=
  mk (replicate (Z.to_nat size) false) numHashFunctions size.

(** [static_cast<size_t>(hashOutput) % bitArraySize]. The remainder by zero
    and an index outside [bitArray] are undefined in the source; they do not
    arise for a filter satisfying [wf] with a positive size. *)
Definition hash (f : t) (key : string) (seed : Z) : Z :=
  Murmur.MurmurHash3_x86_32 key seed mod bitArraySize f.

Definition insert (f : t) (key : string) : t :=
  with_bits f
    (fold_left (fun bits i => set_at bits (hash f key i) true)
               (upto (numHashFunctions f)) (bitArray f)).

Definition exists_ (f : t) (key : string) : bool :=
  forallb (fun i => bit_at (bitArray f) (hash f key i))
          (upto (numHashFunctions f)).

Definition size_mismatch : string := "BloomFilter size mismatch during merge".

(** [merge] returns the receiver after the call and how the call ended. *)
Definition merge (self other : t) : t * outcome unit :=
  if decide (length (bitArray self) = length (bitArray other)) then
    (with_bits self
       (fold_left
          (fun bits i =>
             set_at bits i (bit_at bits i || bit_at (bitArray other) i))
          (upto (vsize (bitArray self))) (bitArray self)),
     Ret tt)
  else (self, Throw size_mismatch).

(** The payload buffer of [saveToFile]. *)
Definition pack (bits : list bool) (bitArraySize : Z) : bytes :=
  let byteSize := wrap64 (bitArraySize + 7) / 8 in
  fold_left
    (fun buffer i =>
       if bit_at bits i
       then set_at buffer (i / 8)
              (Z.lor (byte_at buffer (i / 8)) (Z.shiftl 1 (i mod 8)))
       else buffer)
    (upto bitArraySize) (replicate (Z.to_nat byteSize) 0).

Definition serialize (f : t) : bytes :=
  le_bytes 8 (bitArraySize f) ++ le_bytes 4 (wrap32 (numHashFunctions f))
  ++ pack (bitArray f) (bitArraySize f).

Definition saveToFile (f : t) (fs : FileSystem) (filename : string)
  : outcome FileSystem :=
  match write_file fs filename (serialize f) with
  | Some fs' => Ret fs'
  | None => Throw (String.append "Error opening file: " filename)
  end.

(** [v.resize(n)] on a [std::vector<bool>]. *)
Definition resize (v : list bool) (n : Z) : list bool :=
  take (Z.to_nat n) v ++ replicate (Z.to_nat n - length v)%nat false.

(** The bit loop of [loadFromFile]. *)
Definition unpack (buffer : bytes) (bitArraySize : Z) (bits : list bool)
  : list bool :=
  fold_left
    (fun bits i =>
       set_at bits i
         (negb (Z.land (byte_at buffer (i / 8)) (Z.shiftl 1 (i mod 8)) =? 0)))
    (upto bitArraySize) bits.

(** The two header reads fill uninitialised locals: when the file is shorter
    than the 12 header bytes those locals are indeterminate. The payload
    buffer is zero-initialised, so a short payload read leaves zeros. No
    stream state is tested after the file is opened. The two allocations
    that the header's size decides, [bitArray.resize(bitArraySize)] and
    [buffer(byteSize)], are taken to succeed: [std::length_error] and
    [std::bad_alloc] have no counterpart here. *)
Definition loadFromFile (fs : FileSystem) (filename : string) : outcome t :=
  match open_read fs filename with
  | None => Throw (String.append "Error opening file: " filename)
  | Some file =>
      let '(b1, file) := read file 8 in
      let '(b2, file) := read file 4 in
      if decide (length b1 = 8%nat ∧ length b2 = 4%nat) then
        let bitArraySize := le_value b1 in
        let numHashFunctions := to_int32 (le_value b2) in
        let filter := new 1 0 in
        let bits := resize (bitArray filter) bitArraySize in
        let byteSize := wrap64 (bitArraySize + 7) / 8 in
        let '(payload, file) := read file byteSize in
        let buffer :=
          payload ++ replicate (Z.to_nat byteSize - length payload)%nat 0 in
        Ret (mk (unpack buffer bitArraySize bits) numHashFunctions bitArraySize)
      else Undefined
  end.

(** The class invariant the constructor and [loadFromFile] establish and
    every method keeps: the two size fields agree and fit their C++ types. *)
Definition wf (f : t) : Prop :=
  vsize (bitArray f) = bitArraySize f
  ∧ bitArraySize f + 7 < 2 ^ 64
  ∧ - 2 ^ 31 <= numHashFunctions f < 2 ^ 31.

End BloomFilter.

(** ** Process-wide state of include/algorithm.hpp *)

(** The three atomic probe counters and the result accumulator. *)
Record Globals : Type := mkGlobals {
  gBloomCheckCount : Z;
  gLeafBloomCheckCount : Z;
  gSSTCheckCount : Z;
  globalfinalMatches : list string
}.

Definition incrBloomCheck (g : Globals) : Globals :=
  mkGlobals (wrap64 (gBloomCheckCount g + 1)) (gLeafBloomCheckCount g)
            (gSSTCheckCount g) (globalfinalMatches g).

Definition incrLeafBloomCheck (g : Globals) : Globals :=
  mkGlobals (gBloomCheckCount g) (wrap64 (gLeafBloomCheckCount g + 1))
            (gSSTCheckCount g) (globalfinalMatches g).

Definition addSSTCheck (n : Z) (g : Globals) : Globals :=
  mkGlobals (gBloomCheckCount g) (gLeafBloomCheckCount g)
            (wrap64 (gSSTCheckCount g + n)) (globalfinalMatches g).

Definition appendMatches (keys : list string) (g : Globals) : Globals :=
  mkGlobals (gBloomCheckCount g) (gLeafBloomCheckCount g)
            (gSSTCheckCount g) (globalfinalMatches g ++ keys).

(** ** bloom/node.hpp *)

(** Children are owned pointers that are never null and never written after
    the parent is built, so a node is the tree below it. *)
#[local] Unset Elimination Schemes.
Inductive Node : Type := mkNode {
  children : list Node;
  bloom : BloomFilter.t;
  filename : string;
  startKey : string;
  endKey : string
}.
#[local] Set Elimination Schemes.

(** The source tag of an interior node. *)
Definition Memory : string := "Memory".

Definition isMemory (n : Node) : bool := String.eqb (filename n) Memory.

(** ** bloom/bloomTree.cpp *)

Module BloomTree.

(** [root] is [None] until [buildTree] has assigned it. *)
Record t : Type := mk {
  root : option Node;
  ratio : Z;
  bloomSize : Z;
  numHashFunctions : Z;
  leafNodes : list Node
}.

Definition new (branchingRatio bloomSize numHashFunctions : Z) : t :=
  mk None branchingRatio bloomSize numHashFunctions [].

Definition addLeafNode (tr : t) (bv : BloomFilter.t) (file start end_ : string) : t :=
  mk (root tr) (ratio tr) (bloomSize tr) (numHashFunctions tr)
     (leafNodes tr ++ [mkNode [] bv file start end_]).

(** The loop [for (size_t j = i; j < end; ++j)] of [buildLevel], over the
    values [js] of [j] that are left. *)
Fixpoint adopt (nodes : list Node) (js : list Z) (parent : Node) : outcome Node :=
  match js with
  | [] => Ret parent
  | j :: js' =>
      match at_ nodes j with
      | None => Undefined
      | Some nj =>
          let start := if str_gt (startKey parent) (startKey nj)
                       then startKey nj else startKey parent in
          let end_ := if str_lt (endKey parent) (endKey nj)
                      then endKey nj else endKey parent in
          let '(merged, r) := BloomFilter.merge (bloom parent) (bloom nj) in
          _ ← r;
          adopt nodes js'
            (mkNode (children parent ++ [nj]) merged (filename parent) start end_)
      end
  end.

(** The loop [for (size_t i = 0; i < nodes.size(); i += ratio)] of
    [buildLevel], from the current [i] and [parentLevel]. *)
Fixpoint group (fuel : nat) (tr : t) (nodes : list Node) (i : Z)
    (parentLevel : list Node) : outcome (list Node) :=
  match fuel with
  | O => OutOfFuel
  | S fuel' =>
      if i <? vsize nodes then
        let end_ := Z.min (wrap64 (i + ratio tr)) (vsize nodes) in
        match at_ nodes i, at_ nodes (wrap64 (end_ - 1)) with
        | Some first, Some last =>
            parent ← adopt nodes (map (Z.add i) (upto (end_ - i)))
                       (mkNode [] (BloomFilter.new (bloomSize tr) (numHashFunctions tr))
                               Memory (startKey first) (endKey last));
            group fuel' tr nodes (wrap64 (i + ratio tr)) (parentLevel ++ [parent])
        | _, _ => Undefined
        end
      else Ret parentLevel
  end.

(** [buildLevel] returns the node it assigns to [root]. *)
Fixpoint buildLevel (fuel : nat) (tr : t) (nodes : list Node) : outcome Node :=
  match fuel with
  | O => OutOfFuel
  | S fuel' =>
      if vsize nodes =? 1 then
        match nodes with
        | front :: _ => Ret front
        | [] => Undefined
        end
      else
        parentLevel ← group fuel' tr nodes 0 [];
        buildLevel fuel' tr parentLevel
  end.

(** The sidecar file of a leaf. *)
Definition sidecar (node : Node) : string :=
  String.append (filename node)
    (String.append "_" (String.append (startKey node)
       (String.append "_" (endKey node)))).

Fixpoint saveLeaves (leaves : list Node) (fs : FileSystem) : outcome FileSystem :=
  match leaves with
  | [] => Ret fs
  | node :: rest =>
      fs' ← BloomFilter.saveToFile (bloom node) fs (sidecar node);
      saveLeaves rest fs'
  end.

Definition buildTree (fuel : nat) (tr : t) (fs : FileSystem)
  : outcome (t * FileSystem) :=
  r ← buildLevel fuel tr (leafNodes tr);
  fs' ← saveLeaves (leafNodes tr) fs;
  Ret (mk (Some r) (ratio tr) (bloomSize tr) (numHashFunctions tr) (leafNodes tr), fs').

Definition overlaps (node : Node) (qStart qEnd : string) : bool :=
  (empty qEnd || str_le (startKey node) qEnd)
  && (empty qStart || str_ge (endKey node) qStart).

(** [search] appends to [results] and counts its probes. *)
Fixpoint search (node : Node) (value qStart qEnd : string)
    (st : list string * Globals) {struct node} : list string * Globals :=
  if overlaps node qStart qEnd then
    let g := incrBloomCheck (snd st) in
    let g := if negb (isMemory node) then incrLeafBloomCheck g else g in
    if BloomFilter.exists_ (bloom node) value then
      if negb (isMemory node) then (fst st ++ [filename node], g)
      else fold_left (fun st child => search child value qStart qEnd st)
                     (children node) (fst st, g)
    else (fst st, g)
  else st.

(** [query] starts from [root]; a null root yields nothing. *)
Definition query (tr : t) (value qStart qEnd : string) (g : Globals)
  : list string * Globals :=
  match root tr with
  | Some r => search r value qStart qEnd ([], g)
  | None => ([], g)
  end.

(** [searchNodes] collects the nodes themselves; it emits a node that has no
    children, whatever its tag. *)
Fixpoint searchNodes (node : Node) (value qStart qEnd : string)
    (st : list Node * Globals) {struct node} : list Node * Globals :=
  if overlaps node qStart qEnd then
    let g := incrBloomCheck (snd st) in
    let g := if negb (isMemory node) then incrLeafBloomCheck g else g in
    if BloomFilter.exists_ (bloom node) value then
      match children node with
      | [] => (fst st ++ [node], g)
      | _ :: _ =>
          fold_left (fun st child => searchNodes child value qStart qEnd st)
                    (children node) (fst st, g)
      end
    else (fst st, g)
  else st.

Definition queryNodes (tr : t) (value qStart qEnd : string) (g : Globals)
  : list Node * Globals :=
  match root tr with
  | Some r => searchNodes r value qStart qEnd ([], g)
  | None => ([], g)
  end.

End BloomTree.

(** ** Sorted string tables (rocksdb::SstFileReader) *)

(** The external engine is represented by what its reader shows: for each
    path that opens, the key/value pairs of the file in iteration order. *)
Definition SstStore : Type := gmap string (list (string * string)).

(** [iter->Seek(target)]: the iterator stands at the first entry whose key is
    not below [target]. *)
Fixpoint Seek (it : list (string * string)) (target : string)
  : list (string * string) :=
  match it with
  | [] => []
  | kv :: rest => if str_lt (fst kv) target then Seek rest target else it
  end.

(** ** src/bloom_manager.cpp *)

Module BloomManager.

(** The locals of [processSSTFile] that live across loop iterations. *)
Record locals : Type := mkLocals {
  partitions : list Node;
  currentCount : Z;
  partitionBloom : BloomFilter.t;
  partitionStartKey : string;
  firstEntry : bool;
  lastKey : string
}.

(** One iteration of the loop over the file's entries. *)
Definition step (sstFile : string) (partitionSize bloomSize numHashFunctions : Z)
    (l : locals) (kv : string * string) : locals :=
  let key := fst kv in
  let value := snd kv in
  let start := if firstEntry l then key else partitionStartKey l in
  let bf := BloomFilter.insert (partitionBloom l) value in
  let count := wrap64 (currentCount l + 1) in
  if partitionSize <=? count then
    mkLocals (partitions l ++ [mkNode [] bf sstFile start key]) 0
             (BloomFilter.new bloomSize numHashFunctions) start true key
  else
    mkLocals (partitions l) count bf start false key.

Definition processSSTFile (sst : SstStore) (sstFile : string)
    (partitionSize bloomSize numHashFunctions : Z) : list Node :=
  match sst !! sstFile with
  | None => []
  | Some entries =>
      let l := fold_left (step sstFile partitionSize bloomSize numHashFunctions)
                 entries
                 (mkLocals [] 0 (BloomFilter.new bloomSize numHashFunctions)
                           "" true "") in
      if 0 <? currentCount l then
        partitions l ++ [mkNode [] (partitionBloom l) sstFile
                                (partitionStartKey l) (lastKey l)]
      else partitions l
  end.

(** The per-file tasks run on the thread pool and are joined in the order of
    [sstFiles]. *)
Definition createPartitionedHierarchy (fuel : nat) (sst : SstStore)
    (fs : FileSystem) (sstFiles : list string)
    (partitionSize bloomSize numHashFunctions branchingRatio : Z)
  : outcome (BloomTree.t * FileSystem) :=
  let hierarchy := BloomTree.new branchingRatio bloomSize numHashFunctions in
  let allLeafNodes :=
    concat (map (fun sstFile =>
                   processSSTFile sst sstFile partitionSize bloomSize numHashFunctions)
                sstFiles) in
  BloomTree.buildTree fuel
    (BloomTree.mk (BloomTree.root hierarchy) (BloomTree.ratio hierarchy)
                  (BloomTree.bloomSize hierarchy)
                  (BloomTree.numHashFunctions hierarchy) allLeafNodes)
    fs.

End BloomManager.

(** ** src/db_manager.cpp *)

Module DBManager.

(** The [while (iter->Valid())] loop of [scanFileForKeysWithValue]. *)
Fixpoint scanLoop (it : list (string * string)) (value rangeEnd : string)
    (matchingKeys : list string) : list string :=
  match it with
  | [] => matchingKeys
  | kv :: rest =>
      if negb (empty rangeEnd) && str_gt (fst kv) rangeEnd then matchingKeys
      else scanLoop rest value rangeEnd
             (if String.eqb (snd kv) value then matchingKeys ++ [fst kv]
              else matchingKeys)
  end.

Definition scanFileForKeysWithValue (sst : SstStore)
    (filename value rangeStart rangeEnd : string) : list string :=
  match sst !! filename with
  | None => []
  | Some entries =>
      let iter := if negb (empty rangeStart) then Seek entries rangeStart
                  else entries in
      scanLoop iter value rangeEnd []
  end.

(** [ScanFileForValue]: the text of the status is the engine's. *)
Definition open_failed : string := "Failed to open SSTable: ".

Definition ScanFileForValue (sst : SstStore) (filename value : string)
  : outcome bool :=
  match sst !! filename with
  | None => Throw open_failed
  | Some entries =>
      Ret (existsb (fun kv => String.eqb (snd kv) value) entries)
  end.

(** The open database: for each column family that has a handle, its
    entries in iteration order. [db_->Get] finds the entry of a key. *)
Definition Database : Type := gmap string (list (string * string)).

Fixpoint Get (cf : list (string * string)) (key : string) : option string :=
  match cf with
  | [] => None
  | kv :: rest => if String.eqb (fst kv) key then Some (snd kv) else Get rest key
  end.

Definition shape_error : string :=
  "Number of columns and values must be equal and non-empty.".

Definition no_base_column : string := "Column Family not found for base column: ".

(** The loop over [columns[i..]] that compares the value of [key] in each
    column with [values[i]] and stops at the first column that differs. *)
Fixpoint allMatch (db : Database) (values : list string) (key : string)
    (columns : list string) (i : nat) : outcome bool :=
  match columns with
  | [] => Ret true
  | column :: rest =>
      match db !! column with
      | None => Ret false
      | Some cf =>
          match Get cf key with
          | None => Ret false
          | Some candidateValue =>
              match values !! i with
              | None => Undefined
              | Some v =>
                  if String.eqb candidateValue v
                  then allMatch db values key rest (S i)
                  else Ret false
              end
          end
      end
  end.

(** The loop over the entries of the base column. *)
Fixpoint scanBase (db : Database) (columns values : list string)
    (it : list (string * string)) (matchingKeys : list string)
  : outcome (list string) :=
  match it with
  | [] => Ret matchingKeys
  | kv :: rest =>
      ok ← allMatch db values (fst kv) columns 0%nat;
      scanBase db columns values rest
        (if ok : bool then matchingKeys ++ [fst kv] else matchingKeys)
  end.

Definition scanForRecordsInColumns (db : Database) (columns values : list string)
  : outcome (list string) :=
  if negb (vsize columns =? vsize values) || (vsize columns =? 0)
  then Throw shape_error
  else
    match columns with
    | [] => Undefined
    | column0 :: _ =>
        match db !! column0 with
        | None => Throw (String.append no_base_column column0)
        | Some base => scanBase db columns values base []
        end
    end.

(** The tasks of the second phase of [findUsingSingleHierarchy], one per
    key, joined in order: each yields the key, or the empty string when a
    column from the second on does not hold its value. *)
Fixpoint checkKeys (db : Database) (columns values : list string)
    (allKeys : list string) : outcome (list string) :=
  match allKeys with
  | [] => Ret []
  | key :: rest =>
      ok ← allMatch db values key (drop 1 columns) 1%nat;
      results ← checkKeys db columns values rest;
      Ret ((if ok : bool then key else "") :: results)
  end.

Definition findUsingSingleHierarchy (sst : SstStore) (db : Database)
    (hierarchy : BloomTree.t) (columns values : list string) (g : Globals)
  : outcome (list string * Globals) :=
  if negb (vsize columns =? vsize values) || (vsize columns =? 0)
  then Throw shape_error
  else
    match values with
    | [] => Undefined
    | value0 :: _ =>
        let '(candidates, g) := BloomTree.queryNodes hierarchy value0 "" "" g in
        match candidates with
        | [] => Ret ([], g)
        | _ :: _ =>
            let g := mkGlobals (gBloomCheckCount g) (gLeafBloomCheckCount g)
                               (wrap64 (0 + vsize candidates))
                               (globalfinalMatches g) in
            let allKeys :=
              concat (map (fun n => scanFileForKeysWithValue sst (filename n)
                                      value0 (startKey n) (endKey n))
                          candidates) in
            results ← checkKeys db columns values allKeys;
            Ret (filter (fun res => negb (empty res)) results, g)
        end
    end.

End DBManager.

(** ** include/algorithm.hpp *)

Record Combo : Type := mkCombo {
  nodes : list Node;
  rangeStart : string;
  rangeEnd : string
}.

(** [computeIntersection] writes [outStart] and [outEnd]; it returns them. *)
Definition computeIntersection (nodes : list Node) (outStart outEnd : string)
  : string * string :=
  match nodes with
  | [] => (outStart, outEnd)
  | n0 :: rest =>
      fold_left (fun out n => (smax (fst out) (startKey n),
                               smin (snd out) (endKey n)))
                rest (startKey n0, endKey n0)
  end.

(** The scan tasks of [finalSstScanAndIntersect], one per column from column
    [i] on; each task reads [values[i]]. The tasks only read, so their results
    do not depend on how the pool schedules them. *)
Fixpoint scanColumns (sst : SstStore) (values : list string) (combo : Combo)
    (leaves : list Node) (i : nat) : outcome (list (gset string)) :=
  match leaves with
  | [] => Ret []
  | leaf :: rest =>
      let scanStart := smax (rangeStart combo) (startKey leaf) in
      let scanEnd := smin (rangeEnd combo) (endKey leaf) in
      match values !! i with
      | None => Undefined
      | Some value =>
          let keys := DBManager.scanFileForKeysWithValue sst (filename leaf)
                        value scanStart scanEnd in
          sets ← scanColumns sst values combo rest (S i);
          Ret (list_to_set keys :: sets)
      end
  end.

(** The intersection loop over [columnKeySets[1..]], with its early exit. *)
Fixpoint intersectSets (result : gset string) (columnKeySets : list (gset string))
  : gset string :=
  match columnKeySets with
  | [] => result
  | set :: rest =>
      let temp := filter (fun key => key ∈ set) result in
      if decide (temp = ∅) then temp else intersectSets temp rest
  end.

Definition finalSstScanAndIntersect (sst : SstStore) (combo : Combo)
    (values : list string) (g : Globals) : outcome (list string * Globals) :=
  let g := addSSTCheck (vsize (nodes combo)) g in
  columnKeySets ← scanColumns sst values combo (nodes combo) 0;
  match columnKeySets with
  | [] => Ret ([], g)
  | first :: rest => Ret (elements (intersectSets first rest), g)
  end.

(** The root check of the initial call, from column [i] on: [false] when a
    root's filter does not hold its value. *)
Fixpoint checkRoots (values : list string) (roots : list Node) (i : nat)
    (g : Globals) : outcome (bool * Globals) :=
  match roots with
  | [] => Ret (true, g)
  | r :: rest =>
      let g := incrBloomCheck g in
      match values !! i with
      | None => Undefined
      | Some value =>
          if negb (BloomFilter.exists_ (bloom r) value) then Ret (false, g)
          else checkRoots values rest (S i) g
      end
  end.

(** What the closure [consider] reads and writes for one column. *)
Record column : Type := mkColumn {
  options : list Node;
  colMin : string;
  colMax : string;
  found : bool;
  counters : Globals
}.

Definition consider (value : option string) (tightStart tightEnd : string)
    (c : Node) (col : column) : outcome column :=
  if str_lt (endKey c) tightStart || str_gt (startKey c) tightEnd then Ret col
  else
    let g := incrBloomCheck (counters col) in
    let g := if negb (isMemory c) then incrLeafBloomCheck g else g in
    match value with
    | None => Undefined
    | Some v =>
        if negb (BloomFilter.exists_ (bloom c) v)
        then Ret (mkColumn (options col) (colMin col) (colMax col) (found col) g)
        else if negb (found col)
        then Ret (mkColumn (options col ++ [c]) (startKey c) (endKey c) true g)
        else Ret (mkColumn (options col ++ [c]) (smin (colMin col) (startKey c))
                           (smax (colMax col) (endKey c)) true g)
    end.

Fixpoint considerAll (value : option string) (tightStart tightEnd : string)
    (cs : list Node) (col : column) : outcome column :=
  match cs with
  | [] => Ret col
  | c :: rest =>
      col' ← consider value tightStart tightEnd c col;
      considerAll value tightStart tightEnd rest col'
  end.

(** Step 4 of [dfsMultiColumn], from column [i] on: the candidate options of
    the columns, or [None] when the function returns from inside the loop. *)
Fixpoint buildOptions (values : list string) (n : Z) (rest : list Node) (i : nat)
    (tightStart tightEnd : string) (candidateOptions : list (list Node))
    (g : Globals) : outcome (option (list (list Node)) * Globals) :=
  match rest with
  | [] => Ret (Some candidateOptions, g)
  | node :: rest' =>
      let col0 := mkColumn [] "" "" false g in
      col ← (if isMemory node
             then considerAll (values !! i) tightStart tightEnd (children node) col0
             else consider (values !! i) tightStart tightEnd node col0);
      if negb (found col) then Ret (None, counters col)
      else if Z.of_nat i + 1 <? n then
        let tightStart' := smax tightStart (colMin col) in
        let tightEnd' := smin tightEnd (colMax col) in
        if str_gt tightStart' tightEnd' then Ret (None, counters col)
        else buildOptions values n rest' (S i) tightStart' tightEnd'
               (candidateOptions ++ [options col]) (counters col)
      else buildOptions values n rest' (S i) tightStart tightEnd
             (candidateOptions ++ [options col]) (counters col)
  end.

(** The closure [backtrack]: [todo] holds [candidateOptions[idx..]] and
    [chosen] the picks [chosen[0..idx)]; [dfs] is the recursive call of
    [dfsMultiColumn] with [isInitialCall = false]. *)
Fixpoint backtrack (dfs : Combo -> Globals -> outcome Globals)
    (todo : list (list Node)) (chosen : list Node) (curS curE : string)
    (g : Globals) : outcome Globals :=
  match todo with
  | [] => dfs (mkCombo chosen curS curE) g
  | cands :: todo' =>
      (fix each (cs : list Node) (g : Globals) : outcome Globals :=
         match cs with
         | [] => Ret g
         | cand :: cs' =>
             let ns := smax curS (startKey cand) in
             let ne := smin curE (endKey cand) in
             if str_le ns ne then
               g' ← backtrack dfs todo' (chosen ++ [cand]) ns ne g;
               each cs' g'
             else each cs' g
         end) cands g
  end.

Fixpoint dfsMultiColumn (fuel : nat) (sst : SstStore) (values : list string)
    (currentCombo : Combo) (isInitialCall : bool) (g : Globals)
  : outcome Globals :=
  match fuel with
  | O => OutOfFuel
  | S fuel' =>
      checked ← (if isInitialCall then checkRoots values (nodes currentCombo) 0 g
                 else Ret (true, g));
      let '(ok, g) := checked in
      if negb ok then Ret g
      else if str_gt (rangeStart currentCombo) (rangeEnd currentCombo) then Ret g
      else if forallb (fun nd => negb (isMemory nd)) (nodes currentCombo) then
        scanned ← finalSstScanAndIntersect sst currentCombo values g;
        Ret (appendMatches (fst scanned) (snd scanned))
      else
        built ← buildOptions values (vsize (nodes currentCombo))
                  (nodes currentCombo) 0
                  (rangeStart currentCombo) (rangeEnd currentCombo) [] g;
        match fst built with
        | None => Ret (snd built)
        | Some candidateOptions =>
            backtrack (fun next g' => dfsMultiColumn fuel' sst values next false g')
                      candidateOptions [] (rangeStart currentCombo)
                      (rangeEnd currentCombo) (snd built)
        end
  end.

(** The loop of [multiColumnQueryHierarchical] that collects the roots and
    narrows [s, e]; dereferencing a root that was never built is undefined. *)
Fixpoint seedCombo (trees : list BloomTree.t) (start : Combo) : outcome Combo :=
  match trees with
  | [] => Ret start
  | tr :: rest =>
      match BloomTree.root tr with
      | None => Undefined
      | Some r =>
          seedCombo rest
            (mkCombo (nodes start ++ [r])
                     (smax (rangeStart start) (startKey r))
                     (smin (rangeEnd start) (endKey r)))
      end
  end.

(** [multiColumnQueryHierarchical] returns its result and leaves the globals
    as the second component. *)
Definition multiColumnQueryHierarchical (fuel : nat) (sst : SstStore)
    (trees : list BloomTree.t) (values : list string)
    (globalStart globalEnd : string) (g : Globals)
  : outcome (list string * Globals) :=
  let n := vsize trees in
  if (n =? 0) || negb (n =? vsize values) then Ret ([], g)
  else
    let g := mkGlobals 0 0 0 (globalfinalMatches g) in
    match trees with
    | [] => Undefined
    | tree0 :: _ =>
        match BloomTree.root tree0 with
        | None => Undefined
        | Some root0 =>
            let s := if empty globalStart then startKey root0 else globalStart in
            let e := if empty globalEnd then endKey root0 else globalEnd in
            start ← seedCombo trees (mkCombo [] s e);
            let g := mkGlobals (gBloomCheckCount g) (gLeafBloomCheckCount g)
                               (gSSTCheckCount g) [] in
            g' ← dfsMultiColumn fuel sst values start true g;
            Ret (globalfinalMatches g', g')
        end
    end.

(** * Vocabulary of the properties *)

(** [a ⪯ b]: [a <= b] on [std::string]. *)
Definition sle (a b : string) : Prop := str_le a b = true.
Infix "⪯" := sle (at level 70).

(** [inserted v f]: the value [v] was inserted into the filter [f] at some
    point of its history, by a call of [insert] on a filter that satisfied
    the class invariant and had at least one bit. *)
Inductive inserted (v : string) : BloomFilter.t -> Prop :=
| inserted_now (f : BloomFilter.t) :
    BloomFilter.wf f -> 0 < BloomFilter.bitArraySize f ->
    inserted v (BloomFilter.insert f v)
| inserted_before (f : BloomFilter.t) (w : string) :
    inserted v f -> inserted v (BloomFilter.insert f w).

(** ** Concrete filters *)

(** A receiver with two hash functions and an operand with one, both of
    eight bits; the operand holds the value ["a"]. *)
Definition two_hash_filter : BloomFilter.t := BloomFilter.new 8 2.
Definition one_hash_filter : BloomFilter.t :=
  BloomFilter.insert (BloomFilter.new 8 1) "a".

(** ** Reading a sidecar file as the format describes it *)

(** The header fields and the payload of a file of at least 12 bytes, and bit
    [i] of the payload: bit [i mod 8] of byte [i / 8], a missing byte counting
    as zero. *)
Definition header_m (data : bytes) : Z := le_value (take 8 data).
Definition header_k (data : bytes) : Z := to_int32 (le_value (take 4 (drop 8 data))).
Definition payload (data : bytes) : bytes := drop 12 data.
Definition payload_bit (data : bytes) (i : Z) : bool :=
  Z.testbit (byte_at (payload data) (i / 8)) (i mod 8).

(** A file that [saveToFile] did not write can declare any size in its
    header, and [loadFromFile] allocates by it. What is stated of such a file
    is stated for a declared size of at most [2^30] bits, 128 MiB for each of
    the two allocations, so that it does not rest on an allocation that the
    program cannot make. *)
Definition loadable_bits : Z := 2 ^ 30.

(** A file system with no file, and one whose file ["leaf"] declares
    [m = 16], [k = 3] and has no payload byte at all. *)
Definition no_files : FileSystem := mkFS ∅ ∅.
Definition truncated_sidecar : bytes := le_bytes 8 16 ++ le_bytes 4 3.
Definition truncated_fs : FileSystem :=
  mkFS {[ "leaf" := truncated_sidecar ]} ∅.

(** A filter of twenty bits and three hash functions holding two values. *)
Definition sample_filter : BloomFilter.t :=
  BloomFilter.insert (BloomFilter.insert (BloomFilter.new 20 3) "hello") "world".

(** ** Per-column queries, as the design describes them *)

(** A node overlaps the query range iff ([qEnd] is empty or
    [node.startKey <= qEnd]) and ([qStart] is empty or
    [node.endKey >= qStart]). *)
Definition overlapping (node : Node) (qStart qEnd : string) : Prop :=
  (qEnd = "" \/ startKey node ⪯ qEnd) /\ (qStart = "" \/ qStart ⪯ endKey node).

(** A node is kept when it overlaps the range and its filter is positive. *)
Definition kept (value qStart qEnd : string) (node : Node) : Prop :=
  overlapping node qStart qEnd /\ BloomFilter.exists_ (bloom node) value = true.

(** [reaches value qStart qEnd node file]: below [node] there is a path of
    kept nodes that ends in a leaf (a node whose tag is not the interior tag)
    of source [file]. *)
Inductive reaches (value qStart qEnd : string) : Node -> string -> Prop :=
| reaches_leaf (node : Node) :
    kept value qStart qEnd node -> filename node <> Memory ->
    reaches value qStart qEnd node (filename node)
| reaches_child (node child : Node) (file : string) :
    kept value qStart qEnd node -> filename node = Memory ->
    child ∈ children node ->
    reaches value qStart qEnd child file ->
    reaches value qStart qEnd node file.

(** The depth-first traversal in the design's words: prune a node that does
    not overlap, prune on a negative filter, emit a leaf, else recurse into
    every child in order. *)
Fixpoint visit (value qStart qEnd : string) (node : Node) : list string :=
  if negb (BloomTree.overlaps node qStart qEnd) then []
  else if negb (BloomFilter.exists_ (bloom node) value) then []
  else if negb (isMemory node) then [filename node]
  else concat (map (visit value qStart qEnd) (children node)).

(** ** Partitions of a sorted file *)

(** The consecutive runs of [N] entries of a file; only the last run may be
    shorter, and no run is empty. *)
Fixpoint runs_upto {A : Type} (fuel N : nat) (l : list A) : list (list A) :=
  match fuel with
  | O => []
  | S fuel' =>
      match l with
      | [] => []
      | _ :: _ => take N l :: runs_upto fuel' N (drop N l)
      end
  end.

Definition runs {A : Type} (N : nat) (l : list A) : list (list A) :=
  runs_upto (length l) N l.

(** The leaf that summarises a run: a filter holding the run's values, the
    path of the file, the first key and the last key of the run. *)
Definition firstKey (run : list (string * string)) : string :=
  default "" (fst <$> head run).
Definition lastKeyOf (run : list (string * string)) : string :=
  default "" (fst <$> last run).
Definition leafOf (sstFile : string) (bloomSize numHashFunctions : Z)
    (run : list (string * string)) : Node :=
  mkNode [] (fold_left BloomFilter.insert (map snd run)
                       (BloomFilter.new bloomSize numHashFunctions))
         sstFile (firstKey run) (lastKeyOf run).

(** The locals of [processSSTFile] before the first entry. *)
Definition initialLocals (bloomSize numHashFunctions : Z) : BloomManager.locals :=
  BloomManager.mkLocals [] 0 (BloomFilter.new bloomSize numHashFunctions) "" true "".

(** A store with one file of five entries. *)
Definition five_entries : list (string * string) :=
  [("k1", "a"); ("k2", "v1"); ("k3", "b"); ("k4", "v1"); ("k5", "c")].

(** The locals of [processSSTFile] while [cur] is the partition being
    accumulated and [P] are the leaves emitted so far. *)
Definition accumulating (bloomSize numHashFunctions : Z) (P : list Node)
    (cur : list (string * string)) (l : BloomManager.locals) : Prop :=
  BloomManager.partitions l = P
  /\ BloomManager.currentCount l = vsize cur
  /\ BloomManager.partitionBloom l
     = fold_left BloomFilter.insert (map snd cur)
                 (BloomFilter.new bloomSize numHashFunctions)
  /\ BloomManager.firstEntry l = bool_decide (cur = [])
  /\ (cur <> [] -> BloomManager.partitionStartKey l = firstKey cur
                   /\ BloomManager.lastKey l = lastKeyOf cur).

(** What [processSSTFile] returns after its loop. *)
Definition finish (sstFile : string) (l : BloomManager.locals) : list Node :=
  if 0 <? BloomManager.currentCount l then
    BloomManager.partitions l
      ++ [mkNode [] (BloomManager.partitionBloom l) sstFile
                 (BloomManager.partitionStartKey l) (BloomManager.lastKey l)]
  else BloomManager.partitions l.

(** ** Level-by-level composition *)

(** The inner loop of [buildLevel] over the children themselves. *)
Fixpoint adoptList (g : list Node) (parent : Node) : outcome Node :=
  match g with
  | [] => Ret parent
  | nj :: g' =>
      let start := if str_gt (startKey parent) (startKey nj)
                   then startKey nj else startKey parent in
      let end_ := if str_lt (endKey parent) (endKey nj)
                  then endKey nj else endKey parent in
      let '(merged, r) := BloomFilter.merge (bloom parent) (bloom nj) in
      _ ← r;
      adoptList g' (mkNode (children parent ++ [nj]) merged (filename parent) start end_)
  end.

(** The parent after it has adopted one child, and a group of children, when
    no merge fails. *)
Definition adoptOne (parent nj : Node) : Node :=
  mkNode (children parent ++ [nj])
         (BloomFilter.with_bits (bloom parent)
            (zip_with orb (BloomFilter.bitArray (bloom parent))
                          (BloomFilter.bitArray (bloom nj))))
         (filename parent)
         (if str_gt (startKey parent) (startKey nj) then startKey nj else startKey parent)
         (if str_lt (endKey parent) (endKey nj) then endKey nj else endKey parent).

Definition adopted (g : list Node) (parent : Node) : Node :=
  fold_left adoptOne g parent.

(** The node [buildLevel] creates for a group before the group is adopted,
    and the parent of the group. *)
Definition emptyParent (tr : BloomTree.t) (g : list Node) : Node :=
  mkNode [] (BloomFilter.new (BloomTree.bloomSize tr) (BloomTree.numHashFunctions tr))
         Memory
         (default "" (startKey <$> head g)) (default "" (endKey <$> last g)).

Definition parentOf (tr : BloomTree.t) (g : list Node) : Node :=
  adopted g (emptyParent tr g).

(** The level above [nodes]: one parent per run of [ratio] nodes. *)
Definition levelAbove (tr : BloomTree.t) (nodes : list Node) : list Node :=
  map (parentOf tr) (runs (Z.to_nat (BloomTree.ratio tr)) nodes).

(** The child's filter has the size of the tree's filters. *)
Definition fits (tr : BloomTree.t) (n : Node) : Prop :=
  length (BloomFilter.bitArray (bloom n)) = Z.to_nat (BloomTree.bloomSize tr).

Global Instance fits_dec (tr : BloomTree.t) (n : Node) : Decision (fits tr n) :=
  Nat.eq_dec _ _.

(** ** Shape of a tree *)

(** The nodes of the tree below [n], [n] included, and its descendant leaves
    (the nodes without children). *)
Fixpoint subnodes (n : Node) : list Node :=
  n :: concat (map subnodes (children n)).

Fixpoint leaves_of (n : Node) : list Node :=
  match children n with
  | [] => [n]
  | _ :: _ => concat (map leaves_of (children n))
  end.

Definition least (s : string) (l : list string) : Prop :=
  In s l /\ forall x, In x l -> s ⪯ x.

Definition greatest (s : string) (l : list string) : Prop :=
  In s l /\ forall x, In x l -> x ⪯ s.

Definition bits_of (n : Node) : list bool := BloomFilter.bitArray (bloom n).

(** An interior node summarises a list of nodes below it: its range is their
    span and its filter the bitwise OR of theirs. *)
Definition summarises (n : Node) (below : list Node) : Prop :=
  least (startKey n) (map startKey below)
  /\ greatest (endKey n) (map endKey below)
  /\ forall j, bit_at (bits_of n) j = existsb (fun c => bit_at (bits_of c) j) below.

(** A leaf as the partitioner makes it for the tree [tr]: no children, and a
    filter of the tree's [m] and [k] that satisfies the class invariant. *)
Definition leafFor (tr : BloomTree.t) (l : Node) : Prop :=
  children l = []
  /\ BloomFilter.wf (bloom l)
  /\ BloomFilter.bitArraySize (bloom l) = BloomTree.bloomSize tr
  /\ BloomFilter.numHashFunctions (bloom l) = BloomTree.numHashFunctions tr.

(** [Built tr leaves n]: [n] is one of [leaves] or the parent [buildLevel]
    makes for a non-empty group of such nodes whose filters fit. *)
Inductive Built (tr : BloomTree.t) (leaves : list Node) : Node -> Prop :=
| built_leaf (l : Node) : In l leaves -> Built tr leaves l
| built_parent (g : list Node) :
    g <> [] -> (forall c, In c g -> Built tr leaves c) -> Forall (fits tr) g ->
    Built tr leaves (parentOf tr g).

(** [descends n d]: [d] is [n] or a node below it. *)
Inductive descends : Node -> Node -> Prop :=
| descends_refl (n : Node) : descends n n
| descends_child (n c d : Node) : In c (children n) -> descends c d -> descends n d.

(** ** Concrete trees *)

(** Two leaves, and a tree whose branching ratio is negative. *)
Definition two_leaves : list Node :=
  [mkNode [] (BloomFilter.new 8 1) "a.sst" "k1" "k2";
   mkNode [] (BloomFilter.new 8 1) "a.sst" "k3" "k4"].
Definition wrapping_tree : BloomTree.t := BloomTree.new (-1) 8 1.

(** A file of two entries, indexed with one entry per leaf, filters of eight
    bits and two hash functions, and a branching ratio of two. *)
Definition split_store : SstStore := {[ "s.sst" := [("k1", "b"); ("k2", "v")] ]}.
Definition split_hierarchy : outcome (BloomTree.t * FileSystem) :=
  BloomManager.createPartitionedHierarchy 4 split_store no_files ["s.sst"] 1 8 2 2.

(** The leaves and the tree parameters of [split_hierarchy]. *)
Definition split_leaves : list Node :=
  BloomManager.processSSTFile split_store "s.sst" 1 8 2.
Definition split_params : BloomTree.t := BloomTree.new 2 8 2.

(** ** The root check *)

(** The column of the first root whose filter does not hold its value, and
    the number of roots the root check consults: the roots up to and
    including that one, or all of them. *)
Fixpoint firstMiss (values : list string) (roots : list Node) : option nat :=
  match roots, values with
  | r :: roots', v :: values' =>
      if BloomFilter.exists_ (bloom r) v then S <$> firstMiss values' roots'
      else Some 0%nat
  | _, _ => None
  end.

Definition consulted (values : list string) (roots : list Node) : nat :=
  match firstMiss values roots with
  | Some j => S j
  | None => length roots
  end.

(** ** A database of two column families *)

Definition two_column_store : SstStore :=
  list_to_map
    [("c1.sst", five_entries);
     ("c2.sst", [("k1", "a"); ("k2", "v2"); ("k3", "b")]);
     ("c2b.sst", [("k4", "v2"); ("k5", "c")])].

Definition column1 : outcome (BloomTree.t * FileSystem) :=
  BloomManager.createPartitionedHierarchy 8 two_column_store no_files
    ["c1.sst"] 2 64 3 2.
Definition column2 : outcome (BloomTree.t * FileSystem) :=
  BloomManager.createPartitionedHierarchy 8 two_column_store no_files
    ["c2.sst"; "c2b.sst"] 2 64 3 2.

Definition untouched : Globals := mkGlobals 7 7 7 ["stale"].

(** The query for the given two values over the two column trees. *)
Definition two_column_query (v1 v2 globalStart globalEnd : string)
  : outcome (list string * Globals) :=
  t1 ← column1; t2 ← column2;
  multiColumnQueryHierarchical 10 two_column_store [fst t1; fst t2] [v1; v2]
    globalStart globalEnd untouched.

(** ** Sorted files *)

(** An SST file lists its entries in key order. *)
Fixpoint sortedb (entries : list (string * string)) : bool :=
  match entries with
  | [] => true
  | kv :: rest =>
      forallb (fun kv' => str_le (fst kv) (fst kv')) rest && sortedb rest
  end.

Definition sortedFile (entries : list (string * string)) : Prop :=
  sortedb entries = true.

Definition sortedStore (sst : SstStore) : Prop :=
  map_Forall (fun _ entries => sortedFile entries) sst.


(** ** The multi-column search *)

(** The number of levels of a tree, and the levels of interior nodes that a
    combination still has to descend. *)
Fixpoint height (n : Node) : nat := S (list_max (map height (children n))).

Definition depth (n : Node) : nat := if isMemory n then height n else 0%nat.

Definition tallest (ns : list Node) : nat := list_max (map depth ns).

(** [wp total o post]: when the outcome [o] is a result, the result satisfies
    [post]; with [total], [o] is a result. *)
Definition wp {A : Type} (total : bool) (o : outcome A) (post : A -> Prop) : Prop :=
  match o with
  | Ret a => post a
  | _ => total = false
  end.

(** What one column's task of [finalSstScanAndIntersect] scans. *)
Definition columnScan (sst : SstStore) (combo : Combo) (leaf : Node)
    (value : string) : list string :=
  DBManager.scanFileForKeysWithValue sst (filename leaf) value
    (smax (rangeStart combo) (startKey leaf))
    (smin (rangeEnd combo) (endKey leaf)).

(** The nodes that may take the place of [node] in the next combination: its
    children when it is interior, else the node itself. *)
Definition succ_of (node c : Node) : Prop :=
  if isMemory node then In c (children node) else c = node.

(** The key lies in the range of the node. *)
Definition covers (n : Node) (key : string) : Prop :=
  startKey n ⪯ key /\ key ⪯ endKey n.

(** [holds sst key node value]: at or below [node] there is a leaf whose file
    has the entry [(key, value)]. *)
Definition holds (sst : SstStore) (key : string) (node : Node) (value : string)
  : Prop :=
  exists leaf entries,
    descends node leaf /\ isMemory leaf = false
    /\ sst !! filename leaf = Some entries /\ In (key, value) entries.

(** [target sst key value node]: from [node] a path of nodes leads to a leaf
    whose file has the entry [(key, value)]; every node of the path covers
    the key and has a filter that is positive for the value. *)
Inductive target (sst : SstStore) (key value : string) : Node -> Prop :=
| target_leaf (n : Node) (entries : list (string * string)) :
    isMemory n = false -> covers n key ->
    BloomFilter.exists_ (bloom n) value = true ->
    sst !! filename n = Some entries -> In (key, value) entries ->
    target sst key value n
| target_node (n c : Node) :
    isMemory n = true -> covers n key ->
    BloomFilter.exists_ (bloom n) value = true ->
    In c (children n) -> target sst key value c ->
    target sst key value n.

(** A combination whose range end does not exceed the end key of its nodes,
    with one node per value. *)
Definition WF (values : list string) (combo : Combo) : Prop :=
  length (nodes combo) = length values
  /\ Forall (fun n => rangeEnd combo ⪯ endKey n) (nodes combo).

(** [combo'] is a combination the search may visit from [combo]. *)
Definition Succ (values : list string) (combo combo' : Combo) : Prop :=
  Forall2 succ_of (nodes combo) (nodes combo')
  /\ rangeStart combo ⪯ rangeStart combo'
  /\ rangeEnd combo' ⪯ rangeEnd combo
  /\ WF values combo'.

(** What a key found from a combination satisfies: every column holds it
    with the column's value; when the files are in key order, it is not
    below the range start, and not above the range end when the range start
    is not empty. *)
Definition GoodC (sst : SstStore) (values : list string) (combo : Combo)
    (key : string) : Prop :=
  Forall2 (holds sst key) (nodes combo) values
  /\ (sortedStore sst ->
      rangeStart combo ⪯ key
      /\ (rangeStart combo <> "" -> key ⪯ rangeEnd combo)).

(** A key that the search from a combination has to find. *)
Definition TargetC (sst : SstStore) (values : list string) (combo : Combo)
    (key : string) : Prop :=
  sortedStore sst /\ nodes combo <> []
  /\ rangeStart combo ⪯ key /\ key ⪯ rangeEnd combo
  /\ Forall2 (fun n v => target sst key v n) (nodes combo) values.

(** The matches added between two states of the globals. *)
Definition Post (sst : SstStore) (values : list string) (combo : Combo)
    (g g' : Globals) : Prop :=
  exists new,
    globalfinalMatches g' = globalfinalMatches g ++ new
    /\ (forall key, In key new -> GoodC sst values combo key)
    /\ (forall key, TargetC sst values combo key -> In key new).

(** The fields of a column after [consider] has accepted a node. *)
Definition passes (v tightStart tightEnd : string) (c : Node) : Prop :=
  tightStart ⪯ endKey c /\ startKey c ⪯ tightEnd
  /\ BloomFilter.exists_ (bloom c) v = true.

Definition ColOK (col : column) : Prop :=
  (found col = false -> options col = [])
  /\ forall o, In o (options col) ->
       found col = true /\ colMin col ⪯ startKey o /\ endKey o ⪯ colMax col.

(** ** Hierarchies over a store *)

(** The number of levels of a tree that has been built. *)
Definition levels (tr : BloomTree.t) : nat :=
  match BloomTree.root tr with
  | Some r => height r
  | None => 0%nat
  end.

(** [indexes sst files tree]: [tree] is the hierarchy that
    [createPartitionedHierarchy] builds over the files of one column, for
    parameters in the range of their types, at least one entry per leaf, one
    bit per filter and one child per interior node. *)
Definition indexes (sst : SstStore) (files : list string) (tree : BloomTree.t)
  : Prop :=
  exists fuel fs fs' partitionSize bloomSize numHashFunctions branchingRatio,
    1 <= partitionSize < 2 ^ 64
    /\ 0 < bloomSize /\ bloomSize + 7 < 2 ^ 64
    /\ - 2 ^ 31 <= numHashFunctions < 2 ^ 31
    /\ 1 <= branchingRatio
    /\ vsize (BloomTree.leafNodes tree) + branchingRatio < 2 ^ 64
    /\ BloomManager.createPartitionedHierarchy fuel sst fs files partitionSize
         bloomSize numHashFunctions branchingRatio
       = Ret (tree, fs').

(** A file of the column has the entry [(key, value)]; its path is not the
    tag of the interior nodes. *)
Definition columnHas (sst : SstStore) (key : string) (files : list string)
    (value : string) : Prop :=
  exists file entries,
    In file files /\ file <> Memory
    /\ sst !! file = Some entries /\ In (key, value) entries.

(** ** Tags and shapes *)

(** Every node at or below [n] is tagged as an interior node exactly when it
    has children. *)
Definition tagged (n : Node) : bool :=
  forallb (fun d => Bool.eqb (match children d with [] => true | _ :: _ => false end)
                             (negb (isMemory d)))
          (subnodes n).

(** ** Columns of the database *)

(** The column family [column] of the database holds [value] for [key]. *)
Definition holdsValue (db : DBManager.Database) (key column value : string)
  : Prop :=
  exists cf, db !! column = Some cf /\ DBManager.Get cf key = Some value.

(** A database of two column families. *)
Definition two_column_db : DBManager.Database :=
  list_to_map
    [("c1", five_entries);
     ("c2", [("k1", "a"); ("k2", "v2"); ("k3", "b"); ("k4", "v2"); ("k5", "c")])].

(** ** Ascending keys *)



(** ** The index and the database *)

(** [keptPath value qStart qEnd n l]: a path of kept nodes leads from [n]
    down to [l], which has no children. *)
Inductive keptPath (value qStart qEnd : string) : Node -> Node -> Prop :=
| keptPath_leaf (n : Node) :
    kept value qStart qEnd n -> children n = [] ->
    keptPath value qStart qEnd n n
| keptPath_child (n c l : Node) :
    kept value qStart qEnd n -> In c (children n) ->
    keptPath value qStart qEnd c l ->
    keptPath value qStart qEnd n l.

(** The files of a column hold exactly what its column family holds. *)
Definition stored (sst : SstStore) (files : list string)
    (cf : list (string * string)) : Prop :=
  forall key v,
    DBManager.Get cf key = Some v
    <-> exists file entries,
          In file files /\ sst !! file = Some entries /\ In (key, v) entries.

(** ** A store whose columns begin with the empty key *)

Definition empty_key_store : SstStore :=
  list_to_map
    [("e1.sst", [("", "v1"); ("k9", "v1")]);
     ("e2.sst", [("", "v2"); ("k9", "v2")])].

Definition empty_key_column1 : outcome (BloomTree.t * FileSystem) :=
  BloomManager.createPartitionedHierarchy 8 empty_key_store no_files
    ["e1.sst"] 1 64 3 2.
Definition empty_key_column2 : outcome (BloomTree.t * FileSystem) :=
  BloomManager.createPartitionedHierarchy 8 empty_key_store no_files
    ["e2.sst"] 1 64 3 2.
(** * Properties *)

(** ** The order on strings *)

Lemma ascii_compare_lt_trans (a b c : ascii) :
  Ascii.compare a b = Lt -> Ascii.compare b c = Lt -> Ascii.compare a c = Lt.
Proof.
  unfold Ascii.compare. rewrite !N.compare_lt_iff. lia.
Qed.

Lemma compare_lt_trans (a b c : string) :
  String.compare a b = Lt -> String.compare b c = Lt -> String.compare a c = Lt.
Proof.
  revert b c. induction a as [|x a IH]; intros [|y b] [|z c]; simpl; try congruence.
  destruct (Ascii.compare x y) eqn:Hxy; try discriminate.
  - apply Ascii.compare_eq_iff in Hxy. subst y.
    destruct (Ascii.compare x z); try congruence. apply IH.
  - intros _. destruct (Ascii.compare y z) eqn:Hyz; try discriminate.
    + apply Ascii.compare_eq_iff in Hyz. subst z. now rewrite Hxy.
    + now rewrite (ascii_compare_lt_trans x y z).
Qed.

Lemma compare_refl (a : string) : String.compare a a = Eq.
Proof.
  induction a as [|x a IH]; simpl; [reflexivity|].
  unfold Ascii.compare. now rewrite N.compare_refl.
Qed.

Lemma str_lt_not_le (a b : string) : str_lt a b = negb (str_le b a).
Proof.
  unfold str_lt, str_le, String.ltb, String.leb.
  rewrite (String.compare_antisym b a). now destruct (String.compare a b).
Qed.

Lemma str_gt_not_le (a b : string) : str_gt a b = negb (str_le a b).
Proof. unfold str_gt. apply str_lt_not_le. Qed.

Lemma str_ge_le (a b : string) : str_ge a b = str_le b a.
Proof. reflexivity. Qed.

Lemma sle_refl (a : string) : a ⪯ a.
Proof. unfold sle, str_le, String.leb. now rewrite compare_refl. Qed.

Lemma sle_total (a b : string) : a ⪯ b \/ b ⪯ a.
Proof. apply String.leb_total. Qed.

Lemma sle_antisym (a b : string) : a ⪯ b -> b ⪯ a -> a = b.
Proof. apply String.leb_antisym. Qed.

Lemma sle_trans (a b c : string) : a ⪯ b -> b ⪯ c -> a ⪯ c.
Proof.
  unfold sle, str_le, String.leb. intros Hab Hbc.
  destruct (String.compare a b) eqn:E1; try discriminate.
  - apply String.compare_eq_iff in E1. now subst.
  - destruct (String.compare b c) eqn:E2; try discriminate.
    + apply String.compare_eq_iff in E2. subst. now rewrite E1.
    + now rewrite (compare_lt_trans a b c).
Qed.

Lemma not_sle (a b : string) : str_le a b = false -> b ⪯ a.
Proof. intros H. destruct (sle_total a b) as [H'|H']; [congruence | exact H']. Qed.

Lemma sle_empty (a : string) : "" ⪯ a.
Proof. now destruct a. Qed.

Lemma sle_empty_inv (a : string) : a ⪯ "" -> a = "".
Proof. intros H. apply sle_antisym; [exact H | apply sle_empty]. Qed.

Lemma empty_true (a : string) : empty a = true <-> a = "".
Proof. destruct a; simpl; split; congruence. Qed.

Lemma empty_false (a : string) : empty a = false <-> a <> "".
Proof. destruct a; simpl; split; congruence. Qed.

Lemma smax_cases (a b : string) :
  (smax a b = b /\ a ⪯ b) \/ (smax a b = a /\ b ⪯ a).
Proof.
  unfold smax. rewrite str_lt_not_le.
  destruct (str_le b a) eqn:E; simpl; [right | left]; split; auto.
  now apply not_sle.
Qed.

Lemma smin_cases (a b : string) :
  (smin a b = b /\ b ⪯ a) \/ (smin a b = a /\ a ⪯ b).
Proof.
  unfold smin. rewrite str_lt_not_le.
  destruct (str_le a b) eqn:E; simpl; [right | left]; split; auto.
  now apply not_sle.
Qed.

Lemma sle_smax_l (a b : string) : a ⪯ smax a b.
Proof. destruct (smax_cases a b) as [[-> H]|[-> H]]; auto using sle_refl. Qed.

Lemma sle_smax_r (a b : string) : b ⪯ smax a b.
Proof. destruct (smax_cases a b) as [[-> H]|[-> H]]; auto using sle_refl. Qed.

Lemma smax_lub (a b c : string) : a ⪯ c -> b ⪯ c -> smax a b ⪯ c.
Proof. destruct (smax_cases a b) as [[-> H]|[-> H]]; auto. Qed.

Lemma smin_sle_l (a b : string) : smin a b ⪯ a.
Proof. destruct (smin_cases a b) as [[-> H]|[-> H]]; auto using sle_refl. Qed.

Lemma smin_sle_r (a b : string) : smin a b ⪯ b.
Proof. destruct (smin_cases a b) as [[-> H]|[-> H]]; auto using sle_refl. Qed.

Lemma smin_glb (a b c : string) : c ⪯ a -> c ⪯ b -> c ⪯ smin a b.
Proof. destruct (smin_cases a b) as [[-> H]|[-> H]]; auto. Qed.

Create HintDb sle.
#[export] Hint Resolve sle_refl sle_empty sle_smax_l sle_smax_r smin_sle_l
  smin_sle_r smax_lub smin_glb : sle.

(** ** Vectors indexed by [size_t] *)

Lemma upto_nat (n : nat) : upto (Z.of_nat n) = map Z.of_nat (seq 0 n).
Proof. unfold upto. now rewrite Nat2Z.id. Qed.

Lemma upto_S (n : nat) :
  upto (Z.of_nat (S n)) = upto (Z.of_nat n) ++ [Z.of_nat n].
Proof. rewrite !upto_nat, seq_S, map_app. reflexivity. Qed.

Lemma upto_nonpos (n : Z) : n <= 0 -> upto n = [].
Proof. intros H. unfold upto. now replace (Z.to_nat n) with 0%nat by lia. Qed.

Lemma elem_of_upto (n i : Z) : i ∈ upto n <-> 0 <= i < n.
Proof.
  unfold upto. rewrite list_elem_of_fmap. split.
  - intros (k & -> & Hk). apply list_elem_of_In, in_seq in Hk. lia.
  - intros H. exists (Z.to_nat i). split; [lia|].
    apply list_elem_of_In, in_seq. lia.
Qed.

Lemma at_of_nat {A : Type} (v : list A) (i : nat) : at_ v (Z.of_nat i) = v !! i.
Proof.
  unfold at_, vsize. rewrite Nat2Z.id. destruct (decide _) as [H|H]; [reflexivity|].
  symmetry. apply lookup_ge_None. lia.
Qed.

Lemma at_Some {A : Type} (v : list A) (i : Z) (x : A) :
  at_ v i = Some x <-> 0 <= i /\ v !! Z.to_nat i = Some x.
Proof.
  unfold at_, vsize. destruct (decide _) as [H|H].
  - split; [intros; split; [lia | assumption] | now intros [_ ?]].
  - split; [discriminate|]. intros [H0 Hx]. apply lookup_lt_Some in Hx. lia.
Qed.

Lemma at_ge {A : Type} (v : list A) (i : Z) : vsize v <= i -> at_ v i = None.
Proof. intros H. unfold at_. destruct (decide _); [lia | reflexivity]. Qed.

Lemma at_neg {A : Type} (v : list A) (i : Z) : i < 0 -> at_ v i = None.
Proof. intros H. unfold at_. destruct (decide _); [lia | reflexivity]. Qed.

Lemma at_is_Some {A : Type} (v : list A) (i : Z) :
  0 <= i < vsize v -> is_Some (at_ v i).
Proof.
  intros H. unfold at_. destruct (decide _); [|lia].
  apply lookup_lt_is_Some. unfold vsize in H. lia.
Qed.

Lemma vsize_set_at {A : Type} (v : list A) (i : Z) (x : A) :
  vsize (set_at v i x) = vsize v.
Proof.
  unfold set_at, vsize. destruct (decide _); [|reflexivity].
  now rewrite length_insert.
Qed.

Lemma at_set_at {A : Type} (v : list A) (i j : Z) (x : A) :
  at_ (set_at v i x) j =
  if decide (i = j /\ 0 <= i < vsize v) then Some x else at_ v j.
Proof.
  pose proof (vsize_set_at v i x) as Hlen. revert Hlen.
  unfold set_at. destruct (decide (0 <= i < vsize v)) as [Hi|Hi]; intros Hlen.
  - unfold at_. rewrite Hlen.
    destruct (decide (i = j /\ _)) as [[-> _]|Hne].
    + destruct (decide _); [|lia].
      apply list_lookup_insert_eq. unfold vsize in Hi. lia.
    + destruct (decide (0 <= j < _)); [|reflexivity].
      apply list_lookup_insert_ne. intros E. apply Hne. split; [lia | assumption].
  - destruct (decide _) as [[_ ?]|_]; [contradiction | reflexivity].
Qed.

Lemma at_ext {A : Type} (v w : list A) :
  (forall i, at_ v i = at_ w i) -> v = w.
Proof.
  intros H. apply list_eq. intros i. rewrite <- !at_of_nat. apply H.
Qed.


(** A loop that assigns [v[i] = phi i v[i]] for [i] from [0] to [n-1]. *)
Lemma vsize_fold_set_at {A : Type} (f : list A -> Z -> A) (l : list Z) (v : list A) :
  vsize (fold_left (fun bits i => set_at bits i (f bits i)) l v) = vsize v.
Proof.
  revert v. induction l as [|i l IH]; intros v; simpl; [reflexivity|].
  rewrite IH. apply vsize_set_at.
Qed.

Lemma at_fold_set_at {A : Type} (phi : Z -> option A -> A) (n : nat) (v : list A) (j : Z) :
  Z.of_nat n <= vsize v ->
  at_ (fold_left (fun bits i => set_at bits i (phi i (at_ bits i)))
                 (upto (Z.of_nat n)) v) j
  = if decide (0 <= j < Z.of_nat n) then Some (phi j (at_ v j)) else at_ v j.
Proof.
  revert j. induction n as [|n IH]; intros j Hn.
  - simpl. destruct (decide _); [lia | reflexivity].
  - rewrite upto_S, fold_left_app. simpl.
    pose proof (vsize_fold_set_at (fun bits i => phi i (at_ bits i))
                  (upto (Z.of_nat n)) v) as Hw.
    cbv beta in Hw. rewrite at_set_at, Hw, !IH by lia.
    destruct (decide (Z.of_nat n = j /\ _)) as [[<- _]|Hne].
    + destruct (decide (0 <= Z.of_nat n < Z.of_nat (S n))); [|lia].
      destruct (decide (0 <= Z.of_nat n < Z.of_nat n)); [lia | reflexivity].
    + destruct (decide (0 <= j < Z.of_nat n)), (decide (0 <= j < Z.of_nat (S n)));
        try reflexivity; lia.
Qed.

(** ** Bloom filters *)

Lemma bit_at_true (v : list bool) (i : Z) :
  bit_at v i = true <-> at_ v i = Some true.
Proof. unfold bit_at. destruct (at_ v i) as [[]|]; simpl; split; congruence. Qed.

Lemma hash_range (f : BloomFilter.t) (key : string) (seed : Z) :
  0 < BloomFilter.bitArraySize f ->
  0 <= BloomFilter.hash f key seed < BloomFilter.bitArraySize f.
Proof. intros H. unfold BloomFilter.hash. apply Z.mod_pos_bound, H. Qed.

(** Setting bits never clears one. *)
Lemma set_true_mono (h : Z -> Z) (l : list Z) (v : list bool) (j : Z) :
  bit_at v j = true ->
  bit_at (fold_left (fun bits i => set_at bits (h i) true) l v) j = true.
Proof.
  revert v. induction l as [|i l IH]; intros v Hj; simpl; [exact Hj|].
  apply IH. apply bit_at_true. rewrite at_set_at.
  destruct (decide _); [reflexivity | now apply bit_at_true].
Qed.

Lemma set_true_hit (h : Z -> Z) (l : list Z) (v : list bool) (i : Z) :
  i ∈ l -> 0 <= h i < vsize v ->
  bit_at (fold_left (fun bits i => set_at bits (h i) true) l v) (h i) = true.
Proof.
  revert v. induction l as [|x l IH]; intros v Hin Hr; [now apply not_elem_of_nil in Hin|].
  simpl. apply elem_of_cons in Hin as [<-|Hin].
  - apply set_true_mono, bit_at_true. rewrite at_set_at.
    destruct (decide _) as [_|Hn]; [reflexivity | exfalso; apply Hn; auto].
  - apply IH; [exact Hin | now rewrite vsize_set_at].
Qed.

Lemma vsize_set_true (h : Z -> Z) (l : list Z) (v : list bool) :
  vsize (fold_left (fun bits i => set_at bits (h i) true) l v) = vsize v.
Proof. apply (vsize_fold_set_at (fun _ _ => true) (map h l)) || idtac.
  revert v. induction l as [|x l IH]; intros v; simpl; [reflexivity|].
  rewrite IH. apply vsize_set_at.
Qed.

Lemma insert_wf (f : BloomFilter.t) (w : string) :
  BloomFilter.wf f -> BloomFilter.wf (BloomFilter.insert f w).
Proof.
  intros (H1 & H2 & H3). unfold BloomFilter.wf, BloomFilter.insert. simpl.
  rewrite vsize_set_true. auto.
Qed.

Lemma insert_size (f : BloomFilter.t) (w : string) :
  BloomFilter.bitArraySize (BloomFilter.insert f w) = BloomFilter.bitArraySize f.
Proof. reflexivity. Qed.

Lemma insert_hashes (f : BloomFilter.t) (w : string) :
  BloomFilter.numHashFunctions (BloomFilter.insert f w) = BloomFilter.numHashFunctions f.
Proof. reflexivity. Qed.

Lemma inserted_wf (v : string) (f : BloomFilter.t) :
  inserted v f -> BloomFilter.wf f /\ 0 < BloomFilter.bitArraySize f.
Proof.
  induction 1 as [f Hwf Hm | f w _ [IH1 IH2]]; split;
    auto using insert_wf.
Qed.

(** [exists] only reads the bits at the hashed positions: a filter of the same
    size with more bits set and no more hash functions answers [true]
    wherever the first does. *)
Lemma exists_mono (f g : BloomFilter.t) (v : string) :
  BloomFilter.bitArraySize g = BloomFilter.bitArraySize f ->
  BloomFilter.numHashFunctions g <= BloomFilter.numHashFunctions f ->
  (forall j, bit_at (BloomFilter.bitArray f) j = true ->
             bit_at (BloomFilter.bitArray g) j = true) ->
  BloomFilter.exists_ f v = true -> BloomFilter.exists_ g v = true.
Proof.
  intros Hm Hk Hbits. unfold BloomFilter.exists_.
  rewrite !forallb_forall. intros H i Hi.
  apply list_elem_of_In, elem_of_upto in Hi.
  unfold BloomFilter.hash. rewrite Hm. apply Hbits.
  apply (H i). apply list_elem_of_In, elem_of_upto. lia.
Qed.

(** No false negatives: a value tests positive right after its insertion... *)
Lemma exists_insert (f : BloomFilter.t) (v : string) :
  BloomFilter.wf f -> 0 < BloomFilter.bitArraySize f ->
  BloomFilter.exists_ (BloomFilter.insert f v) v = true.
Proof.
  intros (Hlen & _) Hm. unfold BloomFilter.exists_.
  apply forallb_forall. intros i Hi. apply list_elem_of_In in Hi.
  unfold BloomFilter.insert at 1. cbn [BloomFilter.bitArray BloomFilter.with_bits].
  change (BloomFilter.hash (BloomFilter.insert f v) v i) with (BloomFilter.hash f v i).
  change (BloomFilter.numHashFunctions (BloomFilter.insert f v))
    with (BloomFilter.numHashFunctions f) in Hi.
  apply (set_true_hit (BloomFilter.hash f v)); [exact Hi|].
  rewrite Hlen. now apply hash_range.
Qed.

(** ... and after any later insertion. *)
Lemma exists_insert_other (f : BloomFilter.t) (v w : string) :
  BloomFilter.exists_ f v = true ->
  BloomFilter.exists_ (BloomFilter.insert f w) v = true.
Proof.
  apply exists_mono; [reflexivity | reflexivity |].
  intros j Hj. now apply set_true_mono.
Qed.

Lemma inserted_exists (v : string) (f : BloomFilter.t) :
  inserted v f -> BloomFilter.exists_ f v = true.
Proof.
  induction 1; [now apply exists_insert | now apply exists_insert_other].
Qed.

(** The element-by-element loop of [merge] computes the bitwise OR. *)
Lemma merge_loop_bit (a b : list bool) (j : Z) :
  bit_at (fold_left (fun bits i => set_at bits i (bit_at bits i || bit_at b i))
                    (upto (vsize a)) a) j
  = if decide (0 <= j < vsize a) then bit_at a j || bit_at b j else false.
Proof.
  pose proof (at_fold_set_at (fun i o => default false o || bit_at b i)
                (length a) a j ltac:(reflexivity)) as H.
  cbv beta in H. unfold bit_at, vsize in *. rewrite H.
  destruct (decide _) as [Hj|Hj]; [reflexivity|].
  unfold at_, vsize. destruct (decide _); [contradiction | reflexivity].
Qed.

Lemma merge_loop_bits (a b : list bool) :
  length a = length b ->
  fold_left (fun bits i => set_at bits i (bit_at bits i || bit_at b i))
            (upto (vsize a)) a
  = zip_with orb a b.
Proof.
  intros Hlen. apply list_eq. intros i.
  pose proof (merge_loop_bit a b (Z.of_nat i)) as H.
  pose proof (vsize_fold_set_at (fun bits i => bit_at bits i || bit_at b i)
                (upto (vsize a)) a) as Hsz.
  cbv beta in Hsz. revert H Hsz.
  generalize (fold_left (fun bits i => set_at bits i (bit_at bits i || bit_at b i))
                        (upto (vsize a)) a).
  intros c H Hsz. unfold bit_at in H. rewrite !at_of_nat in H. unfold vsize in *.
  rewrite lookup_zip_with.
  destruct (decide (i < length a)%nat) as [Hi|Hi].
  - destruct (lookup_lt_is_Some_2 a i Hi) as [x Hx].
    destruct (lookup_lt_is_Some_2 b i) as [y Hy]; [lia|].
    destruct (lookup_lt_is_Some_2 c i) as [z Hz]; [lia|].
    rewrite Hx, Hy, Hz in *. simpl in *.
    destruct (decide _); [|lia]. now subst.
  - rewrite (lookup_ge_None_2 a) by lia. simpl.
    apply lookup_ge_None_2. lia.
Qed.

Lemma merge_fields (self other : BloomFilter.t) :
  BloomFilter.numHashFunctions (fst (BloomFilter.merge self other))
    = BloomFilter.numHashFunctions self
  /\ BloomFilter.bitArraySize (fst (BloomFilter.merge self other))
    = BloomFilter.bitArraySize self
  /\ vsize (BloomFilter.bitArray (fst (BloomFilter.merge self other)))
    = vsize (BloomFilter.bitArray self).
Proof.
  unfold BloomFilter.merge. destruct (decide _); simpl; auto.
  repeat split.
  apply (vsize_fold_set_at
           (fun bits i => bit_at bits i || bit_at (BloomFilter.bitArray other) i)).
Qed.

Lemma merge_ok (self other : BloomFilter.t) :
  length (BloomFilter.bitArray self) = length (BloomFilter.bitArray other) ->
  BloomFilter.merge self other
  = (BloomFilter.with_bits self
       (zip_with orb (BloomFilter.bitArray self) (BloomFilter.bitArray other)),
     Ret tt).
Proof.
  intros H. unfold BloomFilter.merge. destruct (decide _); [|contradiction].
  now rewrite merge_loop_bits.
Qed.

Lemma bit_at_zip_orb (a b : list bool) (j : Z) :
  length a = length b ->
  bit_at (zip_with orb a b) j = bit_at a j || bit_at b j.
Proof.
  intros Hlen. rewrite <- merge_loop_bits by exact Hlen. rewrite merge_loop_bit.
  destruct (decide _) as [H|H]; [reflexivity|].
  assert (Hsz : vsize b = vsize a) by (unfold vsize; now rewrite Hlen).
  unfold bit_at, at_. rewrite Hsz.
  destruct (decide _); [contradiction | reflexivity].
Qed.

(** C6 (amended). [merge] throws the size-mismatch error exactly when the two
    bit arrays differ in length, and then leaves the receiver as it was;
    otherwise it returns normally, keeps the receiver's [k] and [m], and every
    bit of the receiver becomes the OR of the two operands' bits. Afterwards
    [exists] holds on the receiver for every value that had been inserted into
    the receiver, and for every value that had been inserted into the other
    operand provided the receiver uses no more hash functions than the other
    operand (in particular when both share [k]). *)
Theorem merge_spec (self other : BloomFilter.t) :
  let merged := fst (BloomFilter.merge self other) in
  let ended := snd (BloomFilter.merge self other) in
  (ended = Throw BloomFilter.size_mismatch
   <-> length (BloomFilter.bitArray self) <> length (BloomFilter.bitArray other))
  /\ (ended = Ret tt
      <-> length (BloomFilter.bitArray self) = length (BloomFilter.bitArray other))
  /\ (length (BloomFilter.bitArray self) <> length (BloomFilter.bitArray other)
      -> merged = self)
  /\ (length (BloomFilter.bitArray self) = length (BloomFilter.bitArray other)
      -> BloomFilter.numHashFunctions merged = BloomFilter.numHashFunctions self
         /\ BloomFilter.bitArraySize merged = BloomFilter.bitArraySize self
         /\ BloomFilter.bitArray merged
            = zip_with orb (BloomFilter.bitArray self) (BloomFilter.bitArray other)
         /\ (forall i, bit_at (BloomFilter.bitArray merged) i
                       = bit_at (BloomFilter.bitArray self) i
                         || bit_at (BloomFilter.bitArray other) i)
         /\ (forall v, inserted v self -> BloomFilter.exists_ merged v = true)
         /\ (forall v, BloomFilter.wf self -> inserted v other ->
                       BloomFilter.numHashFunctions self
                         <= BloomFilter.numHashFunctions other ->
                       BloomFilter.exists_ merged v = true)).
Proof.
  cbv zeta. repeat split.
  - unfold BloomFilter.merge. destruct (decide _); simpl; congruence.
  - unfold BloomFilter.merge. destruct (decide _); simpl; congruence.
  - unfold BloomFilter.merge. destruct (decide _); simpl; congruence.
  - unfold BloomFilter.merge. destruct (decide _); simpl; congruence.
  - unfold BloomFilter.merge. destruct (decide _); simpl; congruence.
  - now rewrite merge_ok.
  - now rewrite merge_ok.
  - now rewrite merge_ok.
  - intros i. rewrite merge_ok by assumption. simpl. now apply bit_at_zip_orb.
  - intros v Hv. rewrite merge_ok by assumption.
    apply (exists_mono self); [reflexivity | reflexivity | | now apply inserted_exists].
    intros j Hj. simpl. rewrite bit_at_zip_orb by assumption. now rewrite Hj.
  - intros v (Hs & _) Hv Hk. rewrite merge_ok by assumption.
    destruct (inserted_wf _ _ Hv) as [(Ho & _) _].
    apply (exists_mono other); simpl.
    + rewrite <- Hs, <- Ho. unfold vsize. congruence.
    + exact Hk.
    + intros j Hj. rewrite bit_at_zip_orb by assumption. rewrite Hj. apply orb_true_r.
    + now apply inserted_exists.
Qed.

(** C6, as stated, fails: two filters of equal length merge without error, yet
    the value inserted into the operand that has one hash function is not
    found in the receiver that has two. *)
Lemma merge_loses_value_of_other_k :
  length (BloomFilter.bitArray two_hash_filter)
    = length (BloomFilter.bitArray one_hash_filter)
  /\ snd (BloomFilter.merge two_hash_filter one_hash_filter) = Ret tt
  /\ inserted "a" one_hash_filter
  /\ BloomFilter.exists_ (fst (BloomFilter.merge two_hash_filter one_hash_filter)) "a"
     = false.
Proof.
  repeat split; try reflexivity.
  apply inserted_now; [|reflexivity].
  unfold BloomFilter.wf. simpl. unfold vsize. simpl. lia.
Qed.

(** ** The sidecar file format *)

Lemma length_le_bytes (n : nat) (z : Z) : length (le_bytes n z) = n.
Proof. revert z. induction n; intros z; simpl; auto. Qed.

Lemma le_value_le_bytes (n : nat) (z : Z) :
  le_value (le_bytes n z) = z mod 256 ^ Z.of_nat n.
Proof.
  revert z. induction n as [|n IH]; intros z.
  - simpl. now rewrite Z.mod_1_r.
  - cbn [le_bytes le_value]. rewrite IH.
    rewrite Nat2Z.inj_succ, Z.pow_succ_r by lia.
    rewrite Z.rem_mul_r by lia. lia.
Qed.

Lemma to_int32_wrap32 (k : Z) : - 2 ^ 31 <= k < 2 ^ 31 -> to_int32 (wrap32 k) = k.
Proof.
  intros H. unfold to_int32, wrap32.
  destruct (Z_lt_le_dec k 0) as [Hneg|Hpos].
  - replace (k mod 2 ^ 32) with (k + 2 ^ 32).
    + destruct (Z.ltb_spec (k + 2 ^ 32) (2 ^ 31)); lia.
    + apply Z.mod_unique with (q := -1); lia.
  - rewrite Z.mod_small by lia. destruct (Z.ltb_spec k (2 ^ 31)); lia.
Qed.

Lemma read_app (a b : bytes) (n : Z) :
  n = vsize a -> read (mkIfstream (a ++ b) true) n = (a, mkIfstream b true).
Proof.
  intros ->. unfold read, vsize. simpl.
  rewrite length_app. destruct (Z.leb_spec (Z.of_nat (length a))
                                  (Z.of_nat (length a + length b))); [|lia].
  rewrite Nat2Z.id. now rewrite take_app_length, drop_app_length.
Qed.

Lemma mask_test (x s : Z) :
  0 <= s -> negb (Z.land x (Z.shiftl 1 s) =? 0) = Z.testbit x s.
Proof.
  intros Hs. rewrite Z.shiftl_1_l.
  destruct (Z.testbit x s) eqn:E.
  - destruct (Z.eqb_spec (Z.land x (2 ^ s)) 0) as [H0|]; [|reflexivity].
    exfalso. assert (Hb : Z.testbit (Z.land x (2 ^ s)) s = true).
    { rewrite Z.land_spec, E, Z.pow2_bits_true; auto. }
    rewrite H0, Z.bits_0 in Hb. discriminate.
  - replace (Z.land x (2 ^ s)) with 0; [reflexivity|].
    symmetry. apply Z.bits_inj'. intros n Hn.
    rewrite Z.land_spec, Z.bits_0, Z.pow2_bits_eqb by lia.
    destruct (Z.eqb_spec s n); [subst; now rewrite E | apply andb_false_r].
Qed.

Lemma byte_at_set_at (v : bytes) (i j x : Z) :
  byte_at (set_at v i x) j
  = if decide (i = j /\ 0 <= i < vsize v) then x else byte_at v j.
Proof. unfold byte_at. rewrite at_set_at. now destruct (decide _). Qed.

Lemma at_replicate {A : Type} (n : nat) (x : A) (i : Z) :
  at_ (replicate n x) i = if decide (0 <= i < Z.of_nat n) then Some x else None.
Proof.
  unfold at_, vsize. rewrite length_replicate.
  destruct (decide _); [|reflexivity].
  apply lookup_replicate_2. lia.
Qed.

(** The buffer after the first [n] bits have been packed: it keeps its size,
    and bit [s] of byte [b] is bit [8b+s] of the filter when that bit has been
    visited. *)
Lemma pack_prefix (bits : list bool) (size : nat) (n : nat) :
  let buffer :=
    fold_left
      (fun buffer i =>
         if bit_at bits i
         then set_at buffer (i / 8)
                (Z.lor (byte_at buffer (i / 8)) (Z.shiftl 1 (i mod 8)))
         else buffer)
      (upto (Z.of_nat n)) (replicate size 0) in
  Z.of_nat n <= 8 * Z.of_nat size ->
  vsize buffer = Z.of_nat size
  /\ forall b s, 0 <= b -> 0 <= s < 8 ->
       Z.testbit (byte_at buffer b) s
       = (8 * b + s <? Z.of_nat n) && bit_at bits (8 * b + s).
Proof.
  cbv zeta. induction n as [|n IH]; intros Hn.
  - simpl. split; [unfold vsize; now rewrite length_replicate|].
    intros b s Hb Hs. unfold byte_at. rewrite at_replicate.
    destruct (decide _); simpl; rewrite Z.bits_0;
      symmetry; apply andb_false_iff; left; apply Z.ltb_ge; lia.
  - rewrite upto_S, fold_left_app. simpl.
    destruct IH as [IHsz IHbit]; [lia|].
    set (buf := fold_left _ (upto (Z.of_nat n)) _) in *.
    assert (Hdiv : 0 <= Z.of_nat n / 8 < Z.of_nat size).
    { split; [apply Z.div_pos; lia | apply Z.div_lt_upper_bound; lia]. }
    assert (Hmod : 0 <= Z.of_nat n mod 8 < 8) by (apply Z.mod_pos_bound; lia).
    pose proof (Z.div_mod (Z.of_nat n) 8 ltac:(lia)) as Hdm.
    destruct (bit_at bits (Z.of_nat n)) eqn:Hbit.
    + split; [now rewrite vsize_set_at|].
      intros b s Hb Hs. rewrite byte_at_set_at, IHsz.
      destruct (decide _) as [[<- _]|Hne].
      * rewrite Z.lor_spec, IHbit, Z.shiftl_1_l, Z.pow2_bits_eqb by lia.
        destruct (Z.eqb_spec (Z.of_nat n mod 8) s) as [Heq|Hneq].
        -- rewrite orb_true_r. symmetry.
           replace (8 * (Z.of_nat n / 8) + s) with (Z.of_nat n) by lia.
           rewrite Hbit, andb_true_r. apply Z.ltb_lt. lia.
        -- rewrite orb_false_r. f_equal.
           destruct (Z.ltb_spec (8 * (Z.of_nat n / 8) + s) (Z.of_nat n)),
                    (Z.ltb_spec (8 * (Z.of_nat n / 8) + s) (Z.of_nat (S n)));
             try reflexivity; lia.
      * rewrite IHbit by lia. f_equal.
        assert (8 * b + s <> Z.of_nat n).
        { intros E. apply Hne. split; [|lia].
          symmetry. apply (Z.div_unique (Z.of_nat n) 8 b s); lia. }
        destruct (Z.ltb_spec (8 * b + s) (Z.of_nat n)),
                 (Z.ltb_spec (8 * b + s) (Z.of_nat (S n)));
          try reflexivity; lia.
    + split; [exact IHsz|].
      intros b s Hb Hs. rewrite IHbit by lia.
      destruct (Z.eq_dec (8 * b + s) (Z.of_nat n)) as [E|E].
      * rewrite E, Hbit, !andb_false_r. reflexivity.
      * f_equal.
        destruct (Z.ltb_spec (8 * b + s) (Z.of_nat n)),
                 (Z.ltb_spec (8 * b + s) (Z.of_nat (S n)));
          try reflexivity; lia.
Qed.

Lemma pack_spec (bits : list bool) (m : Z) :
  0 <= m -> m + 7 < 2 ^ 64 ->
  vsize (BloomFilter.pack bits m) = (m + 7) / 8
  /\ forall i, 0 <= i < m ->
       Z.testbit (byte_at (BloomFilter.pack bits m) (i / 8)) (i mod 8) = bit_at bits i.
Proof.
  intros Hm Hmax. unfold BloomFilter.pack, wrap64.
  rewrite (Z.mod_small (m + 7)) by lia.
  assert (Hq : 0 <= (m + 7) / 8) by (apply Z.div_pos; lia).
  pose proof (Z.div_mod (m + 7) 8 ltac:(lia)) as Hdm.
  pose proof (Z.mod_pos_bound (m + 7) 8 ltac:(lia)) as Hmb.
  destruct (pack_prefix bits (Z.to_nat ((m + 7) / 8)) (Z.to_nat m)) as [Hsz Hbit];
    [lia|].
  rewrite !Z2Nat.id in * by lia. split; [exact Hsz|].
  intros i Hi.
  pose proof (Z.div_mod i 8 ltac:(lia)) as Hi8.
  pose proof (Z.mod_pos_bound i 8 ltac:(lia)) as Hi8b.
  rewrite Hbit; [| apply Z.div_pos; lia | lia].
  rewrite <- Hi8. destruct (Z.ltb_spec i m); [reflexivity | lia].
Qed.

Lemma byte_at_read_padded (d : bytes) (n i : Z) :
  0 <= i < n ->
  byte_at (fst (read (mkIfstream d true) n)
           ++ replicate (Z.to_nat n - length (fst (read (mkIfstream d true) n)))%nat 0) i
  = byte_at d i.
Proof.
  intros Hi. unfold read. simpl.
  destruct (Z.leb_spec n (Z.of_nat (length d))) as [Hle|Hgt]; simpl.
  - rewrite length_take. replace (Z.to_nat n - _)%nat with 0%nat by lia.
    simpl. rewrite app_nil_r. unfold byte_at, at_, vsize.
    rewrite length_take.
    destruct (decide _) as [H1|H1], (decide _) as [H2|H2]; try lia.
    now rewrite lookup_take_lt by lia.
  - unfold byte_at, at_, vsize. rewrite length_app, length_replicate.
    destruct (decide _); [|lia].
    destruct (decide (0 <= i < Z.of_nat (length d))) as [Hin|Hout].
    + now rewrite lookup_app_l by lia.
    + rewrite lookup_app_r by lia. now rewrite lookup_replicate_2 by lia.
Qed.

Lemma vsize_resize (v : list bool) (n : Z) : 0 <= n -> vsize (BloomFilter.resize v n) = n.
Proof.
  intros Hn. unfold BloomFilter.resize, vsize.
  rewrite length_app, length_take, length_replicate. lia.
Qed.

Lemma unpack_at (buffer : bytes) (m : Z) (bits : list bool) (j : Z) :
  vsize bits = m ->
  at_ (BloomFilter.unpack buffer m bits) j
  = if decide (0 <= j < m)
    then Some (Z.testbit (byte_at buffer (j / 8)) (j mod 8))
    else None.
Proof.
  intros Hsz. unfold BloomFilter.unpack.
  pose proof (at_fold_set_at
    (fun i (_ : option bool) =>
       negb (Z.land (byte_at buffer (i / 8)) (Z.shiftl 1 (i mod 8)) =? 0))
    (Z.to_nat m) bits j) as H.
  cbv beta in H. unfold vsize in *. rewrite Z2Nat.id in H by lia.
  rewrite H by lia. destruct (decide _) as [Hj|Hj].
  - rewrite mask_test; [reflexivity | apply Z.mod_pos_bound; lia].
  - unfold at_, vsize. rewrite Hsz. destruct (decide _); [contradiction | reflexivity].
Qed.

Lemma at_map_upto {A : Type} (f : Z -> A) (m j : Z) :
  at_ (map f (upto m)) j = if decide (0 <= j < m) then Some (f j) else None.
Proof.
  unfold at_, vsize, upto. rewrite !length_map, length_seq.
  destruct (decide (0 <= j < m)) as [Hj|Hj].
  - destruct (decide _); [|lia].
    rewrite !list_lookup_fmap, lookup_seq_lt by lia. simpl. f_equal. f_equal. lia.
  - destruct (decide _); [lia | reflexivity].
Qed.

(** What [loadFromFile] returns for a file that has its 12 header bytes,
    whatever follows them. *)
Lemma loadFromFile_data (fs : FileSystem) (filename : string) (data : bytes) :
  open_read fs filename = Some (mkIfstream data true) ->
  (12 <= length data)%nat ->
  0 <= header_m data -> header_m data + 7 < 2 ^ 64 ->
  BloomFilter.loadFromFile fs filename
  = Ret (BloomFilter.mk (map (payload_bit data) (upto (header_m data)))
                        (header_k data) (header_m data)).
Proof.
  intros Hopen Hlen Hm0 Hm. unfold BloomFilter.loadFromFile. rewrite Hopen.
  rewrite <- (take_drop 8 data) at 1.
  rewrite read_app by (unfold vsize; rewrite length_take; lia).
  rewrite <- (take_drop 4 (drop 8 data)) at 1.
  rewrite read_app by (unfold vsize; rewrite length_take, length_drop; lia).
  rewrite drop_drop. change (8 + 4)%nat with 12%nat.
  destruct (decide _) as [_|Hn];
    [| exfalso; apply Hn; rewrite !length_take, length_drop; lia].
  fold (header_m data) (header_k data) (payload data).
  unfold wrap64. rewrite (Z.mod_small (header_m data + 7)) by lia.
  destruct (read (mkIfstream (payload data) true) ((header_m data + 7) / 8))
    as [p file'] eqn:Hread.
  f_equal. f_equal. apply at_ext. intros j.
  rewrite unpack_at by (apply vsize_resize; lia).
  rewrite at_map_upto. destruct (decide _) as [Hj|Hj]; [|reflexivity].
  f_equal. unfold payload_bit. f_equal.
  pose proof (byte_at_read_padded (payload data) ((header_m data + 7) / 8) (j / 8)) as H.
  rewrite Hread in H. simpl in H. apply H.
  split; [apply Z.div_pos; lia|].
  apply Z.div_lt_upper_bound; [lia|].
  pose proof (Z.div_mod (header_m data + 7) 8 ltac:(lia)).
  pose proof (Z.mod_pos_bound (header_m data + 7) 8 ltac:(lia)). lia.
Qed.

Lemma loadFromFile_throws (fs : FileSystem) (filename msg : string) :
  BloomFilter.loadFromFile fs filename = Throw msg
  <-> open_read fs filename = None
      /\ msg = String.append "Error opening file: " filename.
Proof.
  unfold BloomFilter.loadFromFile.
  destruct (open_read fs filename) as [file|].
  - destruct (read file 8) as [b1 f1]. destruct (read f1 4) as [b2 f2].
    destruct (decide _).
    + destruct (read f2 _). split; [discriminate | intros [? _]; discriminate].
    + split; [discriminate | intros [? _]; discriminate].
  - split; [intros [= <-]; auto | intros [_ ->]; reflexivity].
Qed.

Lemma open_read_written (fs fs' : FileSystem) (filename : string) (data : bytes) :
  write_file fs filename data = Some fs' ->
  open_read fs' filename = Some (mkIfstream data true).
Proof.
  unfold write_file, open_read. destruct (decide _) as [|Hd]; [discriminate|].
  intros [= <-]. simpl. destruct (decide _); [contradiction|].
  now rewrite lookup_insert_eq.
Qed.

Lemma serialize_header (f : BloomFilter.t) :
  BloomFilter.wf f ->
  header_m (BloomFilter.serialize f) = BloomFilter.bitArraySize f
  /\ header_k (BloomFilter.serialize f) = BloomFilter.numHashFunctions f
  /\ payload (BloomFilter.serialize f)
     = BloomFilter.pack (BloomFilter.bitArray f) (BloomFilter.bitArraySize f).
Proof.
  intros (Hsz & Hmax & Hk). unfold header_m, header_k, payload, BloomFilter.serialize.
  assert (H0 : 0 <= BloomFilter.bitArraySize f) by (rewrite <- Hsz; unfold vsize; lia).
  split; [|split; [|reflexivity]].
  - rewrite take_app_length' by (symmetry; apply length_le_bytes).
    rewrite le_value_le_bytes. apply Z.mod_small. simpl. lia.
  - rewrite drop_app_length' by (symmetry; apply length_le_bytes).
    rewrite take_app_length' by (symmetry; apply length_le_bytes).
    rewrite le_value_le_bytes.
    change (256 ^ Z.of_nat 4) with (2 ^ 32). unfold wrap32 at 1.
    rewrite Z.mod_mod by lia. fold (wrap32 (BloomFilter.numHashFunctions f)).
    now apply to_int32_wrap32.
Qed.

(** C7. A filter that satisfies the class invariant, saved to a path that can
    be opened and loaded from it again, comes back with the same [m], the same
    [k] and the same bit at every index; the file holds [m] in 8 bytes, [k] in
    4 bytes and then [ceil(m/8)] payload bytes, bit [i] of the filter being
    bit [i mod 8] of payload byte [i / 8]. *)
Theorem save_load_roundtrip (f : BloomFilter.t) (fs : FileSystem) (filename : string) :
  BloomFilter.wf f -> filename ∉ fs_denied fs ->
  exists fs',
    BloomFilter.saveToFile f fs filename = Ret fs'
    /\ BloomFilter.loadFromFile fs' filename = Ret f
    /\ fs_files fs' !! filename
       = Some (le_bytes 8 (BloomFilter.bitArraySize f)
               ++ le_bytes 4 (wrap32 (BloomFilter.numHashFunctions f))
               ++ BloomFilter.pack (BloomFilter.bitArray f) (BloomFilter.bitArraySize f))
    /\ vsize (BloomFilter.pack (BloomFilter.bitArray f) (BloomFilter.bitArraySize f))
       = (BloomFilter.bitArraySize f + 7) / 8
    /\ forall i, 0 <= i < BloomFilter.bitArraySize f ->
         Z.testbit (byte_at (BloomFilter.pack (BloomFilter.bitArray f)
                                              (BloomFilter.bitArraySize f)) (i / 8))
                   (i mod 8)
         = bit_at (BloomFilter.bitArray f) i.
Proof.
  intros Hwf Hden.
  destruct (serialize_header f Hwf) as (Hm & Hk & Hp).
  destruct Hwf as (Hsz & Hmax & Hkr).
  assert (H0 : 0 <= BloomFilter.bitArraySize f) by (rewrite <- Hsz; unfold vsize; lia).
  destruct (pack_spec (BloomFilter.bitArray f) (BloomFilter.bitArraySize f) H0 Hmax)
    as [Hlen Hbits].
  unfold BloomFilter.saveToFile.
  destruct (write_file fs filename (BloomFilter.serialize f)) as [fs'|] eqn:Hw;
    [| unfold write_file in Hw; destruct (decide _); [contradiction | discriminate]].
  exists fs'. split; [reflexivity|]. split; [|split; [|split; [exact Hlen | exact Hbits]]].
  - rewrite (loadFromFile_data fs' filename (BloomFilter.serialize f)).
    + rewrite Hm, Hk. destruct f as [bits k m]. simpl in *. f_equal. f_equal.
      apply at_ext. intros j. rewrite at_map_upto.
      unfold payload_bit. rewrite Hp.
      destruct (decide _) as [Hj|Hj].
      * rewrite Hbits by exact Hj. unfold bit_at.
        destruct (at_is_Some bits j) as [x ->]; [lia | reflexivity].
      * symmetry. unfold at_. rewrite Hsz. destruct (decide _); [contradiction | reflexivity].
    + now apply open_read_written with (fs := fs).
    + unfold BloomFilter.serialize. rewrite !length_app, !length_le_bytes. lia.
    + now rewrite Hm.
    + now rewrite Hm.
  - unfold write_file in Hw. destruct (decide _); [discriminate|].
    injection Hw as <-. simpl. now rewrite lookup_insert_eq.
Qed.

Lemma save_load_roundtrip_witness :
  exists fs',
    BloomFilter.saveToFile sample_filter no_files "leaf" = Ret fs'
    /\ BloomFilter.loadFromFile fs' "leaf" = Ret sample_filter
    /\ fs_files fs' !! "leaf"
       = Some (le_bytes 8 (BloomFilter.bitArraySize sample_filter)
               ++ le_bytes 4 (wrap32 (BloomFilter.numHashFunctions sample_filter))
               ++ BloomFilter.pack (BloomFilter.bitArray sample_filter)
                                   (BloomFilter.bitArraySize sample_filter))
    /\ vsize (BloomFilter.pack (BloomFilter.bitArray sample_filter)
                               (BloomFilter.bitArraySize sample_filter))
       = (BloomFilter.bitArraySize sample_filter + 7) / 8
    /\ forall i, 0 <= i < BloomFilter.bitArraySize sample_filter ->
         Z.testbit (byte_at (BloomFilter.pack (BloomFilter.bitArray sample_filter)
                               (BloomFilter.bitArraySize sample_filter)) (i / 8))
                   (i mod 8)
         = bit_at (BloomFilter.bitArray sample_filter) i.
Proof.
  apply (save_load_roundtrip sample_filter no_files "leaf").
  - unfold BloomFilter.wf. vm_compute. intuition discriminate.
  - simpl. apply not_elem_of_empty.
Defined.

(** C9 (amended). [loadFromFile] rejects a file that cannot be opened, and
    that is its only test of the file. A file that has its 12 header bytes
    and declares at most [loadable_bits] bits is accepted whatever the length
    of its payload: the filter gets [m] and [k] from the header, bit [i] is
    bit [i mod 8] of payload byte [i / 8], a missing payload byte reads as
    zero and bytes beyond [ceil(m/8)] are not looked at. *)
Theorem load_accepts_any_payload (fs : FileSystem) (filename : string) :
  (open_read fs filename = None ->
   BloomFilter.loadFromFile fs filename
   = Throw (String.append "Error opening file: " filename))
  /\ (forall data,
        open_read fs filename = Some (mkIfstream data true) ->
        (12 <= length data)%nat ->
        0 <= header_m data <= loadable_bits ->
        BloomFilter.loadFromFile fs filename
        = Ret (BloomFilter.mk (map (payload_bit data) (upto (header_m data)))
                              (header_k data) (header_m data))).
Proof.
  split.
  - intros Hopen. now apply loadFromFile_throws.
  - intros data Hopen Hlen [Hm0 Hm]. apply loadFromFile_data; auto.
    unfold loadable_bits in Hm. lia.
Qed.

(** C9, as stated, fails: a file whose header declares 16 bits and which has
    no payload byte instead of two is loaded as a 16-bit filter. *)
Lemma load_accepts_truncated_sidecar :
  header_m truncated_sidecar = 16
  /\ (header_m truncated_sidecar + 7) / 8 = 2
  /\ vsize (payload truncated_sidecar) = 0
  /\ BloomFilter.loadFromFile truncated_fs "leaf"
     = Ret (BloomFilter.mk (replicate 16 false) 3 16).
Proof. vm_compute. auto. Qed.

(** ** Induction on nodes *)

Definition Node_ind (P : Node -> Prop)
    (step : forall ch b f s e, Forall P ch -> P (mkNode ch b f s e)) :
  forall n, P n :=
  fix go (n : Node) : P n :=
    match n with
    | mkNode ch b f s e =>
        step ch b f s e
          ((fix all (l : list Node) : Forall P l :=
              match l with
              | [] => List.Forall_nil P
              | x :: l' => List.Forall_cons P x l' (go x) (all l')
              end) ch)
    end.

Lemma isMemory_true (n : Node) : isMemory n = true <-> filename n = Memory.
Proof. unfold isMemory. apply String.eqb_eq. Qed.

Lemma isMemory_false (n : Node) : isMemory n = false <-> filename n <> Memory.
Proof. unfold isMemory. apply String.eqb_neq. Qed.

(** ** Per-column queries *)

Lemma overlaps_overlapping (node : Node) (qStart qEnd : string) :
  BloomTree.overlaps node qStart qEnd = true <-> overlapping node qStart qEnd.
Proof.
  unfold BloomTree.overlaps, overlapping.
  rewrite andb_true_iff, !orb_true_iff, !empty_true, str_ge_le. reflexivity.
Qed.

Lemma search_children (value qStart qEnd : string) (ch : list Node) :
  Forall (fun child => forall results g,
            fst (BloomTree.search child value qStart qEnd (results, g))
            = results ++ visit value qStart qEnd child) ch ->
  forall results g,
    fst (fold_left (fun st child => BloomTree.search child value qStart qEnd st)
                   ch (results, g))
    = results ++ concat (map (visit value qStart qEnd) ch).
Proof.
  induction 1 as [|child ch Hc _ IH]; intros results g; simpl.
  - now rewrite app_nil_r.
  - destruct (BloomTree.search child value qStart qEnd (results, g)) as [r' g'] eqn:E.
    specialize (Hc results g). rewrite E in Hc. simpl in Hc. subst r'.
    rewrite IH. now rewrite app_assoc.
Qed.

(** [search] appends to [results] exactly what the design's traversal emits. *)
Lemma search_visit (node : Node) (value qStart qEnd : string) :
  forall results g,
    fst (BloomTree.search node value qStart qEnd (results, g))
    = results ++ visit value qStart qEnd node.
Proof.
  induction node as [ch b f s e IH] using Node_ind. intros results g.
  cbn [BloomTree.search visit].
  destruct (BloomTree.overlaps _ qStart qEnd); cbn [negb fst snd];
    [| now rewrite app_nil_r].
  cbn [bloom]. destruct (BloomFilter.exists_ b value); cbn [negb];
    [| now rewrite app_nil_r].
  destruct (isMemory _); cbn [negb fst]; [| reflexivity].
  cbn [children]. now apply search_children.
Qed.

Lemma visit_reaches (value qStart qEnd : string) (node : Node) (file : string) :
  file ∈ visit value qStart qEnd node <-> reaches value qStart qEnd node file.
Proof.
  revert file. induction node as [ch b f s e IH] using Node_ind. intros file.
  cbn [visit bloom children].
  destruct (BloomTree.overlaps _ qStart qEnd) eqn:Ho; cbn [negb].
  2: { split; [intros H; now apply not_elem_of_nil in H|].
       intros H. assert (Hk : kept value qStart qEnd (mkNode ch b f s e))
         by (inversion H; assumption).
       destruct Hk as [Hk _]. apply overlaps_overlapping in Hk. congruence. }
  destruct (BloomFilter.exists_ b value) eqn:He; cbn [negb].
  2: { split; [intros H; now apply not_elem_of_nil in H|].
       intros H. assert (Hk : kept value qStart qEnd (mkNode ch b f s e))
         by (inversion H; assumption).
       destruct Hk as [_ Hk]. simpl in Hk. congruence. }
  assert (Hkept : kept value qStart qEnd (mkNode ch b f s e)).
  { split; [now apply overlaps_overlapping | exact He]. }
  destruct (isMemory _) eqn:Hm; cbn [negb].
  - apply isMemory_true in Hm. rewrite Forall_forall in IH.
    rewrite list_elem_of_In, in_concat. split.
    + intros (l & Hl & Hfile). apply in_map_iff in Hl as (child & <- & Hchild).
      apply reaches_child with (child := child); auto.
      * now apply list_elem_of_In.
      * apply IH; now apply list_elem_of_In.
    + intros H. inversion H as [? _ Hne | ? child ? _ _ Hchild Hreach]; subst.
      * contradiction.
      * exists (visit value qStart qEnd child). split.
        -- apply in_map_iff. exists child. split; [reflexivity | now apply list_elem_of_In].
        -- apply list_elem_of_In, IH; assumption.
  - apply isMemory_false in Hm. rewrite list_elem_of_singleton. split.
    + intros ->. now apply (reaches_leaf value qStart qEnd (mkNode ch b f s e)).
    + intros H. inversion H as [? _ Hne | ? child ? _ Hmem _ _]; subst;
        [reflexivity | contradiction].
Qed.



(** ** The per-file partitioner *)

Section Partitioner.

Variables (sstFile : string) (N bloomSize numHashFunctions : Z).
Hypothesis N_range : 1 <= N < 2 ^ 64.

Local Abbreviation step := (BloomManager.step sstFile N bloomSize numHashFunctions).
Local Abbreviation fresh := (BloomFilter.new bloomSize numHashFunctions).
Local Abbreviation leaf := (leafOf sstFile bloomSize numHashFunctions).

Local Abbreviation acc := (accumulating bloomSize numHashFunctions).
Local Abbreviation fin := (finish sstFile).

Lemma firstKey_snoc (cur : list (string * string)) (kv : string * string) :
  firstKey (cur ++ [kv]) = if bool_decide (cur = []) then fst kv else firstKey cur.
Proof. destruct cur; reflexivity. Qed.

Lemma lastKeyOf_snoc (cur : list (string * string)) (kv : string * string) :
  lastKeyOf (cur ++ [kv]) = fst kv.
Proof. unfold lastKeyOf. now rewrite last_snoc. Qed.

Lemma step_accumulates P cur l kv :
  acc P cur l -> vsize cur + 1 < N ->
  acc P (cur ++ [kv]) (step l kv).
Proof.
  intros (HP & Hc & Hb & Hf & Hk) Hlt. unfold BloomManager.step.
  rewrite Hc. unfold wrap64. rewrite Z.mod_small by (unfold vsize in *; lia).
  destruct (Z.leb_spec N (vsize cur + 1)); [lia|].
  unfold accumulating. cbn. repeat split.
  - exact HP.
  - unfold vsize. rewrite length_app. simpl. lia.
  - rewrite map_app, fold_left_app, Hb. reflexivity.
  - symmetry. apply bool_decide_eq_false. now destruct cur.
  - rewrite firstKey_snoc, Hf. destruct cur as [|x cur]; [reflexivity|].
    simpl. apply Hk. discriminate.
  - now rewrite lastKeyOf_snoc.
Qed.

Lemma step_emits P cur l kv :
  acc P cur l -> vsize cur + 1 = N ->
  acc (P ++ [leaf (cur ++ [kv])]) [] (step l kv).
Proof.
  intros (HP & Hc & Hb & Hf & Hk) Heq. unfold BloomManager.step.
  rewrite Hc. unfold wrap64. rewrite Z.mod_small by (unfold vsize in *; lia).
  destruct (Z.leb_spec N (vsize cur + 1)); [|lia].
  unfold accumulating. cbn. repeat split; try congruence.
  rewrite HP. f_equal. unfold leafOf. f_equal. f_equal.
  - rewrite map_app, fold_left_app, Hb. reflexivity.
  - rewrite firstKey_snoc, Hf. destruct cur as [|x cur]; [reflexivity|].
    simpl. apply Hk. discriminate.
  - now rewrite lastKeyOf_snoc.
Qed.

Lemma fold_accumulates r : forall P cur l,
  acc P cur l -> vsize cur + vsize r < N ->
  acc P (cur ++ r) (fold_left step r l).
Proof.
  induction r as [|kv r IH]; intros P cur l Hacc Hlt; simpl.
  - now rewrite app_nil_r.
  - replace (cur ++ kv :: r) with ((cur ++ [kv]) ++ r) by now rewrite <- app_assoc.
    unfold vsize in *. simpl in Hlt. apply IH.
    + apply step_accumulates; [exact Hacc | unfold vsize; lia].
    + rewrite length_app. simpl. lia.
Qed.

Lemma fold_emits r P l :
  acc P [] l -> vsize r = N ->
  acc (P ++ [leaf r]) [] (fold_left step r l).
Proof.
  intros Hacc Hlen. destruct r as [|x r] using rev_ind.
  - unfold vsize in Hlen. simpl in Hlen. lia.
  - clear IHr. rewrite fold_left_app. simpl.
    unfold vsize in Hlen. rewrite length_app in Hlen. simpl in Hlen.
    apply step_emits; [| unfold vsize; lia].
    apply (fold_accumulates r P [] l Hacc). unfold vsize. simpl. lia.
Qed.

Lemma runs_upto_step {A : Type} (fuel n : nat) (l : list A) :
  l <> [] -> runs_upto (S fuel) n l = take n l :: runs_upto fuel n (drop n l).
Proof. destruct l; [contradiction | reflexivity]. Qed.

Lemma runs_upto_nil {A : Type} (fuel n : nat) : runs_upto fuel n ([] : list A) = [].
Proof. destruct fuel; reflexivity. Qed.

Lemma fold_runs fuel : forall entries P l,
  (length entries <= fuel)%nat -> acc P [] l ->
  fin (fold_left step entries l)
  = P ++ map leaf (runs_upto fuel (Z.to_nat N) entries).
Proof.
  induction fuel as [|fuel IH]; intros entries P l Hfuel Hacc.
  - destruct entries; [|simpl in Hfuel; lia].
    simpl. destruct Hacc as (HP & Hc & _). unfold finish. rewrite Hc, HP.
    simpl. now rewrite app_nil_r.
  - destruct entries as [|kv entries'] eqn:E.
    { simpl. destruct Hacc as (HP & Hc & _). unfold finish. rewrite Hc, HP.
      simpl. now rewrite app_nil_r. }
    rewrite <- E in *. assert (Hne : entries <> []) by (rewrite E; discriminate).
    rewrite runs_upto_step by exact Hne.
    destruct (Z_lt_le_dec (vsize entries) N) as [Hshort|Hlong].
    + (* the whole rest is one partial run *)
      rewrite take_ge, drop_ge by (unfold vsize in Hshort; lia).
      rewrite runs_upto_nil. simpl.
      destruct (fold_accumulates entries P [] l Hacc) as (HP & Hc & Hb & _ & Hk).
      { unfold vsize in *. simpl. lia. }
      simpl in *. unfold finish. rewrite Hc, HP, Hb.
      destruct (Z.ltb_spec 0 (vsize entries));
        [| unfold vsize in *; rewrite E in *; simpl in *; lia].
      destruct Hk as [-> ->]; [exact Hne | reflexivity].
    + (* a full run, then the rest *)
      rewrite <- (take_drop (Z.to_nat N) entries) at 1.
      rewrite fold_left_app.
      assert (Htake : vsize (take (Z.to_nat N) entries) = N).
      { unfold vsize in *. rewrite length_take. lia. }
      rewrite (IH (drop (Z.to_nat N) entries) (P ++ [leaf (take (Z.to_nat N) entries)])).
      * simpl. now rewrite <- app_assoc.
      * rewrite length_drop. lia.
      * now apply fold_emits.
Qed.

Lemma initial_accumulating : acc [] [] (initialLocals bloomSize numHashFunctions).
Proof. repeat split; try (intros H; contradiction). Qed.


End Partitioner.

Lemma runs_upto_spec {A : Type} (n : nat) (fuel : nat) : forall (l : list A),
  (1 <= n)%nat -> (length l <= fuel)%nat ->
  concat (runs_upto fuel n l) = l
  /\ Forall (fun r => r <> [] /\ (length r <= n)%nat) (runs_upto fuel n l)
  /\ (forall i r, runs_upto fuel n l !! i = Some r ->
                  (S i < length (runs_upto fuel n l))%nat -> length r = n).
Proof.
  induction fuel as [|fuel IH]; intros l Hn Hfuel.
  - destruct l; [|simpl in Hfuel; lia]. simpl. repeat split; auto.
    intros i r H. now rewrite lookup_nil in H.
  - destruct (decide (l = [])) as [->|Hne].
    { simpl. repeat split; auto. intros i r H. now rewrite lookup_nil in H. }
    rewrite runs_upto_step by exact Hne.
    destruct (IH (drop n l) Hn) as (Hc & Hall & Hfull).
    { rewrite length_drop. destruct l; [contradiction | simpl in *; lia]. }
    split; [|split].
    + simpl. rewrite Hc. apply take_drop.
    + constructor; [|exact Hall]. split.
      * destruct l; [contradiction|]. destruct n; [lia | discriminate].
      * rewrite length_take. lia.
    + intros [|i] r Hr Hi; simpl in *.
      * injection Hr as <-. rewrite length_take.
        destruct (runs_upto fuel n (drop n l)) as [|r' rs'] eqn:E; [simpl in Hi; lia|].
        destruct (drop n l) as [|x d] eqn:Ed; [now rewrite runs_upto_nil in E|].
        assert (length (drop n l) <> 0)%nat by (rewrite Ed; discriminate).
        rewrite length_drop in *. lia.
      * apply (Hfull i r Hr). lia.
Qed.

Lemma length_concat_sum {A : Type} (ls : list (list A)) :
  length (concat ls) = list_sum (map length ls).
Proof.
  induction ls as [|l ls IH]; simpl; [reflexivity|].
  now rewrite length_app, IH.
Qed.







(** ** Runs *)

Lemma runs_upto_fuel {A : Type} (n : nat) (fuel1 : nat) : forall (fuel2 : nat) (l : list A),
  (1 <= n)%nat -> (length l <= fuel1)%nat -> (length l <= fuel2)%nat ->
  runs_upto fuel1 n l = runs_upto fuel2 n l.
Proof.
  induction fuel1 as [|fuel1 IH]; intros fuel2 l Hn H1 H2.
  - destruct l; [now rewrite !runs_upto_nil | simpl in H1; lia].
  - destruct l as [|x l]; [now rewrite !runs_upto_nil|].
    destruct fuel2 as [|fuel2]; [simpl in H2; lia|].
    cbn [runs_upto]. f_equal.
    apply IH; [exact Hn | |]; rewrite length_drop; simpl in *; lia.
Qed.

Lemma runs_upto_enough {A : Type} (n : nat) (fuel : nat) (l : list A) :
  (1 <= n)%nat -> (length l <= fuel)%nat -> runs_upto fuel n l = runs n l.
Proof. intros Hn Hfuel. unfold runs. now apply runs_upto_fuel. Qed.

Lemma runs_nil {A : Type} (n : nat) : runs n ([] : list A) = [].
Proof. reflexivity. Qed.

Lemma runs_cons {A : Type} (n : nat) (l : list A) :
  (1 <= n)%nat -> l <> [] -> runs n l = take n l :: runs n (drop n l).
Proof.
  intros Hn Hne. unfold runs at 1. destruct l as [|x l]; [contradiction|].
  cbn [length]. rewrite runs_upto_step by discriminate. f_equal.
  apply runs_upto_enough; [exact Hn|]. rewrite length_drop. simpl. lia.
Qed.

Lemma runs_spec {A : Type} (n : nat) (l : list A) :
  (1 <= n)%nat ->
  concat (runs n l) = l
  /\ Forall (fun r => r <> [] /\ (length r <= n)%nat) (runs n l)
  /\ (forall i r, runs n l !! i = Some r -> (S i < length (runs n l))%nat -> length r = n).
Proof. intros Hn. apply runs_upto_spec; [exact Hn | reflexivity]. Qed.

(** The number of runs: it does not exceed the number of entries, and is
    smaller as soon as there are two entries and runs of two or more. *)
Lemma length_runs_le {A : Type} (n : nat) (l : list A) :
  (1 <= n)%nat -> (length (runs n l) <= length l)%nat.
Proof.
  intros Hn. destruct (runs_spec n l Hn) as (Hc & Hall & _).
  apply (f_equal (@length A)) in Hc. rewrite length_concat_sum in Hc.
  rewrite <- Hc. clear Hc.
  induction Hall as [|r rs [Hr _] _ IH]; simpl; [lia|].
  destruct r; [contradiction | simpl; lia].
Qed.

Lemma length_runs_lt {A : Type} (n : nat) (l : list A) :
  (2 <= n)%nat -> (2 <= length l)%nat -> (length (runs n l) < length l)%nat.
Proof.
  intros Hn Hl. rewrite runs_cons; [| lia | destruct l; [simpl in Hl; lia | discriminate]].
  simpl. pose proof (length_runs_le n (drop n l) ltac:(lia)) as H.
  rewrite length_drop in H. lia.
Qed.

Lemma length_runs_one {A : Type} (l : list A) : length (runs 1 l) = length l.
Proof.
  remember (length l) as k eqn:Hk. revert l Hk.
  induction k as [|k IH]; intros l Hk.
  - destruct l; [reflexivity | discriminate].
  - destruct l as [|x l]; [discriminate|].
    rewrite runs_cons; [| lia | discriminate]. simpl. f_equal.
    rewrite drop_0. apply IH. simpl in Hk. lia.
Qed.

Lemma runs_empty_iff {A : Type} (n : nat) (l : list A) :
  (1 <= n)%nat -> runs n l = [] <-> l = [].
Proof.
  intros Hn. split; [|intros ->; reflexivity].
  destruct l; [reflexivity|]. rewrite runs_cons; [| lia | discriminate]. discriminate.
Qed.

Lemma in_runs {A : Type} (n : nat) (l : list A) (x : A) :
  (1 <= n)%nat -> In x l <-> exists r, In r (runs n l) /\ In x r.
Proof.
  intros Hn. destruct (runs_spec n l Hn) as (Hc & _ & _).
  rewrite <- Hc at 1. apply in_concat.
Qed.

(** ** The loops of [buildLevel] *)

Lemma upto_succ_shift (i : Z) (n : nat) :
  map (Z.add i) (upto (Z.of_nat (S n))) = i :: map (Z.add (i + 1)) (upto (Z.of_nat n)).
Proof.
  rewrite !upto_nat. cbn [seq map]. f_equal; [lia|].
  rewrite <- seq_shift, !map_map. apply map_ext. intros a. lia.
Qed.

Lemma adopt_adoptList (nodes : list Node) (len : nat) : forall (i : nat) (p : Node),
  (i + len <= length nodes)%nat ->
  BloomTree.adopt nodes (map (Z.add (Z.of_nat i)) (upto (Z.of_nat len))) p
  = adoptList (take len (drop i nodes)) p.
Proof.
  induction len as [|len IH]; intros i p Hlen.
  - reflexivity.
  - rewrite upto_succ_shift. cbn [BloomTree.adopt].
    rewrite at_of_nat.
    destruct (lookup_lt_is_Some_2 nodes i ltac:(lia)) as [x Hx]. rewrite Hx.
    rewrite (drop_S _ _ _ Hx). cbn [take adoptList].
    destruct (BloomFilter.merge (bloom p) (bloom x)) as [merged r].
    destruct r; try reflexivity. cbn.
    replace (Z.of_nat i + 1) with (Z.of_nat (S i)) by lia.
    apply IH. lia.
Qed.

Lemma adoptOne_bits_length (p c : Node) :
  length (bits_of c) = length (bits_of p) ->
  length (bits_of (adoptOne p c)) = length (bits_of p).
Proof.
  intros H. unfold bits_of, adoptOne in *. simpl.
  rewrite length_zip_with. lia.
Qed.

Lemma adoptList_spec (g : list Node) : forall (p : Node),
  adoptList g p
  = if decide (Forall (fun c => length (bits_of c) = length (bits_of p)) g)
    then Ret (adopted g p) else Throw BloomFilter.size_mismatch.
Proof.
  induction g as [|c g IH]; intros p.
  - cbn [adoptList]. destruct (decide (Forall _ [])) as [|Hn]; [reflexivity|].
    exfalso. apply Hn. constructor.
  - cbn [adoptList]. unfold BloomFilter.merge.
    destruct (decide (length (BloomFilter.bitArray (bloom p))
                      = length (BloomFilter.bitArray (bloom c)))) as [Heq|Hne].
    + rewrite merge_loop_bits by exact Heq. cbn.
      change (mkNode _ _ _ _ _) with (adoptOne p c). rewrite IH.
      assert (Hlen : length (bits_of (adoptOne p c)) = length (bits_of p))
        by (apply adoptOne_bits_length; unfold bits_of; congruence).
      rewrite Hlen.
      destruct (decide (Forall _ g)) as [Hg|Hg], (decide (Forall _ (c :: g))) as [Hcg|Hcg];
        try reflexivity.
      * exfalso. apply Hcg. constructor; [unfold bits_of; congruence | exact Hg].
      * exfalso. apply Hg. now inversion Hcg.
    + cbn. destruct (decide (Forall _ (c :: g))) as [Hcg|]; [|reflexivity].
      exfalso. inversion Hcg; subst. unfold bits_of in *. congruence.
Qed.

Lemma adoptList_parent (tr : BloomTree.t) (g : list Node) :
  adoptList g (emptyParent tr g)
  = if decide (Forall (fits tr) g) then Ret (parentOf tr g)
    else Throw BloomFilter.size_mismatch.
Proof.
  rewrite adoptList_spec. fold (parentOf tr g).
  assert (Hlen : length (bits_of (emptyParent tr g)) = Z.to_nat (BloomTree.bloomSize tr))
    by (unfold bits_of, emptyParent; simpl; apply length_replicate).
  destruct (decide (Forall _ g)) as [H1|H1], (decide (Forall (fits tr) g)) as [H2|H2];
    try reflexivity; exfalso.
  - apply H2. eapply Forall_impl; [exact H1|]. intros c Hc. unfold fits, bits_of in *. congruence.
  - apply H1. eapply Forall_impl; [exact H2|]. intros c Hc. unfold fits, bits_of in *. congruence.
Qed.

Section Group.

Variables (tr : BloomTree.t) (nodes : list Node).
Hypothesis ratio_pos : 1 <= BloomTree.ratio tr.
Hypothesis no_wrap : vsize nodes + BloomTree.ratio tr < 2 ^ 64.

Local Abbreviation r := (Z.to_nat (BloomTree.ratio tr)).

(** One iteration of the outer loop: the group is the next [ratio] nodes. *)
Lemma group_step (fuel i : nat) (acc : list Node) :
  (i < length nodes)%nat ->
  BloomTree.group (S fuel) tr nodes (Z.of_nat i) acc
  = parent ← adoptList (take r (drop i nodes)) (emptyParent tr (take r (drop i nodes)));
    BloomTree.group fuel tr nodes (Z.of_nat (i + r)) (acc ++ [parent]).
Proof.
  intros Hi. cbn [BloomTree.group]. unfold vsize in *.
  destruct (Z.ltb_spec (Z.of_nat i) (Z.of_nat (length nodes))); [|lia].
  unfold wrap64. rewrite (Z.mod_small (Z.of_nat i + BloomTree.ratio tr)) by lia.
  set (end_ := Z.min (Z.of_nat i + BloomTree.ratio tr) (Z.of_nat (length nodes))).
  assert (Hend : Z.of_nat i < end_ <= Z.of_nat (length nodes)) by (subst end_; lia).
  rewrite (Z.mod_small (end_ - 1)) by lia.
  set (len := Z.to_nat (end_ - Z.of_nat i)).
  assert (Hlen : (1 <= len /\ i + len <= length nodes)%nat) by (subst len; lia).
  replace (end_ - 1) with (Z.of_nat (i + len - 1)) by (subst len; lia).
  replace (end_ - Z.of_nat i) with (Z.of_nat len) by (subst len; lia).
  rewrite !at_of_nat.
  destruct (lookup_lt_is_Some_2 nodes i ltac:(lia)) as [first Hfirst].
  destruct (lookup_lt_is_Some_2 nodes (i + len - 1) ltac:(lia)) as [last_ Hlast].
  rewrite Hfirst, Hlast. rewrite adopt_adoptList by lia.
  assert (Hg : take len (drop i nodes) = take r (drop i nodes)).
  { destruct (decide (len = r)) as [->|Hne]; [reflexivity|].
    assert (len = length (drop i nodes)) by (rewrite length_drop; subst len end_; lia).
    rewrite (take_ge _ r) by lia. apply take_ge. lia. }
  rewrite Hg.
  assert (Hp : mkNode [] (BloomFilter.new (BloomTree.bloomSize tr) (BloomTree.numHashFunctions tr))
                 Memory (startKey first) (endKey last_)
               = emptyParent tr (take r (drop i nodes))).
  { unfold emptyParent. f_equal.
    - rewrite <- Hg. rewrite head_lookup, lookup_take_lt, lookup_drop by lia.
      rewrite Nat.add_0_r, Hfirst. reflexivity.
    - rewrite <- Hg. rewrite last_lookup, length_take, length_drop.
      rewrite lookup_take_lt, lookup_drop by lia.
      replace (i + Init.Nat.pred (len `min` (length nodes - i)))%nat
        with (i + len - 1)%nat by lia.
      rewrite Hlast. reflexivity. }
  rewrite Hp. replace (Z.of_nat i + BloomTree.ratio tr) with (Z.of_nat (i + r)) by lia.
  reflexivity.
Qed.

Lemma drop_split (i : nat) :
  drop i nodes = take r (drop i nodes) ++ drop (i + r) nodes.
Proof. rewrite <- (take_drop r (drop i nodes)) at 1. now rewrite drop_drop. Qed.

Lemma levelAbove_step (i : nat) :
  (i < length nodes)%nat ->
  levelAbove tr (drop i nodes)
  = parentOf tr (take r (drop i nodes)) :: levelAbove tr (drop (i + r) nodes).
Proof.
  intros Hi. unfold levelAbove. rewrite runs_cons; [| lia |].
  - now rewrite drop_drop.
  - intros E. apply (f_equal (@length Node)) in E. rewrite length_drop in E.
    simpl in E. lia.
Qed.

(** The outer loop either runs out of fuel, which takes at least as many
    iterations as there is fuel, or throws at the first group with a filter of
    another size, or returns the level above. *)
Lemma group_cases (fuel : nat) : forall (i : nat) (acc : list Node),
  (BloomTree.group fuel tr nodes (Z.of_nat i) acc = OutOfFuel
   /\ (fuel <= length (drop i nodes))%nat)
  \/ BloomTree.group fuel tr nodes (Z.of_nat i) acc
     = if decide (Forall (fits tr) (drop i nodes))
       then Ret (acc ++ levelAbove tr (drop i nodes))
       else Throw BloomFilter.size_mismatch.
Proof.
  induction fuel as [|fuel IH]; intros i acc.
  - left. split; [reflexivity | lia].
  - destruct (decide (i < length nodes)%nat) as [Hi|Hi].
    + rewrite group_step by exact Hi. rewrite adoptList_parent.
      rewrite levelAbove_step by exact Hi.
      pose proof (drop_split i) as Hsplit.
      set (g := take r (drop i nodes)) in *.
      destruct (decide (Forall (fits tr) g)) as [Hg|Hg].
      * cbn. destruct (IH (i + r)%nat (acc ++ [parentOf tr g])) as [[Ho Hf]|Hr].
        -- left. split; [exact Ho|]. rewrite length_drop in *. lia.
        -- right. rewrite Hr.
           destruct (decide (Forall (fits tr) (drop (i + r) nodes))) as [Hd|Hd],
                    (decide (Forall (fits tr) (drop i nodes))) as [Ha|Ha];
             try reflexivity.
           ++ now rewrite <- app_assoc.
           ++ exfalso. apply Ha. rewrite Hsplit. apply Forall_app. auto.
           ++ exfalso. apply Hd. rewrite Hsplit in Ha. now apply Forall_app in Ha.
      * cbn. right.
        destruct (decide (Forall (fits tr) (drop i nodes))) as [Ha|Ha];
          [|reflexivity].
        exfalso. apply Hg. rewrite Hsplit in Ha. now apply Forall_app in Ha.
    + right. cbn [BloomTree.group]. unfold vsize.
      destruct (Z.ltb_spec (Z.of_nat i) (Z.of_nat (length nodes))); [lia|].
      rewrite drop_ge by lia.
      destruct (decide (Forall (fits tr) [])) as [_|Hn];
        [| exfalso; apply Hn; constructor].
      unfold levelAbove. rewrite runs_nil. simpl. now rewrite app_nil_r.
Qed.

End Group.

(** ** The parent of a group *)

Lemma adoptOne_keys (p c : Node) :
  startKey (adoptOne p c) = smin (startKey p) (startKey c)
  /\ endKey (adoptOne p c) = smax (endKey p) (endKey c).
Proof. split; reflexivity. Qed.

Lemma adopted_shape (g : list Node) : forall (p : Node),
  children (adopted g p) = children p ++ g
  /\ filename (adopted g p) = filename p
  /\ BloomFilter.numHashFunctions (bloom (adopted g p))
     = BloomFilter.numHashFunctions (bloom p)
  /\ BloomFilter.bitArraySize (bloom (adopted g p))
     = BloomFilter.bitArraySize (bloom p).
Proof.
  induction g as [|c g IH]; intros p.
  - simpl. now rewrite app_nil_r.
  - cbn [adopted fold_left]. fold (adopted g (adoptOne p c)).
    destruct (IH (adoptOne p c)) as (H1 & H2 & H3 & H4).
    rewrite H1, H2, H3, H4. simpl. now rewrite <- app_assoc.
Qed.

Lemma adopted_start (g : list Node) : forall (p : Node),
  startKey (adopted g p) ⪯ startKey p
  /\ (forall c, In c g -> startKey (adopted g p) ⪯ startKey c)
  /\ (startKey (adopted g p) = startKey p \/ In (startKey (adopted g p)) (map startKey g)).
Proof.
  induction g as [|c g IH]; intros p.
  - simpl. repeat split; auto with sle. intros c [].
  - cbn [adopted fold_left]. fold (adopted g (adoptOne p c)).
    destruct (IH (adoptOne p c)) as (H1 & H2 & H3).
    destruct (adoptOne_keys p c) as [Hs _]. rewrite Hs in *.
    split; [|split].
    + eapply sle_trans; [exact H1 | apply smin_sle_l].
    + intros x [<-|Hx]; [|now apply H2].
      eapply sle_trans; [exact H1 | apply smin_sle_r].
    + destruct H3 as [H3|H3]; [|right; now right].
      rewrite H3. destruct (smin_cases (startKey p) (startKey c)) as [[-> _]|[-> _]].
      * right. now left.
      * now left.
Qed.

Lemma adopted_end (g : list Node) : forall (p : Node),
  endKey p ⪯ endKey (adopted g p)
  /\ (forall c, In c g -> endKey c ⪯ endKey (adopted g p))
  /\ (endKey (adopted g p) = endKey p \/ In (endKey (adopted g p)) (map endKey g)).
Proof.
  induction g as [|c g IH]; intros p.
  - simpl. repeat split; auto with sle. intros c [].
  - cbn [adopted fold_left]. fold (adopted g (adoptOne p c)).
    destruct (IH (adoptOne p c)) as (H1 & H2 & H3).
    destruct (adoptOne_keys p c) as [_ He]. rewrite He in *.
    split; [|split].
    + eapply sle_trans; [apply sle_smax_l | exact H1].
    + intros x [<-|Hx]; [|now apply H2].
      eapply sle_trans; [apply sle_smax_r | exact H1].
    + destruct H3 as [H3|H3]; [|right; now right].
      rewrite H3. destruct (smax_cases (endKey p) (endKey c)) as [[-> _]|[-> _]].
      * right. now left.
      * now left.
Qed.

Lemma adopted_bits (g : list Node) : forall (p : Node),
  Forall (fun c => length (bits_of c) = length (bits_of p)) g ->
  length (bits_of (adopted g p)) = length (bits_of p)
  /\ forall j, bit_at (bits_of (adopted g p)) j
               = bit_at (bits_of p) j || existsb (fun c => bit_at (bits_of c) j) g.
Proof.
  induction g as [|c g IH]; intros p Hall.
  - simpl. split; [reflexivity|]. intros j. now rewrite orb_false_r.
  - cbn [adopted fold_left]. fold (adopted g (adoptOne p c)).
    inversion Hall as [|? ? Hc Hg]; subst.
    pose proof (adoptOne_bits_length p c Hc) as Hlen.
    destruct (IH (adoptOne p c)) as [H1 H2].
    { eapply Forall_impl; [exact Hg|]. intros x Hx. simpl in Hx. congruence. }
    split; [congruence|].
    intros j. rewrite H2. cbn [existsb].
    unfold bits_of at 1, adoptOne at 1. cbn [bloom BloomFilter.with_bits BloomFilter.bitArray].
    rewrite bit_at_zip_orb by (unfold bits_of in Hc; congruence).
    fold (bits_of p) (bits_of c). now rewrite orb_assoc.
Qed.

Lemma bit_at_new (size k j : Z) : bit_at (BloomFilter.bitArray (BloomFilter.new size k)) j = false.
Proof.
  unfold bit_at, BloomFilter.new. simpl. rewrite at_replicate.
  now destruct (decide _).
Qed.

Lemma parentOf_spec (tr : BloomTree.t) (g : list Node) :
  g <> [] -> Forall (fits tr) g ->
  children (parentOf tr g) = g
  /\ filename (parentOf tr g) = Memory
  /\ summarises (parentOf tr g) g
  /\ fits tr (parentOf tr g)
  /\ BloomFilter.numHashFunctions (bloom (parentOf tr g)) = BloomTree.numHashFunctions tr
  /\ BloomFilter.bitArraySize (bloom (parentOf tr g)) = BloomTree.bloomSize tr.
Proof.
  intros Hne Hfit. unfold parentOf.
  destruct (adopted_shape g (emptyParent tr g)) as (Hc & Hf & Hk & Hm).
  destruct (adopted_start g (emptyParent tr g)) as (Hs1 & Hs2 & Hs3).
  destruct (adopted_end g (emptyParent tr g)) as (He1 & He2 & He3).
  destruct (adopted_bits g (emptyParent tr g)) as [Hb1 Hb2].
  { eapply Forall_impl; [exact Hfit|]. intros c Hc'. unfold fits, bits_of in *.
    simpl. now rewrite length_replicate. }
  split; [exact Hc|]. split; [exact Hf|]. split; [|split; [|split]].
  - split; [|split].
    + split.
      * destruct Hs3 as [Hs3|Hs3]; [|exact Hs3]. rewrite Hs3.
        destruct g as [|c g]; [contradiction|]. simpl. now left.
      * intros x Hx. apply in_map_iff in Hx as (c & <- & Hc'). now apply Hs2.
    + split.
      * destruct He3 as [He3|He3]; [|exact He3]. rewrite He3.
        unfold emptyParent. cbn [endKey].
        destruct (last g) as [l|] eqn:El.
        -- simpl. apply in_map. apply last_Some in El as [g' ->].
           apply in_app_iff. right. now left.
        -- apply last_None in El. contradiction.
      * intros x Hx. apply in_map_iff in Hx as (c & <- & Hc'). now apply He2.
    + intros j. rewrite Hb2. unfold bits_of at 1, emptyParent. cbn [bloom].
      now rewrite bit_at_new.
  - unfold fits. fold (bits_of (adopted g (emptyParent tr g))). rewrite Hb1.
    unfold bits_of, emptyParent. simpl. apply length_replicate.
  - exact Hk.
  - exact Hm.
Qed.

(** ** [buildLevel] *)

Lemma buildLevel_empty (tr : BloomTree.t) (fuel : nat) :
  BloomTree.buildLevel fuel tr [] = OutOfFuel.
Proof.
  induction fuel as [|fuel IH]; [reflexivity|].
  cbn [BloomTree.buildLevel]. unfold vsize. simpl.
  destruct fuel as [|fuel']; [reflexivity|].
  cbn [BloomTree.group]. unfold vsize. simpl. cbn. exact IH.
Qed.

Lemma buildLevel_single (tr : BloomTree.t) (fuel : nat) (n : Node) :
  BloomTree.buildLevel (S fuel) tr [n] = Ret n.
Proof. reflexivity. Qed.

Section BuildLevel.

Variable tr : BloomTree.t.
Hypothesis ratio_pos : 1 <= BloomTree.ratio tr.

Local Abbreviation r := (Z.to_nat (BloomTree.ratio tr)).

Lemma levelAbove_length_le (nodes : list Node) :
  (length (levelAbove tr nodes) <= length nodes)%nat.
Proof. unfold levelAbove. rewrite length_map. apply length_runs_le. lia. Qed.

Lemma levelAbove_no_wrap (nodes : list Node) :
  vsize nodes + BloomTree.ratio tr < 2 ^ 64 ->
  vsize (levelAbove tr nodes) + BloomTree.ratio tr < 2 ^ 64.
Proof. pose proof (levelAbove_length_le nodes). unfold vsize. lia. Qed.

(** One level of the recursion on more or fewer than one node. *)
Lemma buildLevel_level (fuel : nat) (nodes : list Node) :
  vsize nodes + BloomTree.ratio tr < 2 ^ 64 -> length nodes <> 1%nat ->
  (BloomTree.buildLevel (S fuel) tr nodes = OutOfFuel /\ (fuel <= length nodes)%nat)
  \/ (~ Forall (fits tr) nodes
      /\ BloomTree.buildLevel (S fuel) tr nodes = Throw BloomFilter.size_mismatch)
  \/ (Forall (fits tr) nodes
      /\ BloomTree.buildLevel (S fuel) tr nodes
         = BloomTree.buildLevel fuel tr (levelAbove tr nodes)).
Proof.
  intros Hw Hlen. cbn [BloomTree.buildLevel].
  destruct (Z.eqb_spec (vsize nodes) 1) as [E|_]; [unfold vsize in E; lia|].
  destruct (group_cases tr nodes ratio_pos Hw fuel 0 []) as [[Ho Hf]|Hc].
  - left. change (Z.of_nat 0) with 0 in Ho. rewrite Ho. split; [reflexivity|].
    now rewrite drop_0 in Hf.
  - right. change (Z.of_nat 0) with 0 in Hc. rewrite Hc, drop_0.
    destruct (decide (Forall (fits tr) nodes)) as [Hfit|Hfit]; [right | left];
      (split; [assumption | reflexivity]).
Qed.

Lemma levelAbove_members (nodes : list Node) (p : Node) :
  Forall (fits tr) nodes -> In p (levelAbove tr nodes) ->
  exists g, p = parentOf tr g /\ g <> [] /\ Forall (fits tr) g
            /\ (forall c, In c g -> In c nodes).
Proof.
  intros Hfit Hp. unfold levelAbove in Hp. apply in_map_iff in Hp as (g & <- & Hg).
  destruct (runs_spec r nodes ltac:(lia)) as (_ & Hall & _).
  rewrite Forall_forall in Hall. apply list_elem_of_In in Hg as Hg'.
  destruct (Hall g Hg') as [Hne _].
  assert (Hsub : forall c, In c g -> In c nodes).
  { intros c Hc. apply (in_runs r nodes c ltac:(lia)). eauto. }
  exists g. repeat split; auto.
  apply Forall_forall. intros c Hc. rewrite Forall_forall in Hfit.
  apply Hfit. apply list_elem_of_In, Hsub. now apply list_elem_of_In.
Qed.

Lemma levelAbove_fits (nodes : list Node) :
  Forall (fits tr) nodes -> Forall (fits tr) (levelAbove tr nodes).
Proof.
  intros Hfit. apply Forall_forall. intros p Hp. apply list_elem_of_In in Hp.
  destruct (levelAbove_members nodes p Hfit Hp) as (g & -> & Hne & Hg & _).
  now apply parentOf_spec.
Qed.

Lemma levelAbove_covers (nodes : list Node) (c : Node) :
  Forall (fits tr) nodes -> In c nodes ->
  exists p, In p (levelAbove tr nodes) /\ In c (children p).
Proof.
  intros Hfit Hc. apply (in_runs r nodes c ltac:(lia)) in Hc as (g & Hg & Hcg).
  exists (parentOf tr g). split; [unfold levelAbove; now apply in_map|].
  assert (Hp : In (parentOf tr g) (levelAbove tr nodes))
    by (unfold levelAbove; now apply in_map).
  destruct (levelAbove_members nodes _ Hfit Hp) as (g' & Heq & Hne & Hg' & _).
  rewrite Heq. destruct (parentOf_spec tr g' Hne Hg') as (-> & _).
  assert (Hch : children (parentOf tr g) = children (parentOf tr g')) by congruence.
  assert (Hfitg : Forall (fits tr) g).
  { apply Forall_forall. intros x Hx. rewrite Forall_forall in Hfit. apply Hfit.
    apply list_elem_of_In. apply (in_runs r nodes x ltac:(lia)).
    exists g. split; [exact Hg | now apply list_elem_of_In]. }
  assert (Hneg : g <> []) by (intros ->; contradiction).
  destruct (parentOf_spec tr g Hneg Hfitg) as (Hcg' & _).
  destruct (parentOf_spec tr g' Hne Hg') as (Hcg'' & _).
  rewrite Hcg', Hcg'' in Hch. now subst.
Qed.

(** The root is built from the nodes of the first level, ... *)
Lemma buildLevel_Built (leaves : list Node) (fuel : nat) : forall (nodes : list Node) (root : Node),
  vsize nodes + BloomTree.ratio tr < 2 ^ 64 ->
  (forall n, In n nodes -> Built tr leaves n) ->
  BloomTree.buildLevel fuel tr nodes = Ret root -> Built tr leaves root.
Proof.
  induction fuel as [|fuel IH]; intros nodes root Hw Hb Hret; [discriminate|].
  destruct (decide (length nodes = 1%nat)) as [H1|H1].
  - destruct nodes as [|n [|? ?]]; try discriminate.
    rewrite buildLevel_single in Hret. injection Hret as <-. apply Hb. now left.
  - destruct (buildLevel_level fuel nodes Hw H1) as [[Ho _]|[[_ Ht]|[Hfit Hrec]]];
      try congruence.
    rewrite Hrec in Hret.
    apply (IH (levelAbove tr nodes) root); [now apply levelAbove_no_wrap | | exact Hret].
    intros p Hp. destruct (levelAbove_members nodes p Hfit Hp) as (g & -> & Hne & Hg & Hsub).
    apply built_parent; auto.
Qed.

(** ... every node of the first level is below it, ... *)
Lemma buildLevel_descends (fuel : nat) : forall (nodes : list Node) (root : Node),
  vsize nodes + BloomTree.ratio tr < 2 ^ 64 ->
  BloomTree.buildLevel fuel tr nodes = Ret root ->
  forall n, In n nodes -> descends root n.
Proof.
  induction fuel as [|fuel IH]; intros nodes root Hw Hret n Hn; [discriminate|].
  destruct (decide (length nodes = 1%nat)) as [H1|H1].
  - destruct nodes as [|x [|? ?]]; try discriminate.
    rewrite buildLevel_single in Hret. injection Hret as <-.
    destruct Hn as [<-|[]]. constructor.
  - destruct (buildLevel_level fuel nodes Hw H1) as [[Ho _]|[[_ Ht]|[Hfit Hrec]]];
      try congruence.
    rewrite Hrec in Hret.
    destruct (levelAbove_covers nodes n Hfit Hn) as (p & Hp & Hc).
    pose proof (IH (levelAbove tr nodes) root (levelAbove_no_wrap nodes Hw) Hret p Hp) as Hd.
    clear - Hd Hc. induction Hd as [p|p c' d Hc' Hd IHd].
    + apply descends_child with (c := n); [exact Hc | constructor].
    + apply descends_child with (c := c'); auto.
Qed.

(** ... it does not depend on the fuel, ... *)
Lemma buildLevel_deterministic (fuel1 : nat) : forall (fuel2 : nat) (nodes : list Node) (r1 r2 : Node),
  vsize nodes + BloomTree.ratio tr < 2 ^ 64 ->
  BloomTree.buildLevel fuel1 tr nodes = Ret r1 ->
  BloomTree.buildLevel fuel2 tr nodes = Ret r2 -> r1 = r2.
Proof.
  induction fuel1 as [|fuel1 IH]; intros fuel2 nodes r1 r2 Hw H1 H2; [discriminate|].
  destruct fuel2 as [|fuel2]; [discriminate|].
  destruct (decide (length nodes = 1%nat)) as [Hl|Hl].
  - destruct nodes as [|x [|? ?]]; try discriminate.
    rewrite buildLevel_single in H1, H2. congruence.
  - destruct (buildLevel_level fuel1 nodes Hw Hl) as [[Ho _]|[[_ Ht]|[_ Hrec1]]];
      try congruence.
    destruct (buildLevel_level fuel2 nodes Hw Hl) as [[Ho _]|[[_ Ht]|[_ Hrec2]]];
      try congruence.
    rewrite Hrec1 in H1. rewrite Hrec2 in H2.
    apply (IH fuel2 (levelAbove tr nodes)); auto using levelAbove_no_wrap.
Qed.

(** ... and with a ratio of two or more it is reached. *)
Lemma buildLevel_terminates (fuel : nat) : forall (nodes : list Node),
  2 <= BloomTree.ratio tr ->
  vsize nodes + BloomTree.ratio tr < 2 ^ 64 ->
  nodes <> [] -> Forall (fits tr) nodes ->
  (length nodes + 2 <= fuel)%nat ->
  exists root, BloomTree.buildLevel fuel tr nodes = Ret root.
Proof.
  induction fuel as [|fuel IH]; intros nodes H2 Hw Hne Hfit Hfuel; [lia|].
  destruct (decide (length nodes = 1%nat)) as [H1|H1].
  - destruct nodes as [|x [|? ?]]; try discriminate. exists x. reflexivity.
  - destruct (buildLevel_level fuel nodes Hw H1) as [[_ Ho]|[[Hn _]|[_ Hrec]]];
      [lia | contradiction |].
    rewrite Hrec. apply IH; auto using levelAbove_no_wrap, levelAbove_fits.
    + unfold levelAbove. intros E. apply map_eq_nil in E.
      apply runs_empty_iff in E; [contradiction | lia].
    + assert (length (levelAbove tr nodes) < length nodes)%nat; [|lia].
      unfold levelAbove. rewrite length_map. apply length_runs_lt; [lia|].
      destruct nodes as [|? [|? ?]]; simpl in *; try contradiction; lia.
Qed.

End BuildLevel.


Lemma wrap64_zero : wrap64 (0 + 0) = 0.
Proof. reflexivity. Qed.

Lemma wrap64_minus_one : wrap64 (0 - 1) = 2 ^ 64 - 1.
Proof. reflexivity. Qed.

(** C10 (amended). With a branching ratio of two or more, at least one leaf
    and leaf filters of the tree's size, [buildLevel] returns a single root
    for every sufficient fuel, because the level above two or more nodes has
    strictly fewer nodes; [buildTree] then returns the tree with that root
    when the sidecar files can be written. Without leaves the recursion never
    ends, whatever the ratio. With more than one leaf, a ratio of one keeps
    every level at the same size, so no root is ever returned, and a ratio of
    zero indexes the node vector out of range in the first group. (A negative
    ratio is not covered: it wraps around in the unsigned index arithmetic.) *)
Theorem buildLevel_termination (tr : BloomTree.t) (leaves : list Node) :
  (2 <= BloomTree.ratio tr -> vsize leaves + BloomTree.ratio tr < 2 ^ 64 ->
   leaves <> [] -> Forall (fits tr) leaves ->
   (exists root,
      (forall fuel, (length leaves + 2 <= fuel)%nat ->
                    BloomTree.buildLevel fuel tr leaves = Ret root)
      /\ (forall fuel fs,
            (length leaves + 2 <= fuel)%nat ->
            Forall (fun l => BloomTree.sidecar l ∉ fs_denied fs) leaves ->
            exists fs',
              BloomTree.buildTree fuel
                (BloomTree.mk None (BloomTree.ratio tr) (BloomTree.bloomSize tr)
                              (BloomTree.numHashFunctions tr) leaves) fs
              = Ret (BloomTree.mk (Some root) (BloomTree.ratio tr)
                                  (BloomTree.bloomSize tr)
                                  (BloomTree.numHashFunctions tr) leaves, fs')))
   /\ (forall nodes, (2 <= length nodes)%nat ->
                     (length (levelAbove tr nodes) < length nodes)%nat))
  /\ (forall fuel, BloomTree.buildLevel fuel tr [] = OutOfFuel)
  /\ (BloomTree.ratio tr = 1 -> vsize leaves + 1 < 2 ^ 64 -> (2 <= length leaves)%nat ->
      length (levelAbove tr leaves) = length leaves
      /\ forall fuel root, BloomTree.buildLevel fuel tr leaves <> Ret root)
  /\ (BloomTree.ratio tr = 0 -> vsize leaves < 2 ^ 64 -> (2 <= length leaves)%nat ->
      forall fuel root, BloomTree.buildLevel fuel tr leaves <> Ret root).
Proof.
  split; [|split; [|split]].
  - intros H2 Hw Hne Hfit. split.
    + destruct (buildLevel_terminates tr ltac:(lia) (length leaves + 2) leaves
                  H2 Hw Hne Hfit (Nat.le_refl _)) as [root Hroot].
      exists root.
      assert (Hall : forall fuel, (length leaves + 2 <= fuel)%nat ->
                BloomTree.buildLevel fuel tr leaves = Ret root).
      { intros fuel Hfuel.
        destruct (buildLevel_terminates tr ltac:(lia) fuel leaves H2 Hw Hne Hfit Hfuel)
          as [root' Hroot'].
        rewrite Hroot'. f_equal.
        now apply (buildLevel_deterministic tr ltac:(lia) fuel (length leaves + 2)%nat leaves). }
      split; [exact Hall|].
      intros fuel fs Hfuel Hopen. unfold BloomTree.buildTree. cbn [BloomTree.leafNodes].
      assert (Hb : BloomTree.buildLevel fuel
                (BloomTree.mk None (BloomTree.ratio tr) (BloomTree.bloomSize tr)
                              (BloomTree.numHashFunctions tr) leaves) leaves
              = BloomTree.buildLevel fuel tr leaves).
      { destruct tr as [ro ra bs nh ln]. clear.
        cut (forall f (l : list Node),
               BloomTree.buildLevel f (BloomTree.mk None ra bs nh leaves) l
               = BloomTree.buildLevel f (BloomTree.mk ro ra bs nh ln) l); [auto|].
        assert (Hg : forall f l i acc,
                  BloomTree.group f (BloomTree.mk None ra bs nh leaves) l i acc
                  = BloomTree.group f (BloomTree.mk ro ra bs nh ln) l i acc).
        { induction f as [|f IHf]; intros l i acc; [reflexivity|].
          cbn [BloomTree.group BloomTree.ratio BloomTree.bloomSize BloomTree.numHashFunctions].
          destruct (i <? vsize l); [|reflexivity].
          destruct (at_ l i); [|reflexivity].
          destruct (at_ l _); [|reflexivity].
          destruct (BloomTree.adopt _ _ _); try reflexivity. cbn. apply IHf. }
        induction f as [|f IHf]; intros l; [reflexivity|].
        cbn [BloomTree.buildLevel]. destruct (vsize l =? 1); [reflexivity|].
        rewrite Hg. destruct (BloomTree.group _ _ _ _ _); try reflexivity.
        cbn. apply IHf. }
      rewrite Hb, (Hall fuel Hfuel). cbn.
      clear - Hopen. revert fs Hopen.
      induction leaves as [|l ls IH]; intros fs Hopen.
      * exists fs. reflexivity.
      * inversion Hopen as [|? ? Hl Hls]; subst. cbn [BloomTree.saveLeaves].
        unfold BloomFilter.saveToFile, write_file.
        destruct (decide _) as [|_]; [contradiction|]. cbn.
        destruct (IH (mkFS (<[BloomTree.sidecar l :=
                               BloomFilter.serialize (bloom l)]> (fs_files fs))
                            (fs_denied fs)) Hls) as [fs' Hfs'].
        exists fs'. destruct (BloomTree.saveLeaves ls _); try discriminate.
        cbn in *. congruence.
    + intros nodes Hn. unfold levelAbove. rewrite length_map.
      apply length_runs_lt; lia.
  - apply buildLevel_empty.
  - intros H1 Hw Hlen.
    assert (Hsame : forall nodes, length (levelAbove tr nodes) = length nodes).
    { intros nodes. unfold levelAbove. rewrite length_map, H1. apply length_runs_one. }
    split; [apply Hsame|].
    intros fuel. revert leaves Hw Hlen.
    induction fuel as [|fuel IH]; intros leaves Hw Hlen root; [discriminate|].
    destruct (buildLevel_level tr ltac:(lia) fuel leaves ltac:(lia) ltac:(lia))
      as [[Ho _]|[[_ Ht]|[_ Hrec]]]; try congruence.
    rewrite Hrec. apply IH; rewrite ?Hsame; unfold vsize in *; rewrite ?Hsame; lia.
  - intros H0 Hw Hlen fuel root.
    destruct fuel as [|[|fuel]]; [discriminate | |].
    + cbn [BloomTree.buildLevel]. destruct (Z.eqb_spec (vsize leaves) 1) as [E|_];
        [unfold vsize in E; lia | discriminate].
    + cbn [BloomTree.buildLevel BloomTree.group].
      destruct (Z.eqb_spec (vsize leaves) 1) as [E|_]; [unfold vsize in E; lia|].
      destruct (Z.ltb_spec 0 (vsize leaves)) as [_|E]; [|unfold vsize in E; lia].
      rewrite H0, wrap64_zero.
      rewrite Z.min_l by (unfold vsize; lia).
      rewrite wrap64_minus_one, (at_ge leaves (2 ^ 64 - 1)) by lia.
      destruct (at_ leaves 0); discriminate.
Qed.

(** C10, as stated, fails for a negative ratio: with ratio [-1] the unsigned
    sum [i + ratio] wraps around, the first group takes both leaves, and the
    level above has one node, the root. *)
Lemma negative_ratio_builds_a_root :
  BloomTree.ratio wrapping_tree <= 1
  /\ (1 < length two_leaves)%nat
  /\ BloomTree.buildLevel 3 wrapping_tree two_leaves
     = Ret (parentOf wrapping_tree two_leaves)
  /\ children (parentOf wrapping_tree two_leaves) = two_leaves.
Proof.
  split; [vm_compute; discriminate|]. split; [simpl; lia|].
  split; vm_compute; reflexivity.
Qed.

(** ** Invariants of a built tree *)

Lemma in_subnodes_descends (root n : Node) :
  In n (subnodes root) <-> descends root n.
Proof.
  split.
  - revert n. induction root as [ch b f s e IH] using Node_ind. intros n.
    cbn [subnodes children]. intros [<-|Hin]; [constructor|].
    apply in_concat in Hin as (l & Hl & Hn).
    apply in_map_iff in Hl as (c & <- & Hc).
    apply descends_child with (c := c); [exact Hc|].
    rewrite Forall_forall in IH. apply IH; [now apply list_elem_of_In | exact Hn].
  - induction 1 as [n|n c d Hc _ IH].
    + destruct n. now left.
    + destruct n as [ch b f s e]. cbn [subnodes children] in *. right.
      apply in_concat. exists (subnodes c). split; [now apply in_map | exact IH].
Qed.

Lemma leafFor_fits (tr : BloomTree.t) (l : Node) : leafFor tr l -> fits tr l.
Proof.
  intros (_ & (Hsz & _) & Hm & _). unfold fits. unfold vsize in Hsz. lia.
Qed.

Section BuiltTree.

Variables (tr : BloomTree.t) (leaves : list Node).
Hypothesis leaves_ok : Forall (leafFor tr) leaves.

Lemma leaf_ok (l : Node) : In l leaves -> leafFor tr l.
Proof. rewrite Forall_forall in leaves_ok. intros H. apply leaves_ok. now apply list_elem_of_In. Qed.

(** A built node is a leaf of the first level, or an interior node tagged as
    such that summarises its children. *)
Lemma Built_inv (n : Node) :
  Built tr leaves n ->
  (In n leaves /\ children n = [])
  \/ (children n <> [] /\ filename n = Memory /\ summarises n (children n)
      /\ Forall (fits tr) (children n)
      /\ forall c, In c (children n) -> Built tr leaves c).
Proof.
  intros [l Hl | g Hne Hg Hfit].
  - left. split; [exact Hl | apply (leaf_ok l Hl)].
  - right. destruct (parentOf_spec tr g Hne Hfit) as (Hc & Hf & Hs & _).
    rewrite Hc. auto.
Qed.

Lemma Built_shape (n : Node) :
  Built tr leaves n ->
  fits tr n
  /\ BloomFilter.bitArraySize (bloom n) = BloomTree.bloomSize tr
  /\ BloomFilter.numHashFunctions (bloom n) = BloomTree.numHashFunctions tr.
Proof.
  intros [l Hl | g Hne Hg Hfit].
  - pose proof (leaf_ok l Hl) as Hok. split; [now apply leafFor_fits|].
    destruct Hok as (_ & _ & Hm & Hk). auto.
  - destruct (parentOf_spec tr g Hne Hfit) as (_ & _ & _ & H1 & H2 & H3). auto.
Qed.

Lemma Built_descends (root n : Node) :
  Built tr leaves root -> descends root n -> Built tr leaves n.
Proof.
  intros Hb Hd. induction Hd as [n|n c d Hc _ IH]; [exact Hb|].
  apply IH. destruct (Built_inv n Hb) as [[_ Hnil]|(_ & _ & _ & _ & Hch)].
  - rewrite Hnil in Hc. contradiction.
  - now apply Hch.
Qed.

Lemma existsb_concat_map {A B : Type} (f : B -> bool) (h : A -> list B) (l : list A) :
  existsb f (concat (map h l)) = existsb (fun a => existsb f (h a)) l.
Proof.
  induction l as [|a l IH]; simpl; [reflexivity|].
  now rewrite existsb_app, IH.
Qed.

(** Every built node summarises its descendant leaves, which are leaves of
    the first level. *)
Lemma Built_leaves (n : Node) :
  Built tr leaves n ->
  summarises n (leaves_of n) /\ (forall l, In l (leaves_of n) -> In l leaves).
Proof.
  induction 1 as [l Hl | g Hne Hg IH Hfit].
  - destruct (leaf_ok l Hl) as (Hnil & _).
    assert (E : leaves_of l = [l]) by (destruct l; simpl in *; now rewrite Hnil).
    rewrite E. split.
    + unfold summarises, least, greatest. simpl. repeat split; auto.
      * intros x [<-|[]]. apply sle_refl.
      * intros x [<-|[]]. apply sle_refl.
      * intros j. now rewrite orb_false_r.
    + intros x [<-|[]]. exact Hl.
  - destruct (parentOf_spec tr g Hne Hfit) as (Hc & _ & (Hs & He & Hb) & _).
    assert (E : leaves_of (parentOf tr g) = concat (map leaves_of g)).
    { destruct (parentOf tr g) as [ch b f s e]. cbn [children] in Hc. subst ch.
      cbn [leaves_of children]. destruct g; [contradiction | reflexivity]. }
    rewrite E. split.
    + split; [|split].
      * destruct Hs as [Hin Hlow]. apply in_map_iff in Hin as (c & Hck & Hc').
        destruct (IH c Hc') as [((Hcin & _) & _) _]. split.
        -- rewrite <- Hck. apply in_map_iff in Hcin as (l & Hlk & Hl).
           apply in_map_iff. exists l. split; [exact Hlk|].
           apply in_concat. exists (leaves_of c). split; [now apply in_map | exact Hl].
        -- intros x Hx. apply in_map_iff in Hx as (l & <- & Hl).
           apply in_concat in Hl as (ls & Hls & Hl).
           apply in_map_iff in Hls as (c' & <- & Hc'').
           destruct (IH c' Hc'') as [((_ & Hlow') & _) _].
           apply sle_trans with (startKey c'); [apply Hlow; now apply in_map|].
           apply Hlow'. now apply in_map.
      * destruct He as [Hin Hup]. apply in_map_iff in Hin as (c & Hck & Hc').
        destruct (IH c Hc') as [(_ & (Hcin & _) & _) _]. split.
        -- rewrite <- Hck. apply in_map_iff in Hcin as (l & Hlk & Hl).
           apply in_map_iff. exists l. split; [exact Hlk|].
           apply in_concat. exists (leaves_of c). split; [now apply in_map | exact Hl].
        -- intros x Hx. apply in_map_iff in Hx as (l & <- & Hl).
           apply in_concat in Hl as (ls & Hls & Hl).
           apply in_map_iff in Hls as (c' & <- & Hc'').
           destruct (IH c' Hc'') as [(_ & (_ & Hup') & _) _].
           apply sle_trans with (endKey c'); [apply Hup'; now apply in_map|].
           apply Hup. now apply in_map.
      * intros j. rewrite Hb, existsb_concat_map.
        clear - IH. induction g as [|c g IHg]; [reflexivity|].
        cbn [existsb]. f_equal.
        -- destruct (IH c (or_introl eq_refl)) as [(_ & _ & Hbits) _]. apply Hbits.
        -- apply IHg. intros c' Hc'. apply IH. now right.
    + intros l Hl. apply in_concat in Hl as (ls & Hls & Hl).
      apply in_map_iff in Hls as (c & <- & Hc').
      destruct (IH c Hc') as [_ Hsub]. now apply Hsub.
Qed.

(** A value found in a descendant leaf is found in every built node above. *)
Lemma Built_exists (n l : Node) (v : string) :
  Built tr leaves n -> In l (leaves_of n) ->
  BloomFilter.exists_ (bloom l) v = true -> BloomFilter.exists_ (bloom n) v = true.
Proof.
  intros Hb Hl. destruct (Built_leaves n Hb) as [(_ & _ & Hbits) Hsub].
  destruct (Built_shape n Hb) as (_ & Hm & Hk).
  destruct (leaf_ok l (Hsub l Hl)) as (_ & _ & Hm' & Hk').
  apply exists_mono; [congruence | lia |].
  intros j Hj. fold (bits_of n). rewrite Hbits.
  apply existsb_exists. exists l. split; [exact Hl | exact Hj].
Qed.

End BuiltTree.

(** C2 (amended). In a tree that [buildLevel] returns for leaves made with
    the tree's filter shape, every interior node carries the interior tag, its
    [startKey] is the least of its children's [startKey]s and its [endKey] the
    greatest of their [endKey]s, hence the least and greatest over its
    descendant leaves, and every bit of its filter is the OR of the
    corresponding bits of its children, hence of its descendant leaves; so
    [exists(v)] true on a descendant leaf implies [exists(v)] true on the
    interior node. (The converse does not hold.) *)
Theorem interior_nodes_summarise (tr : BloomTree.t) (leaves : list Node)
    (fuel : nat) (root : Node) :
  1 <= BloomTree.ratio tr -> vsize leaves + BloomTree.ratio tr < 2 ^ 64 ->
  Forall (leafFor tr) leaves ->
  BloomTree.buildLevel fuel tr leaves = Ret root ->
  forall n, In n (subnodes root) -> children n <> [] ->
    filename n = Memory
    /\ summarises n (children n)
    /\ summarises n (leaves_of n)
    /\ (forall l, In l (leaves_of n) -> In l leaves)
    /\ (forall v l, In l (leaves_of n) ->
                    BloomFilter.exists_ (bloom l) v = true ->
                    BloomFilter.exists_ (bloom n) v = true).
Proof.
  intros Hr Hw Hok Hret n Hn Hch.
  assert (Hroot : Built tr leaves root).
  { apply (buildLevel_Built tr Hr leaves fuel leaves root Hw); [|exact Hret].
    intros x Hx. now apply built_leaf. }
  assert (Hb : Built tr leaves n).
  { apply (Built_descends tr leaves Hok root); [exact Hroot|].
    now apply in_subnodes_descends. }
  destruct (Built_inv tr leaves Hok n Hb) as [[_ Hnil]|(_ & Hf & Hs & _)];
    [contradiction|].
  destruct (Built_leaves tr leaves Hok n Hb) as [Hsl Hsub].
  repeat split; try assumption; try apply Hs; try apply Hsl.
  intros v l Hl Hv. now apply (Built_exists tr leaves Hok n l v).
Qed.

Lemma interior_nodes_summarise_witness :
  let root := parentOf split_params split_leaves in
  filename root = Memory
  /\ summarises root (children root)
  /\ summarises root (leaves_of root)
  /\ (forall l, In l (leaves_of root) -> In l split_leaves)
  /\ (forall v l, In l (leaves_of root) ->
                  BloomFilter.exists_ (bloom l) v = true ->
                  BloomFilter.exists_ (bloom root) v = true).
Proof.
  apply (interior_nodes_summarise split_params split_leaves 4
           (parentOf split_params split_leaves)).
  - vm_compute. discriminate.
  - vm_compute. reflexivity.
  - repeat constructor; vm_compute; try reflexivity; discriminate.
  - vm_compute. reflexivity.
  - left. reflexivity.
  - vm_compute. discriminate.
Defined.

(** C2, as stated, fails in its last part: in the tree built over a file
    whose two leaves hold ["b"] and ["v"], the root's filter, the OR of the
    two, answers [true] for ["x"], and neither leaf does. *)
Lemma union_filter_false_positive :
  exists tr fs root,
    split_hierarchy = Ret (tr, fs)
    /\ BloomTree.root tr = Some root
    /\ children root = BloomTree.leafNodes tr
    /\ leaves_of root = BloomTree.leafNodes tr
    /\ length (BloomTree.leafNodes tr) = 2%nat
    /\ BloomFilter.exists_ (bloom root) "x" = true
    /\ forallb (fun l => negb (BloomFilter.exists_ (bloom l) "x")) (leaves_of root)
       = true.
Proof.
  eexists _, _, _. split; [vm_compute; reflexivity|].
  split; [reflexivity|]. repeat split; vm_compute; reflexivity.
Qed.

(** ** The root check of the multi-column query *)

Lemma wrap64_idem (a b : Z) : wrap64 (wrap64 a + b) = wrap64 (a + b).
Proof. unfold wrap64. rewrite Zplus_mod_idemp_l. reflexivity. Qed.

Lemma checkRoots_spec (values : list string) (roots : list Node) :
  forall (i : nat) (c l s : Z) (m : list string),
    (length roots <= length (drop i values))%nat ->
    checkRoots values roots i (mkGlobals c l s m)
    = Ret (bool_decide (firstMiss (drop i values) roots = None),
           mkGlobals (if decide (roots = []) then c
                      else wrap64 (c + Z.of_nat (consulted (drop i values) roots)))
                     l s m).
Proof.
  induction roots as [|r roots IH]; intros i c l s m Hlen.
  - cbn [checkRoots]. replace (firstMiss (drop i values) []) with (@None nat)
      by (now destruct (drop i values)).
    rewrite bool_decide_eq_true_2 by reflexivity.
    destruct (decide (@nil Node = [])); [reflexivity | contradiction].
  - cbn [checkRoots]. destruct (drop i values) as [|v rest] eqn:E;
      [simpl in Hlen; lia|].
    assert (Hv : values !! i = Some v).
    { pose proof (lookup_drop values i 0) as H.
      rewrite Nat.add_0_r, E in H. symmetry. exact H. }
    assert (Hrest : drop (S i) values = rest).
    { replace (S i) with (i + 1)%nat by lia. rewrite <- drop_drop, E. reflexivity. }
    rewrite Hv. unfold consulted. cbn [firstMiss].
    destruct (BloomFilter.exists_ (bloom r) v) eqn:Hex; cbn [negb].
    + unfold incrBloomCheck. cbn. rewrite IH by (rewrite Hrest; simpl in Hlen; lia).
      rewrite Hrest. unfold consulted.
      destruct (decide (r :: roots = [])) as [|_]; [discriminate|].
      destruct (firstMiss rest roots) as [j|] eqn:Hm; cbn.
      * destruct (decide (roots = [])) as [->|_]; [destruct rest; discriminate|].
        f_equal. f_equal. f_equal. rewrite wrap64_idem. f_equal. lia.
      * destruct (decide (roots = [])) as [->|_].
        -- reflexivity.
        -- f_equal. f_equal. f_equal. rewrite wrap64_idem. f_equal. lia.
    + destruct (decide (r :: roots = [])) as [|_]; [discriminate|]. reflexivity.
Qed.





(** In a query over two columns whose first root misses, one filter has been
    consulted when the query returns, not two: the second root's filter is
    never looked at. *)
Lemma second_root_not_consulted :
  exists g,
    two_column_query "zz" "v2" "" "" = Ret ([], g)
    /\ gBloomCheckCount g = 1
    /\ gLeafBloomCheckCount g = 0
    /\ gSSTCheckCount g = 0.
Proof. eexists. split; [vm_compute; reflexivity|]. repeat split. Qed.

(** ** Scanning a sorted file *)

Lemma sortedFile_cons (kv : string * string) (rest : list (string * string)) :
  sortedFile (kv :: rest)
  <-> (forall kv', In kv' rest -> fst kv ⪯ fst kv') /\ sortedFile rest.
Proof.
  unfold sortedFile. cbn [sortedb]. rewrite andb_true_iff, forallb_forall. reflexivity.
Qed.

Lemma Seek_subset (it : list (string * string)) (target : string) (kv : string * string) :
  In kv (Seek it target) -> In kv it.
Proof.
  induction it as [|x it IH]; [intros []|].
  cbn [Seek]. destruct (str_lt (fst x) target); [right; auto | auto].
Qed.

Lemma Seek_sorted (it : list (string * string)) (target : string) :
  sortedFile it ->
  sortedFile (Seek it target)
  /\ forall kv, In kv (Seek it target) <-> In kv it /\ target ⪯ fst kv.
Proof.
  induction it as [|x it IH]; intros Hs.
  - split; [exact Hs|]. intros kv. simpl. tauto.
  - apply sortedFile_cons in Hs as Hs'. destruct Hs' as [Hx Hrest].
    cbn [Seek]. rewrite str_lt_not_le.
    destruct (str_le target (fst x)) eqn:E; cbn [negb].
    + split; [exact Hs|]. intros kv. split.
      * intros Hin. split; [exact Hin|]. destruct Hin as [<-|Hin]; [exact E|].
        eapply sle_trans; [exact E | now apply Hx].
      * tauto.
    + destruct (IH Hrest) as [IH1 IH2]. split; [exact IH1|].
      intros kv. rewrite IH2. split; [intros [? ?]; split; [now right | assumption]|].
      intros [[<-|Hin] Hle]; [|tauto].
      unfold sle in Hle. congruence.
Qed.

Lemma scanLoop_subset (it : list (string * string)) (value rangeEnd : string) :
  forall acc key,
    In key (DBManager.scanLoop it value rangeEnd acc) ->
    In key acc \/ In (key, value) it.
Proof.
  induction it as [|[k v] it IH]; intros acc key Hin; [now left|].
  cbn [DBManager.scanLoop fst snd] in Hin.
  destruct (negb (empty rangeEnd) && str_gt k rangeEnd); [now left|].
  apply IH in Hin as [Hin|Hin]; [|right; now right].
  destruct (String.eqb_spec v value) as [->|_]; [|now left].
  apply in_app_iff in Hin as [Hin|[<-|[]]]; [now left | right; now left].
Qed.

Lemma In_push (key k v value : string) (acc : list string) :
  In key (if String.eqb v value then acc ++ [k] else acc)
  <-> In key acc \/ (k, v) = (key, value).
Proof.
  destruct (String.eqb_spec v value) as [->|Hne].
  - rewrite in_app_iff. simpl. split.
    + intros [H|[<-|[]]]; auto.
    + intros [H|[= <-]]; auto.
  - split; [auto|]. intros [H|[= <- <-]]; [exact H | contradiction].
Qed.

Lemma scanLoop_sorted (it : list (string * string)) (value rangeEnd : string) :
  sortedFile it ->
  forall acc key,
    In key (DBManager.scanLoop it value rangeEnd acc)
    <-> In key acc \/ (In (key, value) it /\ (rangeEnd = "" \/ key ⪯ rangeEnd)).
Proof.
  induction it as [|[k v] it IH]; intros Hs acc key.
  - simpl. tauto.
  - apply sortedFile_cons in Hs as [Hk Hrest]. cbn [fst] in Hk.
    cbn [DBManager.scanLoop fst snd]. rewrite str_gt_not_le.
    destruct (empty rangeEnd) eqn:Ee; cbn [negb andb].
    + apply empty_true in Ee. subst rangeEnd.
      rewrite (IH Hrest), In_push. simpl In. tauto.
    + apply empty_false in Ee.
      destruct (str_le k rangeEnd) eqn:El; cbn [negb].
      * rewrite (IH Hrest), In_push. simpl In.
        assert (HR : (k, v) = (key, value) -> key ⪯ rangeEnd) by (intros [= <- _]; exact El).
        tauto.
      * split; [now left|]. intros [H|[Hin [Hr|Hr]]]; [exact H | contradiction |].
        exfalso. assert (Hle : k ⪯ key).
        { destruct Hin as [[= <- _]|Hin]; [apply sle_refl | apply (Hk _ Hin)]. }
        pose proof (sle_trans _ _ _ Hle Hr) as Hc. unfold sle in Hc. congruence.
Qed.

(** What the scan of one file returns: nothing when the file does not open,
    only keys of entries with the value, and on a file in key order exactly
    those of them that lie in the range. *)
Lemma scan_parts (sst : SstStore)
    (filename value rangeStart rangeEnd : string) :
  (sst !! filename = None ->
   DBManager.scanFileForKeysWithValue sst filename value rangeStart rangeEnd = [])
  /\ (forall entries key,
        sst !! filename = Some entries ->
        In key (DBManager.scanFileForKeysWithValue sst filename value rangeStart rangeEnd) ->
        In (key, value) entries)
  /\ (forall entries key,
        sst !! filename = Some entries -> sortedFile entries ->
        (In key (DBManager.scanFileForKeysWithValue sst filename value rangeStart rangeEnd)
         <-> In (key, value) entries /\ rangeStart ⪯ key
             /\ (rangeEnd = "" \/ key ⪯ rangeEnd))).
Proof.
  unfold DBManager.scanFileForKeysWithValue. split; [|split].
  - now intros ->.
  - intros entries key -> Hin. apply scanLoop_subset in Hin as [[]|Hin].
    destruct (empty rangeStart); [exact Hin | now apply Seek_subset in Hin].
  - intros entries key -> Hs.
    destruct (empty rangeStart) eqn:Ee; cbn [negb].
    + apply empty_true in Ee. subst rangeStart. rewrite (scanLoop_sorted _ _ _ Hs).
      simpl. split; [intros [[]|[H1 H2]]; auto using sle_empty | intros (H1 & _ & H2); auto].
    + destruct (Seek_sorted entries rangeStart Hs) as [Hs' Hin].
      rewrite (scanLoop_sorted _ _ _ Hs'), Hin. simpl. tauto.
Qed.

(** ** Outcomes *)

Lemma wp_bind {A B : Type} (t : bool) (m : outcome A) (k : A -> outcome B)
    (post : B -> Prop) :
  wp t m (fun a => wp t (k a) post) -> wp t (m ≫= k) post.
Proof. destruct m; simpl; auto. Qed.

Lemma wp_mono {A : Type} (t : bool) (o : outcome A) (P Q : A -> Prop) :
  wp t o P -> (forall a, P a -> Q a) -> wp t o Q.
Proof. destruct o; simpl; auto. Qed.

Lemma wp_total {A : Type} (o : outcome A) (P : A -> Prop) :
  wp true o P <-> exists a, o = Ret a /\ P a.
Proof.
  destruct o; simpl; split; try discriminate.
  - intros H. eauto.
  - intros (a' & [= <-] & H). exact H.
  - intros (a' & [=] & _).
  - intros (a' & [=] & _).
  - intros (a' & [=] & _).
Qed.

Lemma wp_partial {A : Type} (o : outcome A) (P : A -> Prop) :
  wp false o P <-> forall a, o = Ret a -> P a.
Proof.
  destruct o; simpl; split; try discriminate; auto.
  - intros H a' [= <-]. exact H.
Qed.

(** ** The final scan *)

Lemma scanColumns_spec (sst : SstStore) (values : list string) (combo : Combo) :
  forall (leaves : list Node) (i : nat),
    (i + length leaves <= length values)%nat ->
    scanColumns sst values combo leaves i
    = Ret (zip_with (fun leaf v => list_to_set (columnScan sst combo leaf v))
                    leaves (drop i values)).
Proof.
  induction leaves as [|leaf leaves IH]; intros i Hlen; [reflexivity|].
  cbn [scanColumns]. simpl in Hlen.
  destruct (values !! i) as [v|] eqn:E.
  2:{ apply lookup_ge_None in E. lia. }
  rewrite IH by lia. rewrite (drop_S _ _ _ E). reflexivity.
Qed.

Lemma intersectSets_spec (sets : list (gset string)) :
  forall (result : gset string) (key : string),
    key ∈ intersectSets result sets
    <-> key ∈ result /\ forall set, In set sets -> key ∈ set.
Proof.
  induction sets as [|set sets IH]; intros result key.
  - simpl. tauto.
  - cbn [intersectSets].
    assert (Hf : key ∈ filter (fun key => key ∈ set) result <-> key ∈ result /\ key ∈ set)
      by (rewrite elem_of_filter; tauto).
    destruct (decide (filter (fun key => key ∈ set) result = ∅)) as [E|_].
    + split; [now rewrite E|]. intros [H1 H2].
      apply Hf. split; [exact H1 | apply H2; now left].
    + rewrite IH, Hf. simpl. split.
      * intros [[H1 H2] H3]. split; [exact H1|]. intros s [<-|Hs]; auto.
      * intros [H1 H2]. split; [split|]; auto.
Qed.

(** The keys that [finalSstScanAndIntersect] returns. *)
Lemma finalScan_keys (sst : SstStore) (combo : Combo) (values : list string)
    (g : Globals) :
  (length (nodes combo) <= length values)%nat ->
  exists keys,
    finalSstScanAndIntersect sst combo values g
      = Ret (keys, addSSTCheck (vsize (nodes combo)) g)
    /\ NoDup keys
    /\ forall key,
         In key keys
         <-> nodes combo <> []
             /\ forall j leaf value,
                  nodes combo !! j = Some leaf -> values !! j = Some value ->
                  In key (columnScan sst combo leaf value).
Proof.
  intros Hlen. unfold finalSstScanAndIntersect.
  rewrite scanColumns_spec by (simpl; lia). rewrite drop_0.
  unfold mbind, outcome_bind.
  destruct (nodes combo) as [|leaf0 leaves] eqn:En.
  - exists []. simpl. split; [reflexivity|]. split; [constructor|].
    intros key. split; [intros [] | intros [H _]; now apply H].
  - destruct values as [|v0 values]; [simpl in Hlen; lia|].
    cbn [zip_with].
    eexists. split; [reflexivity|]. split.
    { apply NoDup_elements. }
    intros key. rewrite <- list_elem_of_In, elem_of_elements, intersectSets_spec.
    rewrite elem_of_list_to_set, list_elem_of_In. split.
    + intros [H0 Hrest]. split; [discriminate|].
      intros [|j] leaf value Hl Hv; simpl in Hl, Hv.
      * injection Hl as <-. injection Hv as <-. exact H0.
      * assert (Hz : zip_with (fun leaf v => list_to_set (columnScan sst combo leaf v))
                       leaves values !! j
                     = Some (list_to_set (columnScan sst combo leaf value) : gset string)).
        { rewrite lookup_zip_with, Hl. simpl. rewrite Hv. reflexivity. }
        apply list_elem_of_lookup_2, list_elem_of_In, Hrest in Hz.
        now rewrite elem_of_list_to_set, list_elem_of_In in Hz.
    + intros [_ H]. split; [apply (H 0%nat); reflexivity|].
      intros set Hset. apply list_elem_of_In, list_elem_of_lookup_1 in Hset as [j Hj].
      rewrite lookup_zip_with in Hj.
      destruct (leaves !! j) as [leaf|] eqn:El; [|discriminate]. simpl in Hj.
      destruct (values !! j) as [value|] eqn:Ev; [|discriminate]. simpl in Hj.
      injection Hj as <-. rewrite elem_of_list_to_set, list_elem_of_In.
      apply (H (S j)); assumption.
Qed.

(** ** Candidate options *)

Lemma target_covers (sst : SstStore) (key v : string) (n : Node) :
  target sst key v n -> covers n key /\ BloomFilter.exists_ (bloom n) v = true.
Proof. intros [? ? ? ? ? ? ?|? ? ? ? ? ? ?]; auto. Qed.

Lemma target_succ (sst : SstStore) (key v : string) (n : Node) :
  target sst key v n -> exists c, succ_of n c /\ target sst key v c.
Proof.
  intros H. pose proof H as H0.
  destruct H0 as [n entries Hm Hc Hb Hf Hin | n c Hm Hc Hb Hch Ht].
  - exists n. unfold succ_of. rewrite Hm. split; [reflexivity | exact H].
  - exists c. unfold succ_of. rewrite Hm. auto.
Qed.

Lemma consider_spec (v tightStart tightEnd : string) (c : Node) (col : column) :
  ColOK col ->
  exists col',
    consider (Some v) tightStart tightEnd c col = Ret col'
    /\ globalfinalMatches (counters col') = globalfinalMatches (counters col)
    /\ ColOK col'
    /\ forall o, In o (options col')
                 <-> In o (options col) \/ (o = c /\ passes v tightStart tightEnd c).
Proof.
  intros [Hnone Hall]. unfold consider, passes.
  rewrite str_lt_not_le, str_gt_not_le.
  destruct (str_le tightStart (endKey c)) eqn:E1; cbn [negb orb].
  2:{ exists col. split; [reflexivity|]. split; [reflexivity|].
      split; [split; assumption|]. intros o. split; [auto|].
      intros [H|[_ [H _]]]; [exact H|]. unfold sle in H. congruence. }
  destruct (str_le (startKey c) tightEnd) eqn:E2; cbn [negb].
  2:{ exists col. split; [reflexivity|]. split; [reflexivity|].
      split; [split; assumption|]. intros o. split; [auto|].
      intros [H|[_ (_ & H & _)]]; [exact H|]. unfold sle in H. congruence. }
  destruct (BloomFilter.exists_ (bloom c) v) eqn:E3; cbn [negb].
  2:{ eexists. split; [reflexivity|]. cbn [counters options found colMin colMax].
      split; [now destruct (isMemory c)|]. split; [split; [exact Hnone | exact Hall]|].
      intros o. split; [auto|]. intros [H|[_ (_ & _ & H)]]; [exact H | discriminate]. }
  destruct (found col) eqn:Ef; cbn [negb].
  - eexists. split; [reflexivity|]. cbn [counters options found colMin colMax].
    split; [now destruct (isMemory c)|]. split.
    + split; [discriminate|]. intros o Ho. apply in_app_iff in Ho as [Ho|[<-|[]]].
      * destruct (Hall o Ho) as (_ & H1 & H2). split; [reflexivity|]. split.
        -- apply sle_trans with (colMin col); [apply smin_sle_l | exact H1].
        -- apply sle_trans with (colMax col); [exact H2 | apply sle_smax_l].
      * split; [reflexivity|]. split; [apply smin_sle_r | apply sle_smax_r].
    + intros o. rewrite in_app_iff. simpl. split.
      * intros [H|[<-|[]]]; [now left | right; auto].
      * intros [H|[-> _]]; auto.
  - eexists. split; [reflexivity|]. cbn [counters options found colMin colMax].
    split; [now destruct (isMemory c)|]. rewrite (Hnone eq_refl). split.
    + split; [discriminate|]. intros o [<-|[]]. auto using sle_refl.
    + intros o. simpl. split.
      * intros [<-|[]]. right; auto.
      * intros [[]|[-> _]]; auto.
Qed.

Lemma considerAll_spec (v tightStart tightEnd : string) (cs : list Node) :
  forall col, ColOK col ->
  exists col',
    considerAll (Some v) tightStart tightEnd cs col = Ret col'
    /\ globalfinalMatches (counters col') = globalfinalMatches (counters col)
    /\ ColOK col'
    /\ forall o, In o (options col')
                 <-> In o (options col) \/ (In o cs /\ passes v tightStart tightEnd o).
Proof.
  induction cs as [|c cs IH]; intros col Hok.
  - exists col. simpl. split; [reflexivity|]. split; [reflexivity|].
    split; [exact Hok|]. intros o. tauto.
  - cbn [considerAll].
    destruct (consider_spec v tightStart tightEnd c col Hok) as (col1 & -> & Hm1 & Hok1 & Ho1).
    unfold mbind, outcome_bind.
    destruct (IH col1 Hok1) as (col2 & -> & Hm2 & Hok2 & Ho2).
    exists col2. split; [reflexivity|]. split; [congruence|]. split; [exact Hok2|].
    intros o. rewrite Ho2, Ho1. simpl. split.
    + intros [[H|[-> H]]|[H1 H2]]; auto.
    + intros [H|[[<-|H1] H2]]; auto.
Qed.

(** The options of one column: successors of the node that pass, and every
    successor that passes. *)
Lemma column_spec (v tightStart tightEnd : string) (node : Node) (g : Globals) :
  exists col,
    (if isMemory node
     then considerAll (Some v) tightStart tightEnd (children node)
            (mkColumn [] "" "" false g)
     else consider (Some v) tightStart tightEnd node (mkColumn [] "" "" false g))
    = Ret col
    /\ globalfinalMatches (counters col) = globalfinalMatches g
    /\ ColOK col
    /\ forall o, In o (options col)
                 <-> succ_of node o /\ passes v tightStart tightEnd o.
Proof.
  assert (Hok : ColOK (mkColumn [] "" "" false g)).
  { split; [reflexivity | intros o []]. }
  unfold succ_of. destruct (isMemory node).
  - destruct (considerAll_spec v tightStart tightEnd (children node) _ Hok)
      as (col & -> & Hm & Hok' & Ho).
    exists col. split; [reflexivity|]. split; [exact Hm|]. split; [exact Hok'|].
    intros o. rewrite Ho. simpl. tauto.
  - destruct (consider_spec v tightStart tightEnd node _ Hok)
      as (col & -> & Hm & Hok' & Ho).
    exists col. split; [reflexivity|]. split; [exact Hm|]. split; [exact Hok'|].
    intros o. rewrite Ho. simpl. split.
    + intros [[]|[-> H]]. auto.
    + intros [-> H]. auto.
Qed.

Lemma buildOptions_spec (sst : SstStore) (values : list string) (n : Z) :
  forall (rest : list Node) (i : nat) (tightStart tightEnd : string)
         (candidateOptions : list (list Node)) (g : Globals),
    (i + length rest <= length values)%nat ->
    exists x g',
      buildOptions values n rest i tightStart tightEnd candidateOptions g = Ret (x, g')
      /\ globalfinalMatches g' = globalfinalMatches g
      /\ (forall opts, x = Some opts ->
            exists opts', opts = candidateOptions ++ opts'
              /\ Forall2 (fun node os => forall c, In c os -> succ_of node c) rest opts')
      /\ (forall key, tightStart ⪯ key -> key ⪯ tightEnd ->
            Forall2 (fun nd v => target sst key v nd) rest (take (length rest) (drop i values)) ->
            exists opts' picks,
              x = Some (candidateOptions ++ opts')
              /\ Forall2 (fun c os => In c os) picks opts'
              /\ Forall2 (fun c v => target sst key v c) picks
                         (take (length rest) (drop i values))).
Proof.
  induction rest as [|node rest IH]; intros i ts te cands g Hlen.
  - exists (Some cands), g. cbn [buildOptions]. split; [reflexivity|].
    split; [reflexivity|]. split.
    + intros opts [= <-]. exists []. rewrite app_nil_r. split; [reflexivity | constructor].
    + intros key _ _ _. exists [], []. rewrite app_nil_r. simpl.
      split; [reflexivity|]. split; constructor.
  - simpl in Hlen. cbn [buildOptions].
    destruct (values !! i) as [v|] eqn:Ev.
    2:{ apply lookup_ge_None in Ev. lia. }
    destruct (column_spec v ts te node g) as (col & -> & Hm & Hok & Ho).
    unfold mbind, outcome_bind.
    assert (Hsucc : forall c, In c (options col) -> succ_of node c)
      by (intros c Hc; now apply Ho in Hc).
    rewrite (drop_S _ _ _ Ev). cbn [length take].
    (* the pick of this column, when the key is a target *)
    assert (Hpick : forall key, ts ⪯ key -> key ⪯ te -> target sst key v node ->
              exists c, In c (options col) /\ target sst key v c
                        /\ found col = true /\ colMin col ⪯ key /\ key ⪯ colMax col).
    { intros key Hs He Ht. destruct (target_succ _ _ _ _ Ht) as (c & Hc & Htc).
      destruct (target_covers _ _ _ _ Htc) as [[Hc1 Hc2] Hb].
      assert (Hin : In c (options col)).
      { apply Ho. split; [exact Hc|]. repeat split; auto.
        - now apply sle_trans with key.
        - now apply sle_trans with key. }
      destruct Hok as [_ Hall]. destruct (Hall c Hin) as (Hf & Hmin & Hmax).
      exists c. repeat split; auto.
      - now apply sle_trans with (startKey c).
      - now apply sle_trans with (endKey c). }
    destruct (found col) eqn:Ef; cbn [negb].
    2:{ exists None, (counters col). split; [reflexivity|]. split; [exact Hm|].
        split; [discriminate|]. intros key Hs He Ht. inversion Ht; subst.
        destruct (Hpick key Hs He) as (c & _ & _ & Hf & _); [assumption | discriminate]. }
    assert (Hrec : forall ts' te',
              (forall key, ts ⪯ key -> key ⪯ te -> target sst key v node ->
                           ts' ⪯ key /\ key ⪯ te') ->
              exists x g',
                buildOptions values n rest (S i) ts' te' (cands ++ [options col]) (counters col)
                  = Ret (x, g')
                /\ globalfinalMatches g' = globalfinalMatches g
                /\ (forall opts, x = Some opts ->
                      exists opts', opts = cands ++ opts'
                        /\ Forall2 (fun node os => forall c, In c os -> succ_of node c)
                                   (node :: rest) opts')
                /\ (forall key, ts ⪯ key -> key ⪯ te ->
                      Forall2 (fun nd v => target sst key v nd) (node :: rest)
                              (v :: take (length rest) (drop (S i) values)) ->
                      exists opts' picks,
                        x = Some (cands ++ opts')
                        /\ Forall2 (fun c os => In c os) picks opts'
                        /\ Forall2 (fun c v => target sst key v c) picks
                                   (v :: take (length rest) (drop (S i) values)))).
    { intros ts' te' Htight.
      destruct (IH (S i) ts' te' (cands ++ [options col]) (counters col))
        as (x & g' & -> & Hm' & Hs' & Hc'); [lia|].
      exists x, g'. split; [reflexivity|]. split; [congruence|]. split.
      - intros opts Hx. destruct (Hs' opts Hx) as (opts' & -> & HF).
        exists (options col :: opts'). rewrite <- app_assoc. split; [reflexivity|].
        constructor; assumption.
      - intros key Hs He Ht. inversion Ht as [|? ? ? ? Hnode Hrest]; subst.
        destruct (Htight key Hs He Hnode) as [Hs2 He2].
        destruct (Hc' key Hs2 He2 Hrest) as (opts' & picks & -> & HP & HT).
        destruct (Hpick key Hs He Hnode) as (c & Hc & Htc & _).
        exists (options col :: opts'), (c :: picks). rewrite <- app_assoc.
        split; [reflexivity|]. split; constructor; assumption. }
    destruct (Z.of_nat i + 1 <? n).
    + destruct (str_gt (smax ts (colMin col)) (smin te (colMax col))) eqn:Eg.
      * exists None, (counters col). split; [reflexivity|]. split; [exact Hm|].
        split; [discriminate|]. intros key Hs He Ht. inversion Ht; subst.
        destruct (Hpick key Hs He) as (c & _ & _ & _ & Hmin & Hmax); [assumption|].
        rewrite str_gt_not_le in Eg.
        assert (smax ts (colMin col) ⪯ smin te (colMax col)).
        { apply sle_trans with key; [now apply smax_lub | now apply smin_glb]. }
        unfold sle in H. rewrite H in Eg. discriminate.
      * apply Hrec. intros key Hs He Ht.
        destruct (Hpick key Hs He Ht) as (c & _ & _ & _ & Hmin & Hmax).
        split; [now apply smax_lub | now apply smin_glb].
    + apply Hrec. auto.
Qed.

(** ** Descending a combination *)

Lemma height_child (n c : Node) : In c (children n) -> (height c < height n)%nat.
Proof.
  destruct n as [ch b f s e]. cbn [children height]. intros Hin.
  apply Nat.lt_succ_r.
  assert (H : Forall (fun k => (k <= list_max (map height ch))%nat) (map height ch))
    by (apply list_max_le; lia).
  rewrite Forall_forall in H. apply H, list_elem_of_In, in_map, Hin.
Qed.

Lemma height_pos (n : Node) : (0 < height n)%nat.
Proof. destruct n. cbn [height]. lia. Qed.

Lemma depth_le_tallest (ns : list Node) (n : Node) :
  In n ns -> (depth n <= tallest ns)%nat.
Proof.
  intros Hin. unfold tallest.
  assert (H : Forall (fun k => (k <= list_max (map depth ns))%nat) (map depth ns))
    by (apply list_max_le; lia).
  rewrite Forall_forall in H. apply H, list_elem_of_In, in_map, Hin.
Qed.

Lemma Forall2_In_r {A B : Type} (R : A -> B -> Prop) (l : list A) (k : list B) (y : B) :
  Forall2 R l k -> In y k -> exists x, In x l /\ R x y.
Proof.
  induction 1 as [|x y' l k HR _ IH]; intros Hin; [destruct Hin|].
  destruct Hin as [<-|Hin].
  - exists x. split; [now left | exact HR].
  - destruct (IH Hin) as (x' & Hx & HR'). exists x'. split; [now right | exact HR'].
Qed.

Lemma tallest_succ (ns ns' : list Node) :
  Forall2 succ_of ns ns' ->
  forallb (fun nd => negb (isMemory nd)) ns = false ->
  (tallest ns' < tallest ns)%nat.
Proof.
  intros HF Hmem.
  assert (Hpos : (0 < tallest ns)%nat).
  { destruct (forallb (fun nd => negb (isMemory nd)) ns) eqn:E; [discriminate|].
    clear Hmem. induction ns as [|n ns IH] in ns', HF, E |- *; [discriminate|].
    simpl in E. apply andb_false_iff in E as [E|E].
    - apply negb_false_iff in E. pose proof (depth_le_tallest (n :: ns) n (or_introl eq_refl)).
      unfold depth in H. rewrite E in H. pose proof (height_pos n). lia.
    - inversion HF; subst. specialize (IH _ H3 E).
      unfold tallest in *. simpl. lia. }
  assert (Hall : Forall (fun k => (k < tallest ns)%nat) (map depth ns')).
  { apply Forall_forall. intros k Hk. apply list_elem_of_In, in_map_iff in Hk as (c & <- & Hc).
    destruct (Forall2_In_r succ_of ns ns' c HF Hc) as (n & Hn & Hs).
    pose proof (depth_le_tallest ns n Hn) as Hle.
    unfold succ_of in Hs. unfold depth at 1. destruct (isMemory c) eqn:Ec; [|exact Hpos].
    destruct (isMemory n) eqn:En.
    - unfold depth in Hle. rewrite En in Hle. pose proof (height_child n c Hs). lia.
    - subst c. congruence. }
  destruct ns' as [|c ns']; [exact Hpos|].
  apply list_max_lt; [discriminate | exact Hall].
Qed.

Lemma descends_trans (a b c : Node) : descends a b -> descends b c -> descends a c.
Proof.
  induction 1 as [n|n ch d Hch _ IH]; [auto|].
  intros H. apply descends_child with ch; auto.
Qed.

Lemma succ_of_descends (n c : Node) : succ_of n c -> descends n c.
Proof.
  unfold succ_of. destruct (isMemory n).
  - intros H. apply descends_child with c; [exact H | constructor].
  - intros ->. constructor.
Qed.

Lemma holds_succ (sst : SstStore) (key v : string) (n c : Node) :
  succ_of n c -> holds sst key c v -> holds sst key n v.
Proof.
  intros Hs (leaf & entries & Hd & Hrest). exists leaf, entries.
  split; [|exact Hrest]. apply descends_trans with c; [now apply succ_of_descends | exact Hd].
Qed.

Lemma GoodC_Succ (sst : SstStore) (values : list string) (combo combo' : Combo)
    (key : string) :
  Succ values combo combo' -> GoodC sst values combo' key -> GoodC sst values combo key.
Proof.
  intros (Hn & Hs & He & _) [Hh Hr]. split.
  - clear Hr. revert Hh. generalize values. induction Hn as [|n c ns cs Hnc _ IH]; intros vs Hh.
    + inversion Hh. constructor.
    + inversion Hh as [|? v ? vs' Hc Hcs]; subst. constructor; [|now apply IH].
      now apply holds_succ with c.
  - intros Hsorted. destruct (Hr Hsorted) as [H1 H2]. split.
    + now apply sle_trans with (rangeStart combo').
    + intros Hne. apply sle_trans with (rangeEnd combo'); [|exact He].
      apply H2. intros E. rewrite E in Hs. apply sle_empty_inv in Hs. contradiction.
Qed.

Section Backtrack.

Variables (sst : SstStore) (values : list string) (t : bool).
Variable dfs : Combo -> Globals -> outcome Globals.
Variable combo : Combo.
Hypothesis dfs_spec : forall combo' g,
  Succ values combo combo' -> wp t (dfs combo' g) (Post sst values combo' g).

(** What [backtrack] adds to the matches from column [idx] on. *)
Definition backtrackPost (todo : list (list Node)) (chosen : list Node)
    (vsDone vsRest : list string) (curS curE : string) (g g' : Globals) : Prop :=
  exists new,
    globalfinalMatches g' = globalfinalMatches g ++ new
    /\ (forall key, In key new -> GoodC sst values combo key)
    /\ (forall key picks,
          sortedStore sst -> curS ⪯ key -> key ⪯ curE ->
          Forall2 (fun n v => target sst key v n) chosen vsDone ->
          Forall2 (fun c os => In c os) picks todo ->
          Forall2 (fun n v => target sst key v n) picks vsRest ->
          chosen ++ picks <> [] ->
          In key new).

Lemma backtrack_spec :
  forall (todo : list (list Node)) (doneNodes restNodes chosen : list Node)
         (vsDone vsRest : list string) (curS curE : string) (g : Globals),
    nodes combo = doneNodes ++ restNodes -> values = vsDone ++ vsRest ->
    length doneNodes = length vsDone -> length restNodes = length vsRest ->
    Forall2 succ_of doneNodes chosen ->
    Forall2 (fun node os => forall c, In c os -> succ_of node c) restNodes todo ->
    rangeStart combo ⪯ curS -> curE ⪯ rangeEnd combo ->
    Forall (fun n => curE ⪯ endKey n) chosen ->
    wp t (backtrack dfs todo chosen curS curE g)
       (backtrackPost todo chosen vsDone vsRest curS curE g).
Proof.
  induction todo as [|cands todo IH];
    intros doneNodes restNodes chosen vsDone vsRest curS curE g
           Hnodes Hvalues Hl1 Hl2 Hdone Hrest Hs He Hend.
  - inversion Hrest; subst restNodes. destruct vsRest; [|discriminate].
    rewrite app_nil_r in Hnodes, Hvalues. subst vsDone.
    cbn [backtrack].
    assert (HS : Succ values combo (mkCombo chosen curS curE)).
    { split; [simpl; now rewrite Hnodes|]. split; [exact Hs|]. split; [exact He|].
      split; [|exact Hend]. simpl. apply Forall2_length in Hdone. lia. }
    apply wp_mono with (1 := dfs_spec _ g HS).
    intros g' (new & Hm & Hgood & Htarget). exists new. split; [exact Hm|]. split.
    + intros key Hk. apply GoodC_Succ with (1 := HS). now apply Hgood.
    + intros key picks Hsorted Hk1 Hk2 Hch Hp _ Hne. inversion Hp; subst picks.
      rewrite app_nil_r in Hne. apply Htarget. repeat split; assumption.
  - inversion Hrest as [|node os rest' todo' Hnode Hrest' E1 E2]; subst restNodes.
    destruct vsRest as [|v vsRest]; [discriminate|]. clear E2.
    cbn [backtrack].
    assert (Hloop : forall cs g,
      (forall c, In c cs -> succ_of node c) ->
      wp t ((fix each (cs : list Node) (g : Globals) {struct cs} : outcome Globals :=
               match cs with
               | [] => Ret g
               | cand :: cs' =>
                   if str_le (smax curS (startKey cand)) (smin curE (endKey cand))
                   then g' ← backtrack dfs todo (chosen ++ [cand])
                              (smax curS (startKey cand)) (smin curE (endKey cand)) g;
                        each cs' g'
                   else each cs' g
               end) cs g)
         (fun g' => exists new,
            globalfinalMatches g' = globalfinalMatches g ++ new
            /\ (forall key, In key new -> GoodC sst values combo key)
            /\ (forall key c picks,
                  sortedStore sst -> curS ⪯ key -> key ⪯ curE ->
                  Forall2 (fun n v => target sst key v n) chosen vsDone ->
                  In c cs -> target sst key v c ->
                  Forall2 (fun c os => In c os) picks todo ->
                  Forall2 (fun n v => target sst key v n) picks vsRest ->
                  In key new))).
    { induction cs as [|cand cs IHcs]; intros g0 Hcs.
      - simpl. exists []. rewrite app_nil_r. split; [reflexivity|].
        split; [intros ? []|]. intros ? ? ? _ _ _ _ [].
      - assert (Hcand : succ_of node cand) by (apply Hcs; now left).
        assert (Hcs' : forall c, In c cs -> succ_of node c)
          by (intros c Hc; apply Hcs; now right).
        destruct (str_le (smax curS (startKey cand)) (smin curE (endKey cand))) eqn:Ele.
        + apply wp_bind.
          eapply wp_mono.
          { apply (IH (doneNodes ++ [node]) rest' (chosen ++ [cand])
                      (vsDone ++ [v]) vsRest).
            - now rewrite <- app_assoc.
            - now rewrite <- app_assoc.
            - rewrite !length_app. simpl. lia.
            - simpl in Hl2. lia.
            - apply Forall2_app; [exact Hdone|]. constructor; [exact Hcand | constructor].
            - exact Hrest'.
            - apply sle_trans with curS; [exact Hs | apply sle_smax_l].
            - apply sle_trans with curE; [apply smin_sle_l | exact He].
            - apply Forall_app. split.
              + eapply Forall_impl; [exact Hend|]. intros n Hn. simpl in Hn.
                apply sle_trans with curE; [apply smin_sle_l | exact Hn].
              + constructor; [apply smin_sle_r | constructor]. }
          intros g1 (new1 & Hm1 & Hg1 & Ht1).
          eapply wp_mono; [apply (IHcs g1 Hcs')|].
          intros g2 (new2 & Hm2 & Hg2 & Ht2).
          exists (new1 ++ new2). split; [rewrite Hm2, Hm1; now rewrite app_assoc|].
          split.
          * intros key Hk. apply in_app_iff in Hk as [Hk|Hk]; auto.
          * intros key c picks Hsorted Hk1 Hk2 Hch Hc Htc Hp Htp.
            apply in_app_iff. destruct Hc as [<-|Hc].
            -- left. destruct (target_covers _ _ _ _ Htc) as [[Hc1 Hc2] _].
               apply (Ht1 key picks); auto.
               ++ now apply smax_lub.
               ++ now apply smin_glb.
               ++ apply Forall2_app; [exact Hch|]. constructor; [exact Htc | constructor].
               ++ intros E. apply app_eq_nil in E as [E _].
                  apply app_eq_nil in E as [_ E]. discriminate.
            -- right. apply (Ht2 key c picks); auto.
        + eapply wp_mono; [apply (IHcs g0 Hcs')|].
          intros g2 (new2 & Hm2 & Hg2 & Ht2).
          exists new2. split; [exact Hm2|]. split; [exact Hg2|].
          intros key c picks Hsorted Hk1 Hk2 Hch Hc Htc Hp Htp.
          destruct Hc as [<-|Hc]; [|apply (Ht2 key c picks); auto].
          exfalso. destruct (target_covers _ _ _ _ Htc) as [[Hc1 Hc2] _].
          assert (smax curS (startKey cand) ⪯ smin curE (endKey cand)).
          { apply sle_trans with key; [now apply smax_lub | now apply smin_glb]. }
          unfold sle in H. congruence. }
    eapply wp_mono; [apply (Hloop cands g Hnode)|].
    intros g' (new & Hm & Hg & Ht). exists new. split; [exact Hm|]. split; [exact Hg|].
    intros key picks Hsorted Hk1 Hk2 Hch Hp Htp _.
    inversion Hp as [|c ? picks' ? Hc Hp' E1 E2]; subst picks.
    inversion Htp; subst.
    apply (Ht key c picks'); auto.
Qed.

End Backtrack.

(** ** The search *)

Lemma firstMiss_none (values : list string) (roots : list Node) :
  Forall2 (fun n v => BloomFilter.exists_ (bloom n) v = true) roots values ->
  firstMiss values roots = None.
Proof.
  induction 1 as [|n v roots values Hb _ IH]; [reflexivity|].
  cbn [firstMiss]. now rewrite Hb, IH.
Qed.

Lemma checkRoots_returns (sst : SstStore) (values : list string) (roots : list Node)
    (g : Globals) :
  (length roots <= length values)%nat ->
  exists ok g1,
    checkRoots values roots 0 g = Ret (ok, g1)
    /\ globalfinalMatches g1 = globalfinalMatches g
    /\ (ok = false ->
        forall key, ~ Forall2 (fun n v => target sst key v n) roots values).
Proof.
  intros Hlen. destruct g as [c l s m].
  rewrite checkRoots_spec by (rewrite drop_0; exact Hlen). rewrite drop_0.
  eexists _, _. split; [reflexivity|]. split; [reflexivity|].
  intros Hok key Ht. apply bool_decide_eq_false in Hok. apply Hok.
  apply firstMiss_none. eapply Forall2_impl; [exact Ht|].
  intros n v Hn. simpl in Hn. now apply target_covers in Hn.
Qed.

Lemma Post_nothing (sst : SstStore) (values : list string) (combo : Combo)
    (g g' : Globals) :
  globalfinalMatches g' = globalfinalMatches g ->
  (forall key, ~ TargetC sst values combo key) ->
  Post sst values combo g g'.
Proof.
  intros Hm Hno. exists []. rewrite app_nil_r. split; [exact Hm|].
  split; [intros ? [] | intros key H; now apply Hno in H].
Qed.

(** A combination of leaves: what the final scan finds. *)
Lemma leaves_Post (sst : SstStore) (values : list string) (combo : Combo)
    (g : Globals) :
  WF values combo -> rangeStart combo ⪯ rangeEnd combo ->
  forallb (fun nd => negb (isMemory nd)) (nodes combo) = true ->
  exists keys g',
    finalSstScanAndIntersect sst combo values g = Ret (keys, g')
    /\ Post sst values combo g (appendMatches keys g').
Proof.
  intros [Hlen Hend] Hrange Hleaves.
  destruct (finalScan_keys sst combo values g) as (keys & Hfin & _ & Hkeys); [lia|].
  exists keys, (addSSTCheck (vsize (nodes combo)) g). split; [exact Hfin|].
  exists keys. split; [reflexivity|].
  rewrite forallb_forall in Hleaves. rewrite Forall_forall in Hend.
  split.
  - intros key Hk. apply Hkeys in Hk as [Hne Hall]. split.
    + apply Forall2_same_length_lookup. split; [exact Hlen|].
      intros j leaf v Hl Hv. specialize (Hall j leaf v Hl Hv).
      unfold columnScan in Hall.
      destruct (sst !! filename leaf) as [entries|] eqn:Ef.
      2:{ destruct (scan_parts sst (filename leaf) v
                      (smax (rangeStart combo) (startKey leaf))
                      (smin (rangeEnd combo) (endKey leaf))) as (Hnone & _).
          rewrite (Hnone Ef) in Hall. destruct Hall. }
      exists leaf, entries. split; [constructor|]. split.
      { apply list_elem_of_lookup_2, list_elem_of_In, Hleaves in Hl.
        now apply negb_true_iff in Hl. }
      split; [exact Ef|].
      destruct (scan_parts sst (filename leaf) v
                  (smax (rangeStart combo) (startKey leaf))
                  (smin (rangeEnd combo) (endKey leaf))) as (_ & Hsub & _).
      now apply (Hsub entries key Ef).
    + intros Hsorted.
      destruct (nodes combo) as [|leaf ns] eqn:En; [contradiction|].
      destruct values as [|v vs]; [discriminate|].
      specialize (Hall 0%nat leaf v eq_refl eq_refl). unfold columnScan in Hall.
      destruct (sst !! filename leaf) as [entries|] eqn:Ef.
      2:{ destruct (scan_parts sst (filename leaf) v
                      (smax (rangeStart combo) (startKey leaf))
                      (smin (rangeEnd combo) (endKey leaf))) as (Hnone & _).
          rewrite (Hnone Ef) in Hall. destruct Hall. }
      destruct (scan_parts sst (filename leaf) v
                  (smax (rangeStart combo) (startKey leaf))
                  (smin (rangeEnd combo) (endKey leaf))) as (_ & _ & Hiff).
      apply (Hiff entries key Ef (Hsorted _ _ Ef)) in Hall as (_ & H1 & H2).
      split; [apply sle_trans with (smax (rangeStart combo) (startKey leaf));
              [apply sle_smax_l | exact H1]|].
      intros Hne'.
      assert (Hle : rangeEnd combo ⪯ endKey leaf) by (apply Hend; now left).
      assert (Emin : smin (rangeEnd combo) (endKey leaf) = rangeEnd combo).
      { destruct (smin_cases (rangeEnd combo) (endKey leaf)) as [[E H]|[E H]];
          [|exact E]. rewrite E. now apply sle_antisym. }
      rewrite Emin in H2. destruct H2 as [H2|H2]; [|exact H2].
      rewrite H2 in Hrange. apply sle_empty_inv in Hrange. contradiction.
  - intros key (Hsorted & Hne & Hs & He & Ht). apply Hkeys. split; [exact Hne|].
    intros j leaf v Hl Hv.
    assert (Htl : target sst key v leaf).
    { rewrite Forall2_lookup in Ht. specialize (Ht j). rewrite Hl, Hv in Ht.
      now inversion Ht. }
    assert (Hmem : isMemory leaf = false).
    { apply list_elem_of_lookup_2, list_elem_of_In, Hleaves in Hl.
      now apply negb_true_iff in Hl. }
    destruct Htl as [n entries _ [Hc1 Hc2] _ Hf Hin | n c Hm _ _ _ _]; [|congruence].
    unfold columnScan.
    destruct (scan_parts sst (filename n) v
                (smax (rangeStart combo) (startKey n))
                (smin (rangeEnd combo) (endKey n))) as (_ & _ & Hiff).
    apply (Hiff entries key Hf (Hsorted _ _ Hf)). split; [exact Hin|].
    split; [now apply smax_lub|]. right. now apply smin_glb.
Qed.

Lemma dfs_spec (sst : SstStore) (values : list string) (t : bool) :
  forall (fuel : nat) (combo : Combo) (init : bool) (g : Globals),
    WF values combo ->
    (t = true -> (tallest (nodes combo) < fuel)%nat) ->
    wp t (dfsMultiColumn fuel sst values combo init g) (Post sst values combo g).
Proof.
  induction fuel as [|fuel IH]; intros combo init g HWF Hfuel.
  - simpl. destruct t; [specialize (Hfuel eq_refl); lia | reflexivity].
  - cbn [dfsMultiColumn]. pose proof HWF as [Hlen Hend].
    assert (Hchecked : exists ok g1,
      (if init then checkRoots values (nodes combo) 0 g else Ret (true, g)) = Ret (ok, g1)
      /\ globalfinalMatches g1 = globalfinalMatches g
      /\ (ok = false -> forall key, ~ TargetC sst values combo key)).
    { destruct init.
      - destruct (checkRoots_returns sst values (nodes combo) g) as (ok & g1 & H1 & H2 & H3);
          [lia|].
        exists ok, g1. split; [exact H1|]. split; [exact H2|].
        intros Hok key (_ & _ & _ & _ & Ht). now apply (H3 Hok key).
      - exists true, g. split; [reflexivity|]. split; [reflexivity | discriminate]. }
    destruct Hchecked as (ok & g1 & -> & Hm1 & Hok).
    unfold mbind at 1, outcome_bind at 1. cbv iota beta.
    assert (Hfrom : forall g', Post sst values combo g1 g' -> Post sst values combo g g').
    { intros g' (new & Hm & H). exists new. split; [congruence | exact H]. }
    destruct ok; cbn [negb].
    2:{ apply Hfrom, Post_nothing; auto. }
    rewrite str_gt_not_le.
    destruct (str_le (rangeStart combo) (rangeEnd combo)) eqn:Erange; cbn [negb].
    2:{ apply Hfrom, Post_nothing; [reflexivity|].
        intros key (_ & _ & Hs & He & _).
        pose proof (sle_trans _ _ _ Hs He) as H. unfold sle in H. congruence. }
    destruct (forallb (fun nd => negb (isMemory nd)) (nodes combo)) eqn:Eleaves.
    + destruct (leaves_Post sst values combo g1 HWF Erange Eleaves)
        as (keys & g2 & -> & HP).
      apply Hfrom. exact HP.
    + destruct (buildOptions_spec sst values (vsize (nodes combo)) (nodes combo) 0
                  (rangeStart combo) (rangeEnd combo) [] g1)
        as (x & g2 & -> & Hm2 & Hsound & Hcomplete); [simpl; lia|].
      unfold mbind, outcome_bind. cbn [fst snd].
      rewrite drop_0, Hlen, firstn_all in Hcomplete.
      destruct x as [opts|].
      2:{ apply Hfrom, Post_nothing; [exact Hm2|].
          intros key (_ & _ & Hs & He & Ht).
          destruct (Hcomplete key Hs He Ht) as (? & ? & [=] & _). }
      destruct (Hsound opts eq_refl) as (opts' & -> & HF). simpl.
      eapply wp_mono.
      { apply (backtrack_spec sst values t
                 (fun next g' => dfsMultiColumn fuel sst values next false g') combo)
          with (doneNodes := []) (restNodes := nodes combo)
               (vsDone := []) (vsRest := values); auto using sle_refl.
        intros combo' g' HS. apply IH; [apply HS|].
        intros Ht. specialize (Hfuel Ht). destruct HS as (HS & _).
        pose proof (tallest_succ _ _ HS Eleaves). lia. }
      intros g3 (new & Hm3 & Hgood & Htarget). apply Hfrom.
      exists new. split; [congruence|]. split; [exact Hgood|].
      intros key (Hsorted & Hne & Hs & He & Ht).
      destruct (Hcomplete key Hs He Ht) as (opts2 & picks & [= E] & Hp & Htp).
      subst opts2. apply (Htarget key picks); auto.
      simpl. intros ->. inversion Htp as [E1 E2|]. 
      destruct values; [|discriminate]. destruct (nodes combo); [contradiction | discriminate].
Qed.

(** ** The query *)

Lemma seedCombo_spec (trees : list BloomTree.t) :
  forall (roots : list Node) (start : Combo),
    map BloomTree.root trees = map Some roots ->
    exists s e,
      seedCombo trees start = Ret (mkCombo (nodes start ++ roots) s e)
      /\ rangeStart start ⪯ s /\ e ⪯ rangeEnd start
      /\ Forall (fun r => startKey r ⪯ s /\ e ⪯ endKey r) roots
      /\ (s <> "" -> rangeStart start <> "" \/ Exists (fun r => startKey r <> "") roots)
      /\ forall key, rangeStart start ⪯ key -> key ⪯ rangeEnd start ->
                     Forall (fun r => covers r key) roots -> s ⪯ key /\ key ⪯ e.
Proof.
  induction trees as [|tr trees IH]; intros roots start Hroots.
  - destruct roots; [|discriminate]. exists (rangeStart start), (rangeEnd start).
    destruct start as [n s e]. simpl. rewrite app_nil_r.
    split; [reflexivity|]. repeat split; auto using sle_refl.
  - destruct roots as [|r roots]; [discriminate|]. simpl in Hroots.
    injection Hroots as Hr Hrest. cbn [seedCombo]. rewrite Hr.
    destruct (IH roots (mkCombo (nodes start ++ [r])
                          (smax (rangeStart start) (startKey r))
                          (smin (rangeEnd start) (endKey r))) Hrest)
      as (s & e & -> & Hs & He & Hall & Hne & Hkey).
    cbn [nodes rangeStart rangeEnd] in *. rewrite <- app_assoc. simpl.
    exists s, e. split; [reflexivity|].
    split; [apply sle_trans with (smax (rangeStart start) (startKey r)); auto with sle|].
    split; [apply sle_trans with (smin (rangeEnd start) (endKey r)); auto with sle|].
    split; [|split].
    + constructor; [|exact Hall]. split.
      * apply sle_trans with (smax (rangeStart start) (startKey r)); auto with sle.
      * apply sle_trans with (smin (rangeEnd start) (endKey r)); auto with sle.
    + intros Hs'. destruct (Hne Hs') as [H|H].
      * destruct (smax_cases (rangeStart start) (startKey r)) as [[E _]|[E _]];
          rewrite E in H; [right; now left | now left].
      * right. now right.
    + intros key Hk1 Hk2 Hc. inversion Hc as [|? ? [Hc1 Hc2] Hc']; subst.
      apply Hkey; [now apply smax_lub | now apply smin_glb | exact Hc'].
Qed.

Lemma seedCombo_null (trees : list BloomTree.t) :
  Exists (fun tr => BloomTree.root tr = None) trees ->
  forall start, seedCombo trees start = Undefined.
Proof.
  induction 1 as [tr trees H|tr trees _ IH]; intros start; cbn [seedCombo].
  - now rewrite H.
  - destruct (BloomTree.root tr); [apply IH | reflexivity].
Qed.

Lemma roots_or_null (trees : list BloomTree.t) :
  (exists roots, map BloomTree.root trees = map Some roots)
  \/ Exists (fun tr => BloomTree.root tr = None) trees.
Proof.
  induction trees as [|tr trees [[roots IH]|IH]].
  - left. now exists [].
  - destruct (BloomTree.root tr) as [r|] eqn:E.
    + left. exists (r :: roots). simpl. now rewrite E, IH.
    + right. now left.
  - right. now right.
Qed.

Lemma query_spec (sst : SstStore) (trees : list BloomTree.t) (roots : list Node)
    (values : list string) (globalStart globalEnd : string) (fuel : nat)
    (g : Globals) (t : bool) :
  map BloomTree.root trees = map Some roots ->
  roots <> [] -> length roots = length values ->
  (t = true -> (tallest roots < fuel)%nat) ->
  exists s e,
    globalStart ⪯ s
    /\ (globalEnd <> "" -> e ⪯ globalEnd)
    /\ Forall (fun r => startKey r ⪯ s /\ e ⪯ endKey r) roots
    /\ (s <> "" -> globalStart <> "" \/ Exists (fun r => startKey r <> "") roots)
    /\ (forall key, globalStart ⪯ key -> globalEnd = "" \/ key ⪯ globalEnd ->
                    Forall (fun r => covers r key) roots -> s ⪯ key /\ key ⪯ e)
    /\ wp t (multiColumnQueryHierarchical fuel sst trees values globalStart globalEnd g)
          (fun res =>
             fst res = globalfinalMatches (snd res)
             /\ (forall key, In key (fst res) ->
                             GoodC sst values (mkCombo roots s e) key)
             /\ (forall key, TargetC sst values (mkCombo roots s e) key ->
                             In key (fst res))).
Proof.
  intros Hroots Hne Hlen Hfuel. unfold multiColumnQueryHierarchical.
  assert (Hlt : length trees = length roots).
  { apply (f_equal length) in Hroots. now rewrite !length_map in Hroots. }
  destruct (Z.eqb_spec (vsize trees) 0) as [E0|_].
  { unfold vsize in E0. destruct roots; [contradiction | simpl in *; lia]. }
  destruct (Z.eqb_spec (vsize trees) (vsize values)) as [_|Ene].
  2:{ unfold vsize in Ene. lia. }
  cbn [orb negb].
  destruct trees as [|tree0 trees']; [destruct roots; [contradiction | discriminate]|].
  destruct roots as [|root0 roots']; [contradiction|].
  pose proof Hroots as Hroots0. simpl in Hroots0. injection Hroots0 as Hr0 _.
  rewrite Hr0.
  set (s0 := if empty globalStart then startKey root0 else globalStart).
  set (e0 := if empty globalEnd then endKey root0 else globalEnd).
  destruct (seedCombo_spec (tree0 :: trees') (root0 :: roots') (mkCombo [] s0 e0) Hroots)
    as (s & e & -> & Hs & He & Hall & Hnonempty & Hkey).
  cbn [nodes rangeStart rangeEnd app] in *.
  exists s, e.
  assert (Hgs : globalStart ⪯ s).
  { subst s0. destruct (empty globalStart) eqn:E; [|exact Hs].
    apply empty_true in E. rewrite E. apply sle_empty. }
  split; [exact Hgs|]. split.
  { intros Hge. subst e0. apply empty_false in Hge. now rewrite Hge in He. }
  split; [exact Hall|]. split.
  { intros Hs'. destruct (Hnonempty Hs') as [H|H]; [|now right].
    subst s0. destruct (empty globalStart) eqn:E; [right; now left|now left]. }
  split.
  { intros key Hk1 Hk2 Hc. inversion Hc as [|? ? [Hc1 Hc2] Hc']; subst.
    apply Hkey; [| |exact Hc].
    - subst s0. now destruct (empty globalStart).
    - subst e0. destruct (empty globalEnd) eqn:E; [exact Hc2|].
      apply empty_false in E. destruct Hk2 as [Hk2|Hk2]; [contradiction | exact Hk2]. }
  unfold mbind at 1, outcome_bind at 1. cbv iota beta.
  apply wp_bind.
  eapply wp_mono.
  { apply (dfs_spec sst values t fuel (mkCombo (root0 :: roots') s e) true).
    - split; [exact Hlen|]. simpl. eapply Forall_impl; [exact Hall|].
      intros r [_ H]. exact H.
    - exact Hfuel. }
  intros g' (new & Hm & Hgood & Htarget). simpl in Hm. simpl.
  split; [reflexivity|]. rewrite Hm. split; assumption.
Qed.

(** A tree whose root was never built makes the query undefined. *)
Lemma query_null_root (sst : SstStore) (trees : list BloomTree.t)
    (values : list string) (globalStart globalEnd : string) (fuel : nat)
    (g : Globals) :
  trees <> [] -> length trees = length values ->
  Exists (fun tr => BloomTree.root tr = None) trees ->
  multiColumnQueryHierarchical fuel sst trees values globalStart globalEnd g = Undefined.
Proof.
  intros Hne Hlen Hnull. unfold multiColumnQueryHierarchical.
  destruct (Z.eqb_spec (vsize trees) 0) as [E0|_].
  { unfold vsize in E0. destruct trees; [contradiction | simpl in *; lia]. }
  destruct (Z.eqb_spec (vsize trees) (vsize values)) as [_|Ene].
  2:{ unfold vsize in Ene. lia. }
  cbn [orb negb]. destruct trees as [|tree0 trees']; [contradiction|].
  destruct (BloomTree.root tree0) eqn:E0; [|reflexivity].
  now rewrite seedCombo_null.
Qed.

Lemma query_shape (sst : SstStore) (trees : list BloomTree.t)
    (values : list string) (globalStart globalEnd : string) (fuel : nat)
    (g : Globals) :
  trees = [] \/ length trees <> length values ->
  multiColumnQueryHierarchical fuel sst trees values globalStart globalEnd g
  = Ret ([], g).
Proof.
  intros H. unfold multiColumnQueryHierarchical.
  destruct (Z.eqb_spec (vsize trees) 0) as [E0|E0]; [reflexivity|].
  destruct (Z.eqb_spec (vsize trees) (vsize values)) as [E|E]; [|reflexivity].
  exfalso. unfold vsize in *. destruct H as [->|H]; [now apply E0 | lia].
Qed.

Lemma two_column_store_sorted : sortedStore two_column_store.
Proof.
  unfold sortedStore, sortedFile. apply (bool_decide_unpack _). vm_compute. exact I.
Qed.

(** What a successful query says about a key it returns. *)
Lemma query_sound (sst : SstStore) (trees : list BloomTree.t)
    (values : list string) (globalStart globalEnd : string) (fuel : nat)
    (g g' : Globals) (keys : list string) (key : string) :
  multiColumnQueryHierarchical fuel sst trees values globalStart globalEnd g
  = Ret (keys, g') ->
  In key keys ->
  exists roots s e,
    map BloomTree.root trees = map Some roots
    /\ globalStart ⪯ s
    /\ (globalEnd <> "" -> e ⪯ globalEnd)
    /\ Forall (fun r => startKey r ⪯ s /\ e ⪯ endKey r) roots
    /\ GoodC sst values (mkCombo roots s e) key.
Proof.
  intros Hret Hin.
  destruct (decide (trees = [])) as [Hnil|Hne].
  { rewrite query_shape in Hret by (now left). injection Hret as <- _. destruct Hin. }
  destruct (decide (length trees = length values)) as [Hlen|Hlen].
  2:{ rewrite query_shape in Hret by (now right). injection Hret as <- _. destruct Hin. }
  destruct (roots_or_null trees) as [[roots Hroots]|Hnull].
  2:{ rewrite query_null_root in Hret by assumption. discriminate. }
  assert (Hlr : length trees = length roots).
  { apply (f_equal length) in Hroots. now rewrite !length_map in Hroots. }
  destruct (query_spec sst trees roots values globalStart globalEnd fuel g false Hroots)
    as (s & e & Hs & He & Hall & _ & _ & Hwp).
  - intros ->. destruct trees; [contradiction | discriminate].
  - lia.
  - discriminate.
  - rewrite Hret in Hwp. simpl in Hwp. destruct Hwp as (_ & Hgood & _).
    exists roots, s, e. repeat split; auto; now apply Hgood.
Qed.

(** ** Leaves of a sorted file *)

Lemma sortedFile_take (n : nat) (l : list (string * string)) :
  sortedFile l -> sortedFile (take n l).
Proof.
  revert n. induction l as [|kv l IH]; intros [|n] Hs; try reflexivity.
  apply sortedFile_cons in Hs as [Hk Hrest]. cbn [take]. apply sortedFile_cons.
  split; [|now apply IH]. intros kv' Hin. apply Hk.
  apply list_elem_of_In. eapply subseteq_take. apply list_elem_of_In. exact Hin.
Qed.

Lemma sortedFile_drop (n : nat) (l : list (string * string)) :
  sortedFile l -> sortedFile (drop n l).
Proof.
  revert n. induction l as [|kv l IH]; intros [|n] Hs; try assumption.
  apply sortedFile_cons in Hs as [_ Hrest]. cbn [drop]. now apply IH.
Qed.

Lemma runs_upto_sorted (fuel N : nat) :
  forall l r, sortedFile l -> In r (runs_upto fuel N l) -> sortedFile r.
Proof.
  induction fuel as [|fuel IH]; intros l r Hs Hin; [destruct Hin|].
  cbn [runs_upto] in Hin. destruct l as [|kv l]; [destruct Hin|].
  destruct Hin as [<-|Hin]; [now apply sortedFile_take|].
  apply (IH (drop N (kv :: l))); [now apply sortedFile_drop | exact Hin].
Qed.

Lemma sorted_last (r : list (string * string)) :
  sortedFile r -> forall kv, In kv r -> fst kv ⪯ lastKeyOf r.
Proof.
  induction r as [|kv0 r IH]; intros Hs kv Hin; [destruct Hin|].
  apply sortedFile_cons in Hs as [Hk Hrest].
  destruct r as [|kv' r'].
  - destruct Hin as [->|[]]. unfold lastKeyOf. simpl. apply sle_refl.
  - assert (E : lastKeyOf (kv0 :: kv' :: r') = lastKeyOf (kv' :: r')) by reflexivity.
    rewrite E. destruct Hin as [->|Hin]; [|now apply IH].
    apply sle_trans with (fst kv'); [apply Hk; now left|].
    apply (IH Hrest). now left.
Qed.

Lemma sorted_bounds (r : list (string * string)) (key v : string) :
  sortedFile r -> In (key, v) r -> firstKey r ⪯ key /\ key ⪯ lastKeyOf r.
Proof.
  intros Hs Hin. split.
  - destruct r as [|kv r]; [destruct Hin|]. unfold firstKey. simpl.
    apply sortedFile_cons in Hs as [Hk _].
    destruct Hin as [->|Hin]; [apply sle_refl | apply (Hk _ Hin)].
  - apply (sorted_last r Hs (key, v) Hin).
Qed.

Lemma inserted_fold (v : string) (vs : list string) :
  forall f, inserted v f -> inserted v (fold_left BloomFilter.insert vs f).
Proof.
  induction vs as [|w vs IH]; intros f H; [exact H|].
  simpl. apply IH. now apply inserted_before.
Qed.

Lemma inserted_in_fold (v : string) (vs : list string) :
  forall f, BloomFilter.wf f -> 0 < BloomFilter.bitArraySize f -> In v vs ->
            inserted v (fold_left BloomFilter.insert vs f).
Proof.
  induction vs as [|w vs IH]; intros f Hwf Hm Hin; [destruct Hin|].
  simpl. destruct Hin as [->|Hin].
  - apply inserted_fold. now apply inserted_now.
  - apply IH; [now apply insert_wf | now rewrite insert_size | exact Hin].
Qed.

Lemma fold_insert_shape (vs : list string) :
  forall f, BloomFilter.wf f ->
    BloomFilter.wf (fold_left BloomFilter.insert vs f)
    /\ BloomFilter.bitArraySize (fold_left BloomFilter.insert vs f)
       = BloomFilter.bitArraySize f
    /\ BloomFilter.numHashFunctions (fold_left BloomFilter.insert vs f)
       = BloomFilter.numHashFunctions f.
Proof.
  induction vs as [|w vs IH]; intros f Hwf; [auto|].
  simpl. destruct (IH (BloomFilter.insert f w) (insert_wf f w Hwf)) as (H1 & H2 & H3).
  auto.
Qed.

Lemma new_wf (m k : Z) :
  0 <= m -> m + 7 < 2 ^ 64 -> - 2 ^ 31 <= k < 2 ^ 31 ->
  BloomFilter.wf (BloomFilter.new m k).
Proof.
  intros Hm Hm' Hk. unfold BloomFilter.wf, BloomFilter.new. simpl.
  unfold vsize. rewrite length_replicate. repeat split; lia.
Qed.

Lemma processSSTFile_leaves (sst : SstStore) (sstFile : string)
    (entries : list (string * string)) (N bloomSize numHashFunctions : Z) :
  sst !! sstFile = Some entries -> 1 <= N < 2 ^ 64 ->
  BloomManager.processSSTFile sst sstFile N bloomSize numHashFunctions
  = map (leafOf sstFile bloomSize numHashFunctions) (runs (Z.to_nat N) entries).
Proof.
  intros Hfile HN. unfold BloomManager.processSSTFile. rewrite Hfile.
  exact (fold_runs sstFile N bloomSize numHashFunctions HN (length entries)
           entries [] (initialLocals bloomSize numHashFunctions)
           (Nat.le_refl _) (initial_accumulating bloomSize numHashFunctions)).
Qed.

(** Every leaf of the partitioner fits the tree it is made for. *)
Lemma processSSTFile_leafFor (sst : SstStore) (sstFile : string)
    (N m k : Z) (tr : BloomTree.t) (l : Node) :
  1 <= N < 2 ^ 64 -> 0 <= m -> m + 7 < 2 ^ 64 -> - 2 ^ 31 <= k < 2 ^ 31 ->
  BloomTree.bloomSize tr = m -> BloomTree.numHashFunctions tr = k ->
  In l (BloomManager.processSSTFile sst sstFile N m k) -> leafFor tr l.
Proof.
  intros HN Hm Hm' Hk Etm Etk Hin.
  destruct (sst !! sstFile) as [entries|] eqn:Ef.
  2:{ unfold BloomManager.processSSTFile in Hin. rewrite Ef in Hin. destruct Hin. }
  rewrite (processSSTFile_leaves _ _ _ _ _ _ Ef HN) in Hin.
  apply in_map_iff in Hin as (r & <- & _).
  destruct (fold_insert_shape (map snd r) (BloomFilter.new m k) (new_wf m k Hm Hm' Hk))
    as (H1 & H2 & H3).
  unfold leafFor, leafOf. cbn [children bloom]. rewrite H2, H3. simpl. auto.
Qed.

(** The leaf of the run that holds an entry is a target for it. *)
Lemma leaf_target (sst : SstStore) (sstFile : string)
    (entries : list (string * string)) (N m k : Z) (key v : string) :
  sst !! sstFile = Some entries -> sortedFile entries -> sstFile <> Memory ->
  1 <= N < 2 ^ 64 -> 0 < m -> m + 7 < 2 ^ 64 -> - 2 ^ 31 <= k < 2 ^ 31 ->
  In (key, v) entries ->
  exists l, In l (BloomManager.processSSTFile sst sstFile N m k)
            /\ target sst key v l.
Proof.
  intros Hfile Hsorted Hname HN Hm Hm' Hk Hin.
  rewrite (processSSTFile_leaves _ _ _ _ _ _ Hfile HN).
  apply (in_runs (Z.to_nat N)) in Hin as (r & Hr & Hin); [|lia].
  exists (leafOf sstFile m k r). split; [now apply in_map|].
  apply target_leaf with entries.
  - apply isMemory_false. exact Hname.
  - apply sorted_bounds with v; [|exact Hin].
    now apply (runs_upto_sorted (length entries) (Z.to_nat N) entries).
  - apply inserted_exists. cbn [leafOf bloom].
    apply inserted_in_fold; [apply new_wf; lia | exact Hm |].
    change v with (snd (key, v)). now apply in_map.
  - exact Hfile.
  - destruct (runs_spec (Z.to_nat N) entries) as (Hc & _); [lia|].
    rewrite <- Hc. apply in_concat. eauto.
Qed.

(** ** Targets in a built tree *)

Lemma descends_leaf (n l : Node) :
  descends n l -> children l = [] -> In l (leaves_of n).
Proof.
  induction 1 as [n|n c d Hc Hd IH]; intros Hnil.
  - destruct n as [ch b f s e]. simpl in *. subst ch. now left.
  - destruct n as [ch b f s e]. cbn [children] in Hc. cbn [leaves_of children].
    destruct ch as [|c0 ch]; [destruct Hc|].
    apply in_concat. exists (leaves_of c). split; [now apply in_map | now apply IH].
Qed.

Lemma Built_target (sst : SstStore) (key v : string) (tr : BloomTree.t)
    (leaves : list Node) (n : Node) :
  Forall (leafFor tr) leaves ->
  Built tr leaves n ->
  forall l, In l (leaves_of n) -> target sst key v l -> target sst key v n.
Proof.
  intros Hok Hb. induction Hb as [l' Hl' | g Hne Hg IH Hfit]; intros l Hl Ht.
  - destruct (leaf_ok tr leaves Hok l' Hl') as (Hnil & _).
    assert (E : leaves_of l' = [l']) by (destruct l'; simpl in *; now rewrite Hnil).
    rewrite E in Hl. destruct Hl as [<-|[]]. exact Ht.
  - destruct (parentOf_spec tr g Hne Hfit) as (Hch & Hf & (Hs & He & _) & _).
    assert (Hb : Built tr leaves (parentOf tr g)) by (now apply built_parent).
    assert (El : leaves_of (parentOf tr g) = concat (map leaves_of g)).
    { destruct (parentOf tr g) as [ch b f s e]. cbn [children] in Hch. subst ch.
      cbn [leaves_of children]. destruct g; [contradiction | reflexivity]. }
    pose proof Hl as Hl0. rewrite El in Hl.
    apply in_concat in Hl as (ls & Hls & Hl).
    apply in_map_iff in Hls as (c & <- & Hc).
    pose proof (IH c Hc l Hl Ht) as Htc.
    destruct (target_covers _ _ _ _ Htc) as [[Hc1 Hc2] _].
    destruct (target_covers _ _ _ _ Ht) as [_ Hbl].
    apply target_node with c.
    + now apply isMemory_true.
    + split.
      * apply sle_trans with (startKey c); [|exact Hc1].
        destruct Hs as [_ Hs]. apply Hs. now apply in_map.
      * apply sle_trans with (endKey c); [exact Hc2|].
        destruct He as [_ He]. apply He. now apply in_map.
    + now apply (Built_exists tr leaves Hok (parentOf tr g) l v).
    + now rewrite Hch.
    + exact Htc.
Qed.

(** The root of a hierarchy is a target for every entry of the column's
    files. *)
Lemma indexes_target (sst : SstStore) (files : list string) (tree : BloomTree.t)
    (key v : string) :
  sortedStore sst -> indexes sst files tree -> columnHas sst key files v ->
  exists root, BloomTree.root tree = Some root /\ target sst key v root.
Proof.
  intros Hsorted (fuel & fs & fs' & N & m & k & r & HN & Hm & Hm' & Hk & Hr & Hw & Hbuild)
         (file & entries & Hfile & Hname & Hentries & Hin).
  unfold BloomManager.createPartitionedHierarchy, BloomTree.buildTree in Hbuild.
  cbn [BloomTree.new BloomTree.root BloomTree.ratio BloomTree.bloomSize
       BloomTree.numHashFunctions BloomTree.leafNodes] in Hbuild.
  set (leaves := concat (map (fun sstFile => BloomManager.processSSTFile sst sstFile N m k)
                             files)) in *.
  set (tr := BloomTree.mk None r m k leaves) in *.
  destruct (BloomTree.buildLevel fuel tr leaves) as [root| | |] eqn:Elevel;
    try discriminate.
  unfold mbind at 1, outcome_bind at 1 in Hbuild.
  destruct (BloomTree.saveLeaves leaves fs) as [fs1| | |]; try discriminate.
  simpl in Hbuild. injection Hbuild as <- _.
  cbn [BloomTree.leafNodes] in Hw.
  exists root. split; [reflexivity|].
  assert (Hok : Forall (leafFor tr) leaves).
  { apply Forall_forall. intros l Hl. apply list_elem_of_In, in_concat in Hl as (ls & Hls & Hl).
    apply in_map_iff in Hls as (f & <- & _).
    apply (processSSTFile_leafFor sst f N m k tr l); auto; lia. }
  destruct (leaf_target sst file entries N m k key v) as (l & Hl & Ht); auto.
  { exact (Hsorted _ _ Hentries). }
  assert (Hleaf : In l leaves).
  { apply in_concat. exists (BloomManager.processSSTFile sst file N m k).
    split; [|exact Hl].
    apply (in_map (fun sstFile => BloomManager.processSSTFile sst sstFile N m k)), Hfile. }
  assert (Hb : Built tr leaves root).
  { apply (buildLevel_Built tr Hr leaves fuel leaves root); auto.
    intros n Hn. now apply built_leaf. }
  assert (Hd : descends root l).
  { apply (buildLevel_descends tr Hr fuel leaves root); auto. }
  apply (Built_target sst key v tr leaves root Hok Hb l); [|exact Ht].
  apply descends_leaf; [exact Hd|].
  rewrite Forall_forall in Hok. apply (Hok l). now apply list_elem_of_In.
Qed.

(** ** Properties of the scan and of the multi-column query *)

(** X2. A file that does not open is scanned as empty. Every key the scan
    returns is the key of an entry of the file with the value. For a file in
    key order the scan returns exactly the keys of the entries that hold the
    value and lie in the range: not below [rangeStart], and not above
    [rangeEnd] unless [rangeEnd] is empty, which leaves the scan unbounded
    above. *)
Theorem scanFileForKeysWithValue_spec (sst : SstStore)
    (filename value rangeStart rangeEnd : string) :
  (sst !! filename = None ->
   DBManager.scanFileForKeysWithValue sst filename value rangeStart rangeEnd = [])
  /\ (forall entries key,
        sst !! filename = Some entries ->
        In key (DBManager.scanFileForKeysWithValue sst filename value rangeStart rangeEnd) ->
        In (key, value) entries)
  /\ (forall entries key,
        sst !! filename = Some entries -> sortedFile entries ->
        (In key (DBManager.scanFileForKeysWithValue sst filename value rangeStart rangeEnd)
         <-> In (key, value) entries /\ rangeStart ⪯ key
             /\ (rangeEnd = "" \/ key ⪯ rangeEnd))).
Proof. apply scan_parts. Qed.

(** X3. With one value per node, [finalSstScanAndIntersect] returns, without
    duplicates, exactly the keys that every column's scan returns: the scan
    of the column's file for the column's value between the larger of the two
    start keys and the smaller of the two end keys. It adds the number of
    nodes to the file-scan counter and changes nothing else; of no node at
    all it returns nothing. *)
Theorem finalSstScanAndIntersect_spec (sst : SstStore) (combo : Combo)
    (values : list string) (g : Globals) :
  (length (nodes combo) <= length values)%nat ->
  exists keys,
    finalSstScanAndIntersect sst combo values g
      = Ret (keys, mkGlobals (gBloomCheckCount g) (gLeafBloomCheckCount g)
                     (wrap64 (gSSTCheckCount g + vsize (nodes combo)))
                     (globalfinalMatches g))
    /\ NoDup keys
    /\ forall key,
         In key keys
         <-> nodes combo <> []
             /\ forall j leaf value,
                  nodes combo !! j = Some leaf -> values !! j = Some value ->
                  In key (DBManager.scanFileForKeysWithValue sst (filename leaf) value
                            (smax (rangeStart combo) (startKey leaf))
                            (smin (rangeEnd combo) (endKey leaf))).
Proof. intros Hlen. apply (finalScan_keys sst combo values g Hlen). Qed.

Lemma finalSstScanAndIntersect_spec_witness :
  exists keys,
    finalSstScanAndIntersect two_column_store
      (mkCombo [mkNode [] (BloomFilter.new 8 1) "c1.sst" "k1" "k5";
                mkNode [] (BloomFilter.new 8 1) "c2.sst" "k1" "k3"] "k1" "k5")
      ["v1"; "v2"] untouched
    = Ret (keys, mkGlobals 7 7 9 ["stale"])
    /\ NoDup keys
    /\ forall key,
         In key keys
         <-> [mkNode [] (BloomFilter.new 8 1) "c1.sst" "k1" "k5";
              mkNode [] (BloomFilter.new 8 1) "c2.sst" "k1" "k3"] <> []
             /\ forall j leaf value,
                  [mkNode [] (BloomFilter.new 8 1) "c1.sst" "k1" "k5";
                   mkNode [] (BloomFilter.new 8 1) "c2.sst" "k1" "k3"] !! j = Some leaf ->
                  ["v1"; "v2"] !! j = Some value ->
                  In key (DBManager.scanFileForKeysWithValue two_column_store
                            (filename leaf) value
                            (smax "k1" (startKey leaf)) (smin "k5" (endKey leaf))).
Proof.
  apply (finalSstScanAndIntersect_spec two_column_store
           (mkCombo [mkNode [] (BloomFilter.new 8 1) "c1.sst" "k1" "k5";
                     mkNode [] (BloomFilter.new 8 1) "c2.sst" "k1" "k3"] "k1" "k5")
           ["v1"; "v2"] untouched).
  simpl. lia.
Defined.

Lemma roots_of_built (fuel : nat) (trees : list BloomTree.t) :
  Forall (fun tr => is_Some (BloomTree.root tr) /\ (levels tr < fuel)%nat) trees ->
  exists roots,
    map BloomTree.root trees = map Some roots
    /\ (roots <> [] -> (tallest roots < fuel)%nat).
Proof.
  induction 1 as [|tr trees [[r Hr] Hl] _ (roots & IH1 & IH2)].
  - exists []. split; [reflexivity | contradiction].
  - exists (r :: roots). split; [simpl; now rewrite Hr, IH1|].
    intros _. unfold levels in Hl. rewrite Hr in Hl.
    assert (Hd : (depth r < fuel)%nat).
    { unfold depth. destruct (isMemory r); lia. }
    unfold tallest in *. simpl. destruct roots as [|r' roots']; [simpl; lia|].
    specialize (IH2 ltac:(discriminate)). lia.
Qed.



Lemma Forall2_roots {B : Type} (P : Node -> B -> Prop) (trees : list BloomTree.t) :
  forall (roots : list Node) (vs : list B),
    map BloomTree.root trees = map Some roots ->
    Forall2 P roots vs ->
    Forall2 (fun tr v => exists root, BloomTree.root tr = Some root /\ P root v) trees vs.
Proof.
  induction trees as [|tr trees IH]; intros roots vs Hroots HF.
  - destruct roots; [|discriminate]. inversion HF. constructor.
  - destruct roots as [|r roots]; [discriminate|]. simpl in Hroots.
    injection Hroots as Hr Hrest. inversion HF; subst.
    constructor; [eauto | eapply IH; eauto].
Qed.

Lemma Forall_roots (P : Node -> Prop) (trees : list BloomTree.t) :
  forall (roots : list Node),
    map BloomTree.root trees = map Some roots ->
    Forall P roots ->
    Forall (fun tr => exists root, BloomTree.root tr = Some root /\ P root) trees.
Proof.
  induction trees as [|tr trees IH]; intros roots Hroots HF.
  - constructor.
  - destruct roots as [|r roots]; [discriminate|]. simpl in Hroots.
    injection Hroots as Hr Hrest. inversion HF; subst.
    constructor; [eauto | eapply IH; eauto].
Qed.

(** X5. Every key the query returns is held by every column: at or below the
    root of the column's tree there is a leaf whose file has an entry with
    that key and the column's value. *)
Theorem query_keys_match_every_column (fuel : nat) (sst : SstStore)
    (trees : list BloomTree.t) (values : list string)
    (globalStart globalEnd : string) (g g' : Globals) (keys : list string)
    (key : string) :
  multiColumnQueryHierarchical fuel sst trees values globalStart globalEnd g
  = Ret (keys, g') ->
  In key keys ->
  Forall2 (fun tr v => exists root leaf entries,
             BloomTree.root tr = Some root
             /\ descends root leaf /\ filename leaf <> Memory
             /\ sst !! filename leaf = Some entries /\ In (key, v) entries)
          trees values.
Proof.
  intros Hret Hin.
  destruct (query_sound sst trees values globalStart globalEnd fuel g g' keys key Hret Hin)
    as (roots & s & e & Hroots & _ & _ & _ & [Hholds _]).
  eapply Forall2_impl; [apply (Forall2_roots _ trees roots values Hroots Hholds)|].
  intros tr v (root & Hr & leaf & entries & Hd & Hm & Hf & Hk). simpl.
  exists root, leaf, entries. apply isMemory_false in Hm. auto.
Qed.



(** X6. When the files are in key order, every key the query returns is not
    below [globalStart] and not below the start key of any root. When
    [globalStart] or the start key of some root is not empty, the key is also
    not above [globalEnd], unless that is empty, and not above the end key of
    any root. *)
Theorem query_keys_lie_in_range (fuel : nat) (sst : SstStore)
    (trees : list BloomTree.t) (values : list string)
    (globalStart globalEnd : string) (g g' : Globals) (keys : list string)
    (key : string) :
  sortedStore sst ->
  multiColumnQueryHierarchical fuel sst trees values globalStart globalEnd g
  = Ret (keys, g') ->
  In key keys ->
  globalStart ⪯ key
  /\ Forall (fun tr => exists root, BloomTree.root tr = Some root
                                    /\ startKey root ⪯ key) trees
  /\ (globalStart <> ""
      \/ Exists (fun tr => exists root, BloomTree.root tr = Some root
                                        /\ startKey root <> "") trees ->
      (globalEnd = "" \/ key ⪯ globalEnd)
      /\ Forall (fun tr => exists root, BloomTree.root tr = Some root
                                        /\ key ⪯ endKey root) trees).
Proof.
  intros Hsorted Hret Hin.
  destruct (query_sound sst trees values globalStart globalEnd fuel g g' keys key Hret Hin)
    as (roots & s & e & Hroots & Hgs & Hge & Hall & [_ Hrange]).
  destruct (Hrange Hsorted) as [Hs He]. cbn [rangeStart rangeEnd] in Hs, He.
  split; [now apply sle_trans with s|]. split.
  { apply (Forall_roots _ trees roots Hroots). eapply Forall_impl; [exact Hall|].
    intros r [Hr _]. simpl. now apply sle_trans with s. }
  intros Hnonempty.
  assert (Hs' : s <> "").
  { intros ->. destruct Hnonempty as [H|H].
    - apply H. now apply sle_empty_inv.
    - apply Exists_exists in H as (tr & Htr & root & Hr & Hne).
      pose proof (Forall_roots _ trees roots Hroots Hall) as HF.
      rewrite Forall_forall in HF. destruct (HF tr Htr) as (root' & Hr' & Hle & _).
      assert (root' = root) by congruence. subst root'.
      apply Hne. now apply sle_empty_inv. }
  specialize (He Hs'). split.
  - destruct (decide (globalEnd = "")) as [E|E]; [now left | right].
    apply sle_trans with e; [exact He | now apply Hge].
  - apply (Forall_roots _ trees roots Hroots). eapply Forall_impl; [exact Hall|].
    intros r [_ Hr]. simpl. now apply sle_trans with e.
Qed.



Lemma Forall2_join {A B C : Type} (P : A -> B -> Prop) (Q : A -> C -> Prop)
    (R : B -> C -> Prop) (la : list A) :
  (forall a b c, P a b -> Q a c -> R b c) ->
  forall lb lc, Forall2 P la lb -> Forall2 Q la lc -> Forall2 R lb lc.
Proof.
  intros HR. induction la as [|a la IH]; intros lb lc HP HQ.
  - inversion HP. inversion HQ. constructor.
  - inversion HP; subst. inversion HQ; subst. constructor; eauto.
Qed.

Lemma roots_of_targets (sst : SstStore) (key : string) (trees : list BloomTree.t) :
  forall values,
    Forall2 (fun tr v => exists root, BloomTree.root tr = Some root
                                      /\ target sst key v root) trees values ->
    exists roots,
      map BloomTree.root trees = map Some roots
      /\ Forall2 (fun n v => target sst key v n) roots values.
Proof.
  induction trees as [|tr trees IH]; intros values HF.
  - inversion HF. exists []. split; [reflexivity | constructor].
  - inversion HF as [|? v ? vs (root & Hr & Ht) Hrest]; subst.
    destruct (IH vs Hrest) as (roots & H1 & H2).
    exists (root :: roots). split; [simpl; now rewrite Hr, H1 | now constructor].
Qed.

(** X7. No false negatives. Let the files be in key order and every column
    be indexed by the hierarchy that [createPartitionedHierarchy] builds over
    its files. A key that every column holds with the column's value, in a
    file whose path is not the tag of the interior nodes, and that lies in
    the queried range (an empty bound does not bound), is among the keys the
    query returns, as soon as the recursion may go one level deeper than the
    tallest tree. *)
Theorem query_finds_every_match (fuel : nat) (sst : SstStore)
    (columns : list (list string)) (trees : list BloomTree.t)
    (values : list string) (globalStart globalEnd : string) (g : Globals)
    (key : string) :
  sortedStore sst -> trees <> [] ->
  Forall2 (indexes sst) columns trees ->
  Forall (fun tr => (levels tr < fuel)%nat) trees ->
  Forall2 (columnHas sst key) columns values ->
  globalStart ⪯ key -> globalEnd = "" \/ key ⪯ globalEnd ->
  exists keys g',
    multiColumnQueryHierarchical fuel sst trees values globalStart globalEnd g
    = Ret (keys, g')
    /\ In key keys.
Proof.
  intros Hsorted Hne Hidx Hfuel Hhas Hgs Hge.
  assert (Ht : Forall2 (fun tr v => exists root, BloomTree.root tr = Some root
                                                 /\ target sst key v root) trees values).
  { apply (Forall2_join (indexes sst) (columnHas sst key) _ columns); [|assumption..].
    intros files tr v Hi Hc. now apply (indexes_target sst files tr key v). }
  destruct (roots_of_targets sst key trees values Ht) as (roots & Hroots & Htargets).
  assert (Hlr : length trees = length roots).
  { apply (f_equal length) in Hroots. now rewrite !length_map in Hroots. }
  assert (Hrne : roots <> []).
  { intros ->. destruct trees; [contradiction | discriminate]. }
  assert (Hbuilt : Forall (fun tr => is_Some (BloomTree.root tr) /\ (levels tr < fuel)%nat)
                          trees).
  { apply Forall_forall. intros tr Htr. rewrite Forall_forall in Hfuel.
    split; [|now apply Hfuel].
    apply list_elem_of_lookup_1 in Htr as [i Hi].
    destruct (Forall2_lookup_l _ _ _ _ _ Ht Hi) as (v & _ & root & -> & _). eauto. }
  destruct (roots_of_built fuel trees Hbuilt) as (roots' & Hroots' & Htall).
  assert (roots' = roots).
  { rewrite Hroots in Hroots'. apply (inj (map Some)) in Hroots'. congruence. }
  subst roots'.
  destruct (query_spec sst trees roots values globalStart globalEnd fuel g true
              Hroots Hrne (Forall2_length _ _ _ Htargets) (fun _ => Htall Hrne))
    as (s & e & _ & _ & _ & _ & Hkey & Hwp).
  apply wp_total in Hwp as ([keys g'] & Hret & _ & _ & Hfind).
  exists keys, g'. split; [exact Hret|]. apply Hfind.
  assert (Hc : Forall (fun r => covers r key) roots).
  { apply Forall_forall. intros r Hr. apply list_elem_of_lookup_1 in Hr as [i Hi].
    destruct (Forall2_lookup_l _ _ _ _ _ Htargets Hi) as (v & _ & Hv).
    now apply target_covers in Hv. }
  destruct (Hkey key Hgs Hge Hc) as [Hs He].
  repeat split; assumption.
Qed.


Lemma query_keys_match_every_column_witness :
  exists t1 t2 fs1 fs2 keys g',
    column1 = Ret (t1, fs1) /\ column2 = Ret (t2, fs2)
    /\ multiColumnQueryHierarchical 10 two_column_store [t1; t2] ["v1"; "v2"]
         "k1" "k5" untouched
       = Ret (keys, g')
    /\ In "k4" keys
    /\ Forall2 (fun tr v => exists root leaf entries,
                  BloomTree.root tr = Some root
                  /\ descends root leaf /\ filename leaf <> Memory
                  /\ two_column_store !! filename leaf = Some entries
                  /\ In ("k4", v) entries)
               [t1; t2] ["v1"; "v2"].
Proof.
  eexists _, _, _, _, _, _.
  split; [vm_compute; reflexivity|]. split; [vm_compute; reflexivity|].
  split; [vm_compute; reflexivity|]. split; [vm_compute; auto|].
  eapply (query_keys_match_every_column 10 two_column_store _ _ "k1" "k5" untouched).
  - vm_compute. reflexivity.
  - vm_compute. auto.
Defined.
Lemma query_keys_lie_in_range_witness :
  exists t1 t2 fs1 fs2 keys g',
    column1 = Ret (t1, fs1) /\ column2 = Ret (t2, fs2)
    /\ multiColumnQueryHierarchical 10 two_column_store [t1; t2] ["v1"; "v2"]
         "k3" "k5" untouched
       = Ret (keys, g')
    /\ In "k4" keys
    /\ "k3" ⪯ "k4"
    /\ Forall (fun tr => exists root, BloomTree.root tr = Some root
                                      /\ startKey root ⪯ "k4") [t1; t2]
    /\ ("k3" <> ""
        \/ Exists (fun tr => exists root, BloomTree.root tr = Some root
                                          /\ startKey root <> "") [t1; t2] ->
        ("k5" = "" \/ "k4" ⪯ "k5")
        /\ Forall (fun tr => exists root, BloomTree.root tr = Some root
                                          /\ "k4" ⪯ endKey root) [t1; t2]).
Proof.
  eexists _, _, _, _, _, _.
  split; [vm_compute; reflexivity|]. split; [vm_compute; reflexivity|].
  split; [vm_compute; reflexivity|]. split; [vm_compute; auto|].
  eapply (query_keys_lie_in_range 10 two_column_store _ ["v1"; "v2"] "k3" "k5" untouched).
  - exact two_column_store_sorted.
  - vm_compute. reflexivity.
  - vm_compute. auto.
Defined.
Lemma query_finds_every_match_witness :
  exists t1 t2 fs1 fs2,
    column1 = Ret (t1, fs1) /\ column2 = Ret (t2, fs2)
    /\ exists keys g',
         multiColumnQueryHierarchical 10 two_column_store [t1; t2] ["v1"; "v2"]
           "k3" "" untouched
         = Ret (keys, g')
         /\ In "k4" keys.
Proof.
  eexists _, _, _, _.
  split; [vm_compute; reflexivity|]. split; [vm_compute; reflexivity|].
  apply (query_finds_every_match 10 two_column_store [["c1.sst"]; ["c2.sst"; "c2b.sst"]]).
  - exact two_column_store_sorted.
  - discriminate.
  - constructor; [|constructor; [|constructor]].
    + exists 8%nat, no_files. eexists _, 2, 64, 3, 2.
      split; [lia|]. split; [lia|]. split; [lia|]. split; [lia|]. split; [lia|].
      split; vm_compute; reflexivity.
    + exists 8%nat, no_files. eexists _, 2, 64, 3, 2.
      split; [lia|]. split; [lia|]. split; [lia|]. split; [lia|]. split; [lia|].
      split; vm_compute; reflexivity.
  - constructor; [vm_compute; lia|]. constructor; [vm_compute; lia|]. constructor.
  - constructor; [|constructor; [|constructor]].
    + exists "c1.sst", five_entries.
      split; [now left|]. split; [discriminate|].
      split; [vm_compute; reflexivity | vm_compute; auto].
    + exists "c2b.sst", [("k4", "v2"); ("k5", "c")].
      split; [right; now left|]. split; [discriminate|].
      split; [vm_compute; reflexivity | vm_compute; auto].
  - vm_compute. reflexivity.
  - now left.
Defined.

(** ** Inserting into a filter *)

Lemma set_true_bit (h : Z -> Z) (l : list Z) :
  forall (v : list bool) (j : Z),
    bit_at (fold_left (fun bits i => set_at bits (h i) true) l v) j
    = bit_at v j
      || (bool_decide (0 <= j < vsize v) && existsb (fun i => h i =? j) l).
Proof.
  induction l as [|i l IH]; intros v j.
  - simpl. now rewrite andb_false_r, orb_false_r.
  - cbn [fold_left existsb]. rewrite IH, vsize_set_at.
    unfold bit_at at 1. rewrite at_set_at. fold (bit_at v j).
    destruct (decide (h i = j /\ 0 <= h i < vsize v)) as [[<- Hr]|Hn].
    + simpl. rewrite Z.eqb_refl, bool_decide_eq_true_2 by exact Hr.
      simpl. now rewrite orb_true_r.
    + destruct (Z.eqb_spec (h i) j) as [E|E]; [|reflexivity].
      subst j. rewrite bool_decide_eq_false_2 by tauto. reflexivity.
Qed.

Lemma insert_bit (f : BloomFilter.t) (v : string) (j : Z) :
  bit_at (BloomFilter.bitArray (BloomFilter.insert f v)) j
  = bit_at (BloomFilter.bitArray f) j
    || (bool_decide (0 <= j < vsize (BloomFilter.bitArray f))
        && existsb (fun i => BloomFilter.hash f v i =? j)
                   (upto (BloomFilter.numHashFunctions f))).
Proof. unfold BloomFilter.insert. cbn [BloomFilter.bitArray BloomFilter.with_bits]. apply set_true_bit. Qed.

Lemma bits_ext (v w : list bool) :
  vsize v = vsize w -> (forall j, bit_at v j = bit_at w j) -> v = w.
Proof.
  intros Hsz Hbit. apply at_ext. intros j. specialize (Hbit j).
  unfold bit_at, at_ in *. rewrite <- Hsz in *.
  destruct (decide (0 <= j < vsize v)) as [Hj|Hj]; [|reflexivity].
  destruct (v !! Z.to_nat j) as [b|] eqn:Ev.
  - destruct (w !! Z.to_nat j) as [b'|] eqn:Ew; [simpl in Hbit; congruence|].
    apply lookup_ge_None in Ew. unfold vsize in *. lia.
  - apply lookup_ge_None in Ev. unfold vsize in *. lia.
Qed.

Lemma filter_ext (f g : BloomFilter.t) :
  BloomFilter.numHashFunctions f = BloomFilter.numHashFunctions g ->
  BloomFilter.bitArraySize f = BloomFilter.bitArraySize g ->
  vsize (BloomFilter.bitArray f) = vsize (BloomFilter.bitArray g) ->
  (forall j, bit_at (BloomFilter.bitArray f) j = bit_at (BloomFilter.bitArray g) j) ->
  f = g.
Proof.
  destruct f as [bf kf mf], g as [bg kg mg]. simpl. intros -> -> Hsz Hbit.
  f_equal. now apply bits_ext.
Qed.

Lemma insert_vsize (f : BloomFilter.t) (v : string) :
  vsize (BloomFilter.bitArray (BloomFilter.insert f v)) = vsize (BloomFilter.bitArray f).
Proof. unfold BloomFilter.insert. simpl. apply vsize_set_true. Qed.

(** X8. No false negatives of a filter: after any sequence of insertions
    into a filter that satisfies the class invariant and has at least one
    bit, [exists] answers true for every value of the sequence, and for every
    value for which it answered true before. *)
Theorem inserted_values_are_found (f : BloomFilter.t) (vs : list string)
    (w : string) :
  BloomFilter.wf f -> 0 < BloomFilter.bitArraySize f ->
  In w vs \/ BloomFilter.exists_ f w = true ->
  BloomFilter.exists_ (fold_left BloomFilter.insert vs f) w = true.
Proof.
  intros Hwf Hm [Hin|Hbefore].
  - apply inserted_exists. now apply inserted_in_fold.
  - revert f Hwf Hm Hbefore. induction vs as [|v vs IH]; intros f Hwf Hm Hb; [exact Hb|].
    simpl. apply IH; [now apply insert_wf | now rewrite insert_size |].
    now apply exists_insert_other.
Qed.

Lemma inserted_values_are_found_witness :
  BloomFilter.wf (BloomFilter.new 20 3) /\ 0 < 20
  /\ BloomFilter.exists_
       (fold_left BloomFilter.insert ["hello"; "world"] (BloomFilter.new 20 3))
       "world" = true.
Proof.
  split; [apply new_wf; lia|]. split; [lia|].
  apply (inserted_values_are_found (BloomFilter.new 20 3) ["hello"; "world"] "world").
  - apply new_wf; lia.
  - simpl. lia.
  - left. right. now left.
Defined.

(** X9. A filter that has just been constructed with at least one bit
    answers true for a value exactly when it has no hash function: with
    [k <= 0] the loops of [exists] and [insert] do not run, so every value is
    reported as present and an insertion changes nothing; with [k >= 1] no
    value is reported by the empty filter. *)
Theorem empty_filter_answers (m k : Z) (v : string) :
  0 < m ->
  (BloomFilter.exists_ (BloomFilter.new m k) v = true <-> k <= 0)
  /\ (forall f, BloomFilter.numHashFunctions f <= 0 ->
        BloomFilter.exists_ f v = true /\ BloomFilter.insert f v = f).
Proof.
  intros Hm. split.
  - unfold BloomFilter.exists_. cbn [BloomFilter.numHashFunctions BloomFilter.new].
    split.
    + intros H. destruct (Z_le_gt_dec k 0) as [Hk|Hk]; [exact Hk|].
      rewrite forallb_forall in H.
      assert (Hin : In 0 (upto k)) by (apply list_elem_of_In, elem_of_upto; lia).
      specialize (H 0 Hin).
      change (replicate (Z.to_nat m) false)
        with (BloomFilter.bitArray (BloomFilter.new m k)) in H.
      rewrite bit_at_new in H. discriminate.
    + intros Hk. now rewrite upto_nonpos.
  - intros f Hk. unfold BloomFilter.exists_, BloomFilter.insert.
    rewrite upto_nonpos by exact Hk. split; [reflexivity|]. now destruct f.
Qed.

Lemma empty_filter_answers_witness :
  0 < 8
  /\ (BloomFilter.exists_ (BloomFilter.new 8 0) "a" = true <-> 0 <= 0)
  /\ (forall f, BloomFilter.numHashFunctions f <= 0 ->
        BloomFilter.exists_ f "a" = true /\ BloomFilter.insert f "a" = f).
Proof. split; [lia|]. apply (empty_filter_answers 8 0 "a"). lia. Defined.

(** X10. [insert] sets the bits of the value's [k] hash positions and leaves
    every other bit as it was; hence two insertions commute and inserting a
    value again changes nothing. *)
Theorem insert_sets_hashed_bits (f : BloomFilter.t) (a b : string) :
  BloomFilter.wf f -> 0 < BloomFilter.bitArraySize f ->
  (forall j, bit_at (BloomFilter.bitArray (BloomFilter.insert f a)) j = true
             <-> bit_at (BloomFilter.bitArray f) j = true
                 \/ exists i, 0 <= i < BloomFilter.numHashFunctions f
                              /\ BloomFilter.hash f a i = j)
  /\ BloomFilter.insert (BloomFilter.insert f a) b
     = BloomFilter.insert (BloomFilter.insert f b) a
  /\ BloomFilter.insert (BloomFilter.insert f a) a = BloomFilter.insert f a.
Proof.
  intros Hwf Hm. pose proof Hwf as (Hsz & _).
  assert (Hhash : forall v w i, BloomFilter.hash (BloomFilter.insert f v) w i
                                = BloomFilter.hash f w i) by reflexivity.
  split; [|split].
  - intros j. rewrite insert_bit, orb_true_iff, andb_true_iff, bool_decide_eq_true.
    rewrite existsb_exists. split.
    + intros [H|[Hr (i & Hi & E)]]; [now left | right].
      exists i. apply list_elem_of_In, elem_of_upto in Hi. apply Z.eqb_eq in E. auto.
    + intros [H|(i & Hi & E)]; [now left | right]. split.
      * subst j. rewrite Hsz. now apply hash_range.
      * exists i. split; [now apply list_elem_of_In, elem_of_upto | now apply Z.eqb_eq].
  - apply filter_ext; try reflexivity.
    + now rewrite !insert_vsize.
    + intros j. rewrite !insert_bit, !insert_vsize. cbn [BloomFilter.insert
        BloomFilter.numHashFunctions BloomFilter.with_bits].
      unfold BloomFilter.hash.
      cbn [BloomFilter.insert BloomFilter.bitArraySize BloomFilter.with_bits].
      destruct (bit_at (BloomFilter.bitArray f) j),
               (bool_decide (0 <= j < vsize (BloomFilter.bitArray f)));
        simpl; try reflexivity.
      apply orb_comm.
  - apply filter_ext; try reflexivity.
    + now rewrite !insert_vsize.
    + intros j. rewrite !insert_bit, !insert_vsize. cbn [BloomFilter.insert
        BloomFilter.numHashFunctions BloomFilter.with_bits].
      unfold BloomFilter.hash.
      cbn [BloomFilter.insert BloomFilter.bitArraySize BloomFilter.with_bits].
      destruct (bit_at (BloomFilter.bitArray f) j),
               (bool_decide (0 <= j < vsize (BloomFilter.bitArray f)));
        simpl; try reflexivity.
      apply orb_diag.
Qed.

Lemma insert_sets_hashed_bits_witness :
  BloomFilter.insert (BloomFilter.insert (BloomFilter.new 20 3) "hello") "world"
  = BloomFilter.insert (BloomFilter.insert (BloomFilter.new 20 3) "world") "hello".
Proof.
  apply (insert_sets_hashed_bits (BloomFilter.new 20 3) "hello" "world").
  - apply new_wf; lia.
  - simpl. lia.
Defined.

(** ** The shape of a hierarchy *)

Lemma leaves_of_parentOf (tr : BloomTree.t) (g : list Node) :
  g <> [] -> Forall (fits tr) g ->
  leaves_of (parentOf tr g) = concat (map leaves_of g).
Proof.
  intros Hne Hfit. destruct (parentOf_spec tr g Hne Hfit) as (Hch & _).
  destruct (parentOf tr g) as [ch b f s e]. cbn [children] in Hch. subst ch.
  cbn [leaves_of children]. destruct g; [contradiction | reflexivity].
Qed.

Lemma concat_map_concat {A B : Type} (f : A -> list B) (ls : list (list A)) :
  concat (map f (concat ls)) = concat (map (fun l => concat (map f l)) ls).
Proof.
  induction ls as [|l ls IH]; [reflexivity|].
  simpl. now rewrite map_app, concat_app, IH.
Qed.

Lemma runs_members {A : Type} (n : nat) (l g : list A) :
  (1 <= n)%nat -> In g (runs n l) ->
  g <> [] /\ (length g <= n)%nat /\ forall x, In x g -> In x l.
Proof.
  intros Hn Hg. destruct (runs_spec n l Hn) as (_ & Hall & _).
  rewrite Forall_forall in Hall. destruct (Hall g) as [H1 H2]; [now apply list_elem_of_In|].
  split; [exact H1|]. split; [exact H2|].
  intros x Hx. apply (in_runs n l x Hn). eauto.
Qed.

Lemma runs_fit (tr : BloomTree.t) (n : nat) (l g : list Node) :
  (1 <= n)%nat -> Forall (fits tr) l -> In g (runs n l) -> Forall (fits tr) g.
Proof.
  intros Hn Hfit Hg. destruct (runs_members n l g Hn Hg) as (_ & _ & Hsub).
  apply Forall_forall. intros x Hx. rewrite Forall_forall in Hfit.
  apply Hfit, list_elem_of_In, Hsub, list_elem_of_In, Hx.
Qed.

Lemma buildLevel_leaves (tr : BloomTree.t) (fuel : nat) :
  1 <= BloomTree.ratio tr ->
  forall (nodes : list Node) (root : Node),
    vsize nodes + BloomTree.ratio tr < 2 ^ 64 ->
    BloomTree.buildLevel fuel tr nodes = Ret root ->
    leaves_of root = concat (map leaves_of nodes).
Proof.
  intros Hr. induction fuel as [|fuel IH]; intros nodes root Hw Hret; [discriminate|].
  destruct (decide (length nodes = 1%nat)) as [H1|H1].
  - destruct nodes as [|n [|? ?]]; try discriminate.
    rewrite buildLevel_single in Hret. injection Hret as <-. simpl. now rewrite app_nil_r.
  - destruct (buildLevel_level tr Hr fuel nodes Hw H1) as [[Ho _]|[[_ Ht]|[Hfit Hrec]]];
      try congruence.
    rewrite Hrec in Hret.
    rewrite (IH (levelAbove tr nodes) root (levelAbove_no_wrap tr Hr nodes Hw) Hret).
    unfold levelAbove. rewrite map_map.
    destruct (runs_spec (Z.to_nat (BloomTree.ratio tr)) nodes ltac:(lia)) as (Hc & _).
    rewrite <- Hc at 2. rewrite concat_map_concat. f_equal.
    apply map_ext_in. intros g Hg. apply leaves_of_parentOf.
    + now apply (runs_members (Z.to_nat (BloomTree.ratio tr)) nodes g ltac:(lia)).
    + now apply (runs_fit tr (Z.to_nat (BloomTree.ratio tr)) nodes g ltac:(lia)).
Qed.

(** A property of every parent and of every node below the first level
    holds of every node of the tree. *)
Lemma buildLevel_all (P : Node -> Prop) (tr : BloomTree.t) (fuel : nat) :
  1 <= BloomTree.ratio tr ->
  (forall g, g <> [] -> (length g <= Z.to_nat (BloomTree.ratio tr))%nat ->
             Forall (fits tr) g -> P (parentOf tr g)) ->
  forall (nodes : list Node) (root : Node),
    vsize nodes + BloomTree.ratio tr < 2 ^ 64 ->
    (forall n, In n nodes -> forall d, descends n d -> P d) ->
    BloomTree.buildLevel fuel tr nodes = Ret root ->
    forall d, descends root d -> P d.
Proof.
  intros Hr Hparent. induction fuel as [|fuel IH]; intros nodes root Hw Hbelow Hret;
    [discriminate|].
  destruct (decide (length nodes = 1%nat)) as [H1|H1].
  - destruct nodes as [|n [|? ?]]; try discriminate.
    rewrite buildLevel_single in Hret. injection Hret as <-. apply Hbelow. now left.
  - destruct (buildLevel_level tr Hr fuel nodes Hw H1) as [[Ho _]|[[_ Ht]|[Hfit Hrec]]];
      try congruence.
    rewrite Hrec in Hret.
    apply (IH (levelAbove tr nodes) root (levelAbove_no_wrap tr Hr nodes Hw)); [|exact Hret].
    intros p Hp d Hd. unfold levelAbove in Hp. apply in_map_iff in Hp as (g & <- & Hg).
    destruct (runs_members (Z.to_nat (BloomTree.ratio tr)) nodes g ltac:(lia) Hg)
      as (Hne & Hlen & Hsub).
    pose proof (runs_fit tr (Z.to_nat (BloomTree.ratio tr)) nodes g ltac:(lia) Hfit Hg) as Hfg.
    inversion Hd as [|? c ? Hc Hcd]; subst.
    + now apply Hparent.
    + destruct (parentOf_spec tr g Hne Hfg) as (Hch & _). rewrite Hch in Hc.
      apply (Hbelow c (Hsub c Hc) d Hcd).
Qed.

(** What [createPartitionedHierarchy] has done when it returns. *)
Lemma hierarchy_built (fuel : nat) (sst : SstStore) (fs fs' : FileSystem)
    (files : list string) (N m k r : Z) (tree : BloomTree.t) :
  BloomManager.createPartitionedHierarchy fuel sst fs files N m k r = Ret (tree, fs') ->
  let leaves := concat (map (fun f => BloomManager.processSSTFile sst f N m k) files) in
  exists root,
    tree = BloomTree.mk (Some root) r m k leaves
    /\ BloomTree.buildLevel fuel (BloomTree.mk None r m k leaves) leaves = Ret root
    /\ BloomTree.saveLeaves leaves fs = Ret fs'.
Proof.
  intros Hbuild leaves.
  unfold BloomManager.createPartitionedHierarchy, BloomTree.buildTree in Hbuild.
  cbn [BloomTree.new BloomTree.root BloomTree.ratio BloomTree.bloomSize
       BloomTree.numHashFunctions BloomTree.leafNodes] in Hbuild.
  fold leaves in Hbuild.
  destruct (BloomTree.buildLevel fuel (BloomTree.mk None r m k leaves) leaves)
    as [root| | |] eqn:Elevel; try discriminate.
  unfold mbind at 1, outcome_bind at 1 in Hbuild.
  destruct (BloomTree.saveLeaves leaves fs) as [fs1| | |]; try discriminate.
  simpl in Hbuild. injection Hbuild as <- <-. exists root. auto.
Qed.

Lemma processSSTFile_leaf (sst : SstStore) (f : string) (N m k : Z) (l : Node) :
  1 <= N < 2 ^ 64 ->
  In l (BloomManager.processSSTFile sst f N m k) ->
  children l = [] /\ filename l = f.
Proof.
  intros HN Hin. destruct (sst !! f) as [entries|] eqn:Ef.
  2:{ unfold BloomManager.processSSTFile in Hin. rewrite Ef in Hin. destruct Hin. }
  rewrite (processSSTFile_leaves _ _ _ _ _ _ Ef HN) in Hin.
  apply in_map_iff in Hin as (run & <- & _). auto.
Qed.

Lemma descends_leaf_inv (l d : Node) : children l = [] -> descends l d -> d = l.
Proof.
  intros Hnil Hd. inversion Hd as [|? c ? Hc _]; subst; [reflexivity|].
  rewrite Hnil in Hc. destruct Hc.
Qed.

Lemma leaves_of_leaves (ls : list Node) :
  (forall l, In l ls -> children l = []) -> concat (map leaves_of ls) = ls.
Proof.
  induction ls as [|l ls IH]; intros Hnil; [reflexivity|].
  simpl. rewrite IH by (intros l' Hl'; apply Hnil; now right).
  specialize (Hnil l (or_introl eq_refl)).
  destruct l as [ch b f s e]. simpl in *. now subst ch.
Qed.

(** X11. The shape of the hierarchy that [createPartitionedHierarchy]
    returns: its leaves are the partitions of the files, file after file and
    in the order of the file; the leaves below the root, from left to right,
    are exactly these, none lost, repeated or moved; every node with children
    is tagged as an interior node and has between one and [branchingRatio]
    children; and when no file is named as the tag, a node has children
    exactly when it carries the tag. *)
Theorem hierarchy_shape (fuel : nat) (sst : SstStore) (fs fs' : FileSystem)
    (files : list string) (N m k r : Z) (tree : BloomTree.t) :
  1 <= N < 2 ^ 64 -> 1 <= r ->
  vsize (BloomTree.leafNodes tree) + r < 2 ^ 64 ->
  BloomManager.createPartitionedHierarchy fuel sst fs files N m k r = Ret (tree, fs') ->
  exists root,
    BloomTree.root tree = Some root
    /\ BloomTree.leafNodes tree
       = concat (map (fun f => BloomManager.processSSTFile sst f N m k) files)
    /\ leaves_of root = BloomTree.leafNodes tree
    /\ (forall d, descends root d -> children d <> [] ->
          filename d = Memory
          /\ (1 <= length (children d) <= Z.to_nat r)%nat)
    /\ (Forall (fun f => f <> Memory) files ->
        forall d, descends root d -> (children d <> [] <-> filename d = Memory)).
Proof.
  intros HN Hr Hw Hbuild.
  destruct (hierarchy_built _ _ _ _ _ _ _ _ _ _ Hbuild) as (root & -> & Hlevel & _).
  cbn [BloomTree.leafNodes BloomTree.root] in *.
  set (leaves := concat (map (fun f => BloomManager.processSSTFile sst f N m k) files)) in *.
  set (tr := BloomTree.mk None r m k leaves) in *.
  assert (Hleaf : forall l, In l leaves ->
                            children l = [] /\ In (filename l) files).
  { intros l Hl. apply in_concat in Hl as (ls & Hls & Hl).
    apply in_map_iff in Hls as (f & <- & Hf).
    destruct (processSSTFile_leaf sst f N m k l HN Hl) as [H1 H2].
    split; [exact H1 | now rewrite H2]. }
  exists root. split; [reflexivity|]. split; [reflexivity|]. split; [|split].
  - rewrite (buildLevel_leaves tr fuel Hr leaves root Hw Hlevel).
    apply leaves_of_leaves. intros l Hl. now apply Hleaf.
  - apply (buildLevel_all
             (fun d => children d <> [] ->
                       filename d = Memory
                       /\ (1 <= length (children d) <= Z.to_nat r)%nat)
             tr fuel Hr) with (nodes := leaves); auto.
    + intros g Hne Hlen Hfit _. destruct (parentOf_spec tr g Hne Hfit) as (Hch & Hf & _).
      rewrite Hch. split; [exact Hf|]. destruct g; [contradiction|]. simpl in *. lia.
    + intros l Hl d Hd Hch. destruct (Hleaf l Hl) as [Hnil _].
      apply (descends_leaf_inv l d Hnil) in Hd. subst d. contradiction.
  - intros Hnames.
    apply (buildLevel_all
             (fun d => children d <> [] <-> filename d = Memory) tr fuel Hr)
      with (nodes := leaves); auto.
    + intros g Hne Hlen Hfit. destruct (parentOf_spec tr g Hne Hfit) as (Hch & Hf & _).
      rewrite Hch. tauto.
    + intros l Hl d Hd. destruct (Hleaf l Hl) as [Hnil Hfile].
      apply (descends_leaf_inv l d Hnil) in Hd. subst d. rewrite Hnil.
      rewrite Forall_forall in Hnames.
      pose proof (Hnames _ (proj2 (list_elem_of_In _ _) Hfile)) as Hne. simpl in Hne.
      split; [contradiction | intros E; contradiction].
Qed.

Lemma hierarchy_shape_witness :
  exists tree fs',
    BloomManager.createPartitionedHierarchy 8 two_column_store no_files
      ["c2.sst"; "c2b.sst"] 2 64 3 2 = Ret (tree, fs')
    /\ exists root,
         BloomTree.root tree = Some root
         /\ BloomTree.leafNodes tree
            = concat (map (fun f => BloomManager.processSSTFile two_column_store f 2 64 3)
                          ["c2.sst"; "c2b.sst"])
         /\ leaves_of root = BloomTree.leafNodes tree
         /\ (forall d, descends root d -> children d <> [] ->
               filename d = Memory
               /\ (1 <= length (children d) <= Z.to_nat 2)%nat)
         /\ (Forall (fun f => f <> Memory) ["c2.sst"; "c2b.sst"] ->
             forall d, descends root d -> (children d <> [] <-> filename d = Memory)).
Proof.
  eexists _, _. split; [vm_compute; reflexivity|].
  eapply (hierarchy_shape 8 two_column_store no_files).
  - lia.
  - lia.
  - vm_compute. reflexivity.
  - vm_compute. reflexivity.
Defined.

(** ** One column *)

(** The leaf of the run that holds an entry: it carries the file's path,
    covers the key and has the value in its filter. *)
Lemma leaf_of_entry (sst : SstStore) (sstFile : string)
    (entries : list (string * string)) (N m k : Z) (key v : string) :
  sst !! sstFile = Some entries -> sortedFile entries ->
  1 <= N < 2 ^ 64 -> 0 < m -> m + 7 < 2 ^ 64 -> - 2 ^ 31 <= k < 2 ^ 31 ->
  In (key, v) entries ->
  exists l, In l (BloomManager.processSSTFile sst sstFile N m k)
            /\ filename l = sstFile /\ covers l key
            /\ BloomFilter.exists_ (bloom l) v = true.
Proof.
  intros Hfile Hsorted HN Hm Hm' Hk Hin.
  rewrite (processSSTFile_leaves _ _ _ _ _ _ Hfile HN).
  apply (in_runs (Z.to_nat N)) in Hin as (r & Hr & Hin); [|lia].
  exists (leafOf sstFile m k r). split; [now apply in_map|]. split; [reflexivity|].
  split.
  - apply sorted_bounds with v; [|exact Hin].
    now apply (runs_upto_sorted (length entries) (Z.to_nat N) entries).
  - apply inserted_exists. cbn [leafOf bloom].
    apply inserted_in_fold; [apply new_wf; lia | exact Hm |].
    change v with (snd (key, v)). now apply in_map.
Qed.

Lemma covers_overlapping (n : Node) (key qStart qEnd : string) :
  covers n key -> qStart = "" \/ qStart ⪯ key -> qEnd = "" \/ key ⪯ qEnd ->
  overlapping n qStart qEnd.
Proof.
  intros [H1 H2] Hs He. split.
  - destruct He as [He|He]; [now left | right]. now apply sle_trans with key.
  - destruct Hs as [Hs|Hs]; [now left | right]. now apply sle_trans with key.
Qed.

Lemma Built_reaches (tr : BloomTree.t) (leaves : list Node) (n : Node)
    (key v qStart qEnd : string) :
  Forall (leafFor tr) leaves ->
  qStart = "" \/ qStart ⪯ key -> qEnd = "" \/ key ⪯ qEnd ->
  Built tr leaves n ->
  forall l, In l (leaves_of n) -> filename l <> Memory -> covers l key ->
            BloomFilter.exists_ (bloom l) v = true ->
            reaches v qStart qEnd n (filename l) /\ covers n key.
Proof.
  intros Hok Hs He Hb. induction Hb as [l' Hl' | g Hne Hg IH Hfit];
    intros l Hl Hname Hc Hbl.
  - destruct (leaf_ok tr leaves Hok l' Hl') as (Hnil & _).
    assert (E : leaves_of l' = [l']) by (destruct l'; simpl in *; now rewrite Hnil).
    rewrite E in Hl. destruct Hl as [<-|[]]. split; [|exact Hc].
    apply reaches_leaf; [|exact Hname].
    split; [now apply covers_overlapping with key | exact Hbl].
  - destruct (parentOf_spec tr g Hne Hfit) as (Hch & Hf & (Hstart & Hend & _) & _).
    assert (Hb : Built tr leaves (parentOf tr g)) by (now apply built_parent).
    pose proof Hl as Hl0. rewrite (leaves_of_parentOf tr g Hne Hfit) in Hl.
    apply in_concat in Hl as (ls & Hls & Hl).
    apply in_map_iff in Hls as (c & <- & Hcg).
    destruct (IH c Hcg l Hl Hname Hc Hbl) as [Hreach [Hc1 Hc2]].
    assert (Hcov : covers (parentOf tr g) key).
    { split.
      - apply sle_trans with (startKey c); [|exact Hc1].
        destruct Hstart as [_ H]. apply H. now apply in_map.
      - apply sle_trans with (endKey c); [exact Hc2|].
        destruct Hend as [_ H]. apply H. now apply in_map. }
    split; [|exact Hcov].
    apply reaches_child with c.
    + split; [now apply covers_overlapping with key|].
      now apply (Built_exists tr leaves Hok (parentOf tr g) l v).
    + exact Hf.
    + rewrite Hch. now apply list_elem_of_In.
    + exact Hreach.
Qed.

(** X12. No false negatives in one column. Let the files be in key order and
    [tree] be the hierarchy that [createPartitionedHierarchy] builds over the
    files of a column. For every entry of a file of the column whose value is
    the queried one and whose key lies in the queried range (an empty bound
    does not bound), [query] returns the path of that file, unless the path
    is the tag of the interior nodes. *)
Theorem query_finds_file (sst : SstStore) (files : list string)
    (tree : BloomTree.t) (file : string) (entries : list (string * string))
    (key v qStart qEnd : string) (g : Globals) :
  sortedStore sst -> indexes sst files tree ->
  In file files -> file <> Memory -> sst !! file = Some entries ->
  In (key, v) entries ->
  qStart = "" \/ qStart ⪯ key -> qEnd = "" \/ key ⪯ qEnd ->
  In file (fst (BloomTree.query tree v qStart qEnd g)).
Proof.
  intros Hsorted (fuel & fs & fs' & N & m & k & r & HN & Hm & Hm' & Hk & Hr & Hw & Hbuild)
         Hfile Hname Hentries Hin Hs He.
  destruct (hierarchy_built _ _ _ _ _ _ _ _ _ _ Hbuild) as (root & -> & Hlevel & _).
  cbn [BloomTree.leafNodes] in Hw.
  set (leaves := concat (map (fun f => BloomManager.processSSTFile sst f N m k) files)) in *.
  set (tr := BloomTree.mk None r m k leaves) in *.
  assert (Hok : Forall (leafFor tr) leaves).
  { apply Forall_forall. intros l Hl. apply list_elem_of_In, in_concat in Hl as (ls & Hls & Hl).
    apply in_map_iff in Hls as (f & <- & _).
    apply (processSSTFile_leafFor sst f N m k tr l); auto; lia. }
  destruct (leaf_of_entry sst file entries N m k key v Hentries (Hsorted _ _ Hentries)
              HN Hm Hm' Hk Hin) as (l & Hl & Hfl & Hcov & Hbl).
  assert (Hleaf : In l leaves).
  { apply in_concat. exists (BloomManager.processSSTFile sst file N m k).
    split; [|exact Hl].
    apply (in_map (fun f => BloomManager.processSSTFile sst f N m k)), Hfile. }
  assert (Hb : Built tr leaves root).
  { apply (buildLevel_Built tr Hr leaves fuel leaves root); auto.
    intros n Hn. now apply built_leaf. }
  assert (Hd : descends root l).
  { apply (buildLevel_descends tr Hr fuel leaves root); auto. }
  assert (Hlo : In l (leaves_of root)).
  { apply descends_leaf; [exact Hd|].
    rewrite Forall_forall in Hok. apply (Hok l). now apply list_elem_of_In. }
  destruct (Built_reaches tr leaves root key v qStart qEnd Hok Hs He Hb l Hlo)
    as [Hreach _]; auto; [now rewrite Hfl|].
  unfold BloomTree.query. cbn [BloomTree.root].
  rewrite search_visit. simpl. apply list_elem_of_In, visit_reaches.
  now rewrite <- Hfl.
Qed.

Lemma query_finds_file_witness :
  exists t2 fs2,
    column2 = Ret (t2, fs2)
    /\ In "c2b.sst" (fst (BloomTree.query t2 "v2" "k3" "" untouched)).
Proof.
  eexists _, _. split; [vm_compute; reflexivity|].
  apply (query_finds_file two_column_store ["c2.sst"; "c2b.sst"] _ "c2b.sst"
           [("k4", "v2"); ("k5", "c")] "k4" "v2" "k3" "" untouched).
  - exact two_column_store_sorted.
  - exists 8%nat, no_files. eexists _, 2, 64, 3, 2.
    split; [lia|]. split; [lia|]. split; [lia|]. split; [lia|]. split; [lia|].
    split; vm_compute; reflexivity.
  - right. now left.
  - discriminate.
  - vm_compute. reflexivity.
  - now left.
  - right. vm_compute. reflexivity.
  - now left.
Defined.

(** ** Nodes and paths *)

Lemma tagged_inv (n : Node) :
  tagged n = true ->
  (children n = [] <-> isMemory n = false)
  /\ forall c, In c (children n) -> tagged c = true.
Proof.
  unfold tagged. destruct n as [ch b f s e]. cbn [subnodes children].
  cbn [forallb]. rewrite andb_true_iff. intros [Hown Hrest]. split.
  - cbn [children] in Hown. apply Bool.eqb_prop in Hown.
    destruct ch; split; intros H; try discriminate; try reflexivity.
    + symmetry in Hown. now apply negb_true_iff in Hown.
    + rewrite H in Hown. discriminate.
  - intros c Hc. rewrite forallb_forall in Hrest. apply forallb_forall.
    intros d Hd. apply Hrest. apply in_concat. exists (subnodes c).
    split; [now apply in_map | exact Hd].
Qed.

Lemma searchNodes_children (value qStart qEnd : string) (ch : list Node) :
  Forall (fun c => tagged c = true ->
            forall (results : list Node) (g : Globals),
              BloomTree.search c value qStart qEnd (map filename results, g)
              = (map filename
                   (fst (BloomTree.searchNodes c value qStart qEnd (results, g))),
                 snd (BloomTree.searchNodes c value qStart qEnd (results, g)))) ch ->
  (forall c, In c ch -> tagged c = true) ->
  forall (results : list Node) (g : Globals),
    fold_left (fun st child => BloomTree.search child value qStart qEnd st) ch
              (map filename results, g)
    = (map filename
         (fst (fold_left (fun st child => BloomTree.searchNodes child value qStart qEnd st)
                         ch (results, g))),
       snd (fold_left (fun st child => BloomTree.searchNodes child value qStart qEnd st)
                      ch (results, g))).
Proof.
  induction 1 as [|c ch Hc _ IH]; intros Hch results g; [reflexivity|].
  cbn [fold_left].
  rewrite (Hc (Hch c (or_introl eq_refl)) results g).
  destruct (BloomTree.searchNodes c value qStart qEnd (results, g)) as [r1 g1].
  cbn [fst snd]. apply IH. intros c' Hc'. apply Hch. now right.
Qed.

Lemma searchNodes_search (value qStart qEnd : string) (node : Node) :
  tagged node = true ->
  forall (results : list Node) (g : Globals),
    BloomTree.search node value qStart qEnd (map filename results, g)
    = (map filename (fst (BloomTree.searchNodes node value qStart qEnd (results, g))),
       snd (BloomTree.searchNodes node value qStart qEnd (results, g))).
Proof.
  induction node as [ch b f s e IH] using Node_ind. intros Htag results g.
  destruct (tagged_inv _ Htag) as [Hown Hch]. cbn [children] in Hown, Hch.
  cbn [BloomTree.search BloomTree.searchNodes fst snd].
  destruct (BloomTree.overlaps _ qStart qEnd); [|reflexivity].
  cbn [bloom]. destruct (BloomFilter.exists_ b value); [|reflexivity].
  cbn [children].
  destruct ch as [|c0 ch'].
  - rewrite (proj1 Hown eq_refl). cbn [negb fst snd]. now rewrite map_app.
  - assert (Hm : isMemory (mkNode (c0 :: ch') b f s e) = true).
    { destruct (isMemory (mkNode (c0 :: ch') b f s e)) eqn:E; [reflexivity|].
      destruct Hown as [_ H]. specialize (H eq_refl). discriminate. }
    rewrite Hm. cbn [negb fst snd].
    apply (searchNodes_children value qStart qEnd (c0 :: ch') IH Hch).
Qed.

(** X13. On a tree in which exactly the nodes with children carry the tag of
    the interior nodes, [queryNodes] and [query] agree: the paths [query]
    returns are the file names of the nodes [queryNodes] returns, in the same
    order, and both leave the counters in the same state. *)
Theorem queryNodes_agrees_with_query (tr : BloomTree.t)
    (value qStart qEnd : string) (g : Globals) :
  (forall root, BloomTree.root tr = Some root -> tagged root = true) ->
  BloomTree.query tr value qStart qEnd g
  = (map filename (fst (BloomTree.queryNodes tr value qStart qEnd g)),
     snd (BloomTree.queryNodes tr value qStart qEnd g)).
Proof.
  intros Htag. unfold BloomTree.query, BloomTree.queryNodes.
  destruct (BloomTree.root tr) as [root|]; [|reflexivity].
  apply (searchNodes_search value qStart qEnd root (Htag root eq_refl) [] g).
Qed.

Lemma queryNodes_agrees_with_query_witness :
  exists t2 fs2,
    column2 = Ret (t2, fs2)
    /\ BloomTree.query t2 "v2" "k3" "" untouched
       = (map filename (fst (BloomTree.queryNodes t2 "v2" "k3" "" untouched)),
          snd (BloomTree.queryNodes t2 "v2" "k3" "" untouched)).
Proof.
  eexists _, _. split; [vm_compute; reflexivity|].
  apply queryNodes_agrees_with_query.
  intros root [= <-]. vm_compute. reflexivity.
Defined.

(** A leaf that carries the tag of the interior nodes: [queryNodes] returns
    it, [query] returns nothing. *)
Lemma tagged_leaf_is_told_apart :
  let leaf := mkNode [] (BloomFilter.new 8 0) Memory "a" "b" in
  let tr := BloomTree.mk (Some leaf) 2 8 0 [leaf] in
  fst (BloomTree.query tr "v" "" "" untouched) = []
  /\ fst (BloomTree.queryNodes tr "v" "" "" untouched) = [leaf].
Proof. split; reflexivity. Qed.

(** ** The intersection of ranges *)

Lemma computeIntersection_fold (rest : list Node) :
  forall (s e : string),
    let out := fold_left (fun out n => (smax (fst out) (startKey n),
                                        smin (snd out) (endKey n)))
                         rest (s, e) in
    (fst out = s \/ In (fst out) (map startKey rest))
    /\ (snd out = e \/ In (snd out) (map endKey rest))
    /\ forall key, (fst out ⪯ key /\ key ⪯ snd out)
                   <-> (s ⪯ key /\ key ⪯ e /\ forall n, In n rest -> covers n key).
Proof.
  induction rest as [|n rest IH]; intros s e.
  - simpl. split; [now left|]. split; [now left|]. intros key. intuition.
  - cbn [fold_left fst snd].
    destruct (IH (smax s (startKey n)) (smin e (endKey n))) as (H1 & H2 & H3).
    cbv zeta. split; [|split].
    + destruct H1 as [H1|H1]; [|right; now right].
      rewrite H1. destruct (smax_cases s (startKey n)) as [[-> _]|[-> _]];
        [right; now left | now left].
    + destruct H2 as [H2|H2]; [|right; now right].
      rewrite H2. destruct (smin_cases e (endKey n)) as [[-> _]|[-> _]];
        [right; now left | now left].
    + intros key. rewrite H3. unfold covers. split.
      * intros (Hs & He & Hall). repeat split.
        -- apply sle_trans with (smax s (startKey n)); auto with sle.
        -- apply sle_trans with (smin e (endKey n)); auto with sle.
        -- destruct H as [<-|H]; [|now apply Hall].
           apply sle_trans with (smax s (startKey n)); auto with sle.
        -- destruct H as [<-|H]; [|now apply Hall].
           apply sle_trans with (smin e (endKey n)); auto with sle.
      * intros (Hs & He & Hall). destruct (Hall n (or_introl eq_refl)) as [Hn1 Hn2].
        split; [now apply smax_lub|]. split; [now apply smin_glb|].
        intros n' Hn'. apply Hall. now right.
Qed.

(** X14. [computeIntersection] leaves its outputs as they were when there is
    no node. Otherwise it sets them to a start key and an end key of the
    nodes such that a key lies between the two exactly when it lies in the
    range of every node: the intersection of the ranges. *)
Theorem computeIntersection_spec (nodes : list Node) (outStart outEnd : string) :
  (nodes = [] -> computeIntersection nodes outStart outEnd = (outStart, outEnd))
  /\ (nodes <> [] ->
      In (fst (computeIntersection nodes outStart outEnd)) (map startKey nodes)
      /\ In (snd (computeIntersection nodes outStart outEnd)) (map endKey nodes)
      /\ forall key,
           (fst (computeIntersection nodes outStart outEnd) ⪯ key
            /\ key ⪯ snd (computeIntersection nodes outStart outEnd))
           <-> forall n, In n nodes -> covers n key).
Proof.
  split; [now intros ->|]. intros Hne.
  destruct nodes as [|n0 rest]; [contradiction|]. cbn [computeIntersection].
  destruct (computeIntersection_fold rest (startKey n0) (endKey n0)) as (H1 & H2 & H3).
  cbv zeta in H1, H2, H3. split; [|split].
  - simpl. destruct H1 as [->|H1]; auto.
  - simpl. destruct H2 as [->|H2]; auto.
  - intros key. rewrite H3. unfold covers. split.
    + intros (Hs & He & Hall) n [<-|Hn]; auto.
    + intros Hall. destruct (Hall n0 (or_introl eq_refl)) as [Hs He].
      split; [exact Hs|]. split; [exact He|]. intros n Hn. apply Hall. now right.
Qed.

(** ** Scans of the database *)

Lemma scanLoop_unbounded (it : list (string * string)) (value : string) :
  forall acc key,
    In key (DBManager.scanLoop it value "" acc)
    <-> In key acc \/ In (key, value) it.
Proof.
  induction it as [|[k v] it IH]; intros acc key.
  - simpl. tauto.
  - cbn [DBManager.scanLoop fst snd empty negb andb].
    rewrite IH, In_push. simpl. tauto.
Qed.

(** X16. [ScanFileForValue] throws when the file does not open, where
    [scanFileForKeysWithValue] returns no key. On a file that opens it
    answers true exactly when some entry of the file has the value, which is
    exactly when the scan without bounds returns a key. *)
Theorem ScanFileForValue_spec (sst : SstStore) (filename value : string) :
  (sst !! filename = None ->
   (exists msg, DBManager.ScanFileForValue sst filename value = Throw msg)
   /\ DBManager.scanFileForKeysWithValue sst filename value "" "" = [])
  /\ (forall entries, sst !! filename = Some entries ->
        exists b,
          DBManager.ScanFileForValue sst filename value = Ret b
          /\ (b = true <-> exists key, In (key, value) entries)
          /\ (b = true <->
              DBManager.scanFileForKeysWithValue sst filename value "" "" <> [])).
Proof.
  unfold DBManager.ScanFileForValue, DBManager.scanFileForKeysWithValue. split.
  - intros ->. split; [eauto | reflexivity].
  - intros entries ->. eexists. split; [reflexivity|].
    assert (H : existsb (fun kv => String.eqb (snd kv) value) entries = true
                <-> exists key, In (key, value) entries).
    { rewrite existsb_exists. split.
      - intros ([k v] & Hin & E). apply String.eqb_eq in E. simpl in E. subst v. eauto.
      - intros (key & Hin). exists (key, value). split; [exact Hin|].
        apply String.eqb_refl. }
    split; [exact H|]. rewrite H. cbn [empty negb]. split.
    + intros (key & Hin) E.
      assert (Hk : In key (DBManager.scanLoop entries value "" []))
        by (apply scanLoop_unbounded; now right).
      rewrite E in Hk. destruct Hk.
    + intros Hne. destruct (DBManager.scanLoop entries value "" []) as [|key l] eqn:E;
        [contradiction|].
      exists key. assert (Hk : In key (DBManager.scanLoop entries value "" []))
        by (rewrite E; now left).
      apply scanLoop_unbounded in Hk as [[]|Hk]. exact Hk.
Qed.

Lemma allMatch_spec (db : DBManager.Database) (values : list string) (key : string)
    (columns : list string) :
  forall i, (i + length columns <= length values)%nat ->
  exists b,
    DBManager.allMatch db values key columns i = Ret b
    /\ (b = true <->
        forall j column v, columns !! j = Some column ->
                           values !! (i + j)%nat = Some v ->
                           holdsValue db key column v).
Proof.
  induction columns as [|column columns IH]; intros i Hlen.
  - exists true. split; [reflexivity|]. split; [intros _ j c v H; now rewrite lookup_nil in H | auto].
  - simpl in Hlen. cbn [DBManager.allMatch].
    destruct (values !! i) as [v|] eqn:Ev.
    2:{ apply lookup_ge_None in Ev. lia. }
    assert (Hno : forall P : Prop,
              ~ holdsValue db key column v ->
              (false = true <->
               forall j column' v', (column :: columns) !! j = Some column' ->
                                    values !! (i + j)%nat = Some v' ->
                                    holdsValue db key column' v')).
    { intros _ Hn. split; [discriminate|]. intros H. exfalso. apply Hn.
      apply (H 0%nat); [reflexivity | now rewrite Nat.add_0_r]. }
    destruct (db !! column) as [cf|] eqn:Ecf.
    2:{ exists false. split; [reflexivity|]. apply (Hno True).
        intros (cf & Hcf & _). congruence. }
    destruct (DBManager.Get cf key) as [actual|] eqn:Eget.
    2:{ exists false. split; [reflexivity|]. apply (Hno True).
        intros (cf' & Hcf & Hg). congruence. }
    destruct (String.eqb_spec actual v) as [->|Hne].
    2:{ exists false. split; [reflexivity|]. apply (Hno True).
        intros (cf' & Hcf & Hg). congruence. }
    destruct (IH (S i)) as (b & -> & Hb); [lia|].
    exists b. split; [reflexivity|]. rewrite Hb. split.
    + intros H [|j] c v' Hc Hv.
      * simpl in Hc. injection Hc as <-. rewrite Nat.add_0_r in Hv.
        assert (v' = v) by congruence. subst v'. exists cf. auto.
      * simpl in Hc. apply (H j); [exact Hc|].
        now replace (S i + j)%nat with (i + S j)%nat by lia.
    + intros H j c v' Hc Hv. apply (H (S j)); [exact Hc|].
      now replace (i + S j)%nat with (S i + j)%nat by lia.
Qed.

Lemma scanBase_spec (db : DBManager.Database) (columns values : list string) :
  (length columns <= length values)%nat ->
  forall (it : list (string * string)) (acc : list string),
  exists keys,
    DBManager.scanBase db columns values it acc = Ret (acc ++ keys)
    /\ sublist keys (map fst it)
    /\ forall key, In key keys
                   <-> In key (map fst it)
                       /\ forall j column v, columns !! j = Some column ->
                                             values !! j = Some v ->
                                             holdsValue db key column v.
Proof.
  intros Hlen. induction it as [|[k v] it IH]; intros acc.
  - exists []. rewrite app_nil_r. split; [reflexivity|]. split; [constructor|].
    intros key. simpl. tauto.
  - cbn [DBManager.scanBase fst].
    destruct (allMatch_spec db values k columns 0 ltac:(simpl; lia)) as (b & -> & Hb).
    unfold mbind, outcome_bind. simpl in Hb.
    destruct b.
    + destruct (IH (acc ++ [k])) as (keys & -> & Hsub & Hin).
      exists (k :: keys). rewrite <- app_assoc. split; [reflexivity|].
      split; [simpl; now constructor|].
      intros key. simpl. rewrite Hin. split.
      * intros [<-|[H1 H2]]; [split; [now left | now apply Hb] | split; [now right | exact H2]].
      * intros [[<-|H1] H2]; [now left | right; auto].
    + destruct (IH acc) as (keys & -> & Hsub & Hin).
      exists keys. split; [reflexivity|]. split; [simpl; now constructor|].
      intros key. simpl. rewrite Hin. split.
      * intros [H1 H2]. auto.
      * intros [[<-|H1] H2]; [|auto].
        assert (false = true) by (now apply Hb). discriminate.
Qed.

(** The outcomes of [scanForRecordsInColumns]. *)
Lemma scanRecords_parts (db : DBManager.Database)
    (columns values : list string) :
  (columns = [] \/ length columns <> length values ->
   DBManager.scanForRecordsInColumns db columns values
   = Throw DBManager.shape_error)
  /\ (forall column0 rest,
        columns = column0 :: rest -> length columns = length values ->
        (db !! column0 = None ->
         DBManager.scanForRecordsInColumns db columns values
         = Throw (String.append DBManager.no_base_column column0))
        /\ (forall base, db !! column0 = Some base ->
              exists keys,
                DBManager.scanForRecordsInColumns db columns values = Ret keys
                /\ sublist keys (map fst base)
                /\ (forall key,
                      In key keys
                      <-> In key (map fst base)
                          /\ forall j column v,
                               columns !! j = Some column ->
                               values !! j = Some v ->
                               holdsValue db key column v)
                /\ (Exists (fun column => db !! column = None) rest ->
                    keys = []))).
Proof.
  unfold DBManager.scanForRecordsInColumns, vsize. split.
  - intros [->|Hne]; [now destruct (_ =? _)%Z|].
    destruct (Z.eqb_spec (Z.of_nat (length columns)) (Z.of_nat (length values)));
      [lia | reflexivity].
  - intros column0 rest -> Hlen.
    destruct (Z.eqb_spec (Z.of_nat (length (column0 :: rest))) (Z.of_nat (length values)));
      [|lia].
    destruct (Z.eqb_spec (Z.of_nat (length (column0 :: rest))) 0);
      [simpl in *; lia|]. cbn [negb orb]. split.
    + now intros ->.
    + intros base ->.
      destruct (scanBase_spec db (column0 :: rest) values ltac:(lia) base [])
        as (keys & -> & Hsub & Hin).
      exists keys. split; [reflexivity|]. split; [exact Hsub|]. split; [exact Hin|].
      intros Hmissing. destruct keys as [|key keys]; [reflexivity|]. exfalso.
      destruct (proj1 (Hin key) (or_introl eq_refl)) as [_ Hall].
      apply Exists_exists in Hmissing as (column & Hc & Hnone).
      apply list_elem_of_lookup_1 in Hc as [j Hj].
      assert (Hv : is_Some (values !! S j)).
      { apply lookup_lt_is_Some. apply lookup_lt_Some in Hj. simpl in Hlen. lia. }
      destruct Hv as [v Hv].
      destruct (Hall (S j) column v Hj Hv) as (cf & Hcf & _). congruence.
Qed.

(** X17. [scanForRecordsInColumns] throws when there is no column or the
    numbers of columns and of values differ, and when the first column has
    no handle. Otherwise it returns, in the order of the first column, the
    keys of that column for which every column holds its value; a later
    column without a handle makes the result empty, it is no error. *)
Theorem scanForRecordsInColumns_spec (db : DBManager.Database)
    (columns values : list string) :
  (columns = [] \/ length columns <> length values ->
   DBManager.scanForRecordsInColumns db columns values
   = Throw DBManager.shape_error)
  /\ (forall column0 rest,
        columns = column0 :: rest -> length columns = length values ->
        (db !! column0 = None ->
         DBManager.scanForRecordsInColumns db columns values
         = Throw (String.append DBManager.no_base_column column0))
        /\ (forall base, db !! column0 = Some base ->
              exists keys,
                DBManager.scanForRecordsInColumns db columns values = Ret keys
                /\ sublist keys (map fst base)
                /\ (forall key,
                      In key keys
                      <-> In key (map fst base)
                          /\ forall j column v,
                               columns !! j = Some column ->
                               values !! j = Some v ->
                               holdsValue db key column v)
                /\ (Exists (fun column => db !! column = None) rest ->
                    keys = []))).
Proof. apply scanRecords_parts. Qed.

Lemma checkKeys_results (db : DBManager.Database) (columns values : list string) :
  length columns = length values -> columns <> [] ->
  forall allKeys,
  exists results,
    DBManager.checkKeys db columns values allKeys = Ret results
    /\ forall key, key <> "" ->
         (In key results
          <-> In key allKeys
              /\ forall j column v, columns !! S j = Some column ->
                                    values !! S j = Some v ->
                                    holdsValue db key column v).
Proof.
  intros Hlen Hne. induction allKeys as [|k allKeys (results & IH & Hin)].
  - exists []. split; [reflexivity|]. intros key _. simpl. tauto.
  - cbn [DBManager.checkKeys].
    destruct (allMatch_spec db values k (drop 1 columns) 1) as (b & -> & Hb).
    { rewrite length_drop. destruct columns; [contradiction | simpl in *; lia]. }
    unfold mbind, outcome_bind. rewrite IH.
    eexists. split; [reflexivity|].
    assert (Hb' : b = true <->
                  forall j column v, columns !! S j = Some column ->
                                     values !! S j = Some v ->
                                     holdsValue db k column v).
    { rewrite Hb. split; intros H j c v Hc Hv.
      - apply (H j); [now rewrite lookup_drop | exact Hv].
      - apply (H j); [now rewrite lookup_drop in Hc | exact Hv]. }
    intros key Hkey. simpl. rewrite (Hin key Hkey). split.
    + intros [E|[H1 H2]]; [|auto]. destruct b; [|congruence]. subst k.
      split; [now left | now apply Hb'].
    + intros [[<-|H1] H2]; [|auto]. left.
      assert (b = true) by (now apply Hb'). now subst b.
Qed.

Lemma checkKeys_spec (db : DBManager.Database) (columns values : list string) :
  length columns = length values -> columns <> [] ->
  forall allKeys,
  exists results,
    DBManager.checkKeys db columns values allKeys = Ret results
    /\ forall key,
         In key (filter (fun res => negb (empty res)) results)
         <-> key <> "" /\ In key allKeys
             /\ forall j column v, columns !! S j = Some column ->
                                   values !! S j = Some v ->
                                   holdsValue db key column v.
Proof.
  intros Hlen Hne allKeys.
  destruct (checkKeys_results db columns values Hlen Hne allKeys) as (results & -> & Hin).
  exists results. split; [reflexivity|]. intros key.
  rewrite <- list_elem_of_In, list_elem_of_filter, list_elem_of_In.
  split.
  - intros [Hk Hr]. apply Is_true_true, negb_true_iff, empty_false in Hk.
    split; [exact Hk|]. now apply Hin.
  - intros (Hk & H). split; [|now apply Hin].
    apply Is_true_true, negb_true_iff, empty_false. exact Hk.
Qed.

(** The outcomes of [findUsingSingleHierarchy]. *)
Lemma findUsing_parts (sst : SstStore) (db : DBManager.Database)
    (hierarchy : BloomTree.t) (columns values : list string) (g : Globals) :
  (columns = [] \/ length columns <> length values ->
   DBManager.findUsingSingleHierarchy sst db hierarchy columns values g
   = Throw DBManager.shape_error)
  /\ (forall value0 rest,
        values = value0 :: rest -> length columns = length values ->
        exists keys g',
          DBManager.findUsingSingleHierarchy sst db hierarchy columns values g
          = Ret (keys, g')
          /\ (fst (BloomTree.queryNodes hierarchy value0 "" "" g) = [] ->
              keys = [] /\ g' = snd (BloomTree.queryNodes hierarchy value0 "" "" g))
          /\ (fst (BloomTree.queryNodes hierarchy value0 "" "" g) <> [] ->
              g' = mkGlobals
                     (gBloomCheckCount (snd (BloomTree.queryNodes hierarchy value0 "" "" g)))
                     (gLeafBloomCheckCount (snd (BloomTree.queryNodes hierarchy value0 "" "" g)))
                     (wrap64 (vsize (fst (BloomTree.queryNodes hierarchy value0 "" "" g))))
                     (globalfinalMatches (snd (BloomTree.queryNodes hierarchy value0 "" "" g))))
          /\ forall key,
               In key keys
               <-> key <> ""
                   /\ (exists n,
                         In n (fst (BloomTree.queryNodes hierarchy value0 "" "" g))
                         /\ In key (DBManager.scanFileForKeysWithValue sst (filename n)
                                      value0 (startKey n) (endKey n)))
                   /\ forall j column v, columns !! S j = Some column ->
                                         values !! S j = Some v ->
                                         holdsValue db key column v).
Proof.
  unfold DBManager.findUsingSingleHierarchy, vsize. split.
  - intros [->|Hne]; [now destruct (_ =? _)%Z|].
    destruct (Z.eqb_spec (Z.of_nat (length columns)) (Z.of_nat (length values)));
      [lia | reflexivity].
  - intros value0 rest -> Hlen.
    destruct (Z.eqb_spec (Z.of_nat (length columns)) (Z.of_nat (length (value0 :: rest))));
      [|lia].
    destruct (Z.eqb_spec (Z.of_nat (length columns)) 0); [simpl in *; lia|].
    cbn [negb orb].
    destruct (BloomTree.queryNodes hierarchy value0 "" "" g) as [candidates g1].
    cbn [fst snd].
    destruct candidates as [|c0 cs].
    + exists [], g1. split; [reflexivity|]. split; [auto|]. split; [contradiction|].
      intros key. split; [intros [] | intros (_ & (nd & [] & _) & _)].
    + assert (Hcne : columns <> []) by (intros ->; simpl in *; lia).
      destruct (checkKeys_spec db columns (value0 :: rest) Hlen Hcne
                  (concat (map (fun n => DBManager.scanFileForKeysWithValue sst
                                           (filename n) value0 (startKey n) (endKey n))
                               (c0 :: cs)))) as (results & -> & Hin).
      unfold mbind, outcome_bind. eexists _, _. split; [reflexivity|].
      split; [discriminate|]. split; [intros _; reflexivity|].
      intros key. rewrite Hin. rewrite in_concat. split.
      * intros (H1 & (l & Hl & Hk) & H3). apply in_map_iff in Hl as (nd & <- & Hn).
        split; [exact H1|]. split; [eauto | exact H3].
      * intros (H1 & (nd & Hn & Hk) & H3). split; [exact H1|]. split; [|exact H3].
        exists (DBManager.scanFileForKeysWithValue sst (filename nd) value0
                  (startKey nd) (endKey nd)).
        split; [|exact Hk].
        apply (in_map (fun n => DBManager.scanFileForKeysWithValue sst (filename n)
                                  value0 (startKey n) (endKey n))), Hn.
Qed.


(** The two searches of the database on two columns of five keys: both find
    the two keys that hold both values. *)
Lemma single_hierarchy_example :
  exists t1 fs1 g',
    column1 = Ret (t1, fs1)
    /\ DBManager.findUsingSingleHierarchy two_column_store two_column_db t1
         ["c1"; "c2"] ["v1"; "v2"] untouched
       = Ret (["k2"; "k4"], g')
    /\ DBManager.scanForRecordsInColumns two_column_db ["c1"; "c2"] ["v1"; "v2"]
       = Ret ["k2"; "k4"].
Proof.
  eexists _, _, _. split; [vm_compute; reflexivity|].
  split; vm_compute; reflexivity.
Qed.

(** ** Sidecar files *)





(** ** Exceptions of [buildTree] *)





(** ** Leaves of a file in key order *)







(** ** When the builder returns *)





(** ** The index against the database *)

Lemma searchNodes_fold_incl (value qStart qEnd : string) (ch : list Node) :
  Forall (fun c => forall results g x, In x results ->
            In x (fst (BloomTree.searchNodes c value qStart qEnd (results, g)))) ch ->
  forall results g x, In x results ->
    In x (fst (fold_left (fun st child => BloomTree.searchNodes child value qStart qEnd st)
                         ch (results, g))).
Proof.
  induction 1 as [|c ch Hc _ IH]; intros results g x Hx; [exact Hx|].
  cbn [fold_left]. specialize (Hc results g x Hx).
  destruct (BloomTree.searchNodes c value qStart qEnd (results, g)) as [r1 g1].
  now apply IH.
Qed.

Lemma searchNodes_incl (value qStart qEnd : string) (node : Node) :
  forall results g x, In x results ->
    In x (fst (BloomTree.searchNodes node value qStart qEnd (results, g))).
Proof.
  induction node as [ch b f s e IH] using Node_ind. intros results g x Hx.
  cbn [BloomTree.searchNodes fst snd].
  destruct (BloomTree.overlaps _ qStart qEnd); [|exact Hx].
  cbn [bloom]. destruct (BloomFilter.exists_ b value); [|exact Hx].
  cbn [children]. destruct ch as [|c0 ch'].
  - cbn [fst]. apply in_app_iff. now left.
  - now apply searchNodes_fold_incl.
Qed.

Lemma searchNodes_fold_found (value qStart qEnd : string) (ch : list Node) (c l : Node) :
  In c ch ->
  (forall results g, In l (fst (BloomTree.searchNodes c value qStart qEnd (results, g)))) ->
  forall results g,
    In l (fst (fold_left (fun st child => BloomTree.searchNodes child value qStart qEnd st)
                         ch (results, g))).
Proof.
  intros Hc Hfound. induction ch as [|c' ch IH]; intros results g; [destruct Hc|].
  cbn [fold_left]. destruct Hc as [->|Hc].
  - specialize (Hfound results g).
    destruct (BloomTree.searchNodes c value qStart qEnd (results, g)) as [r1 g1].
    apply searchNodes_fold_incl; [|exact Hfound].
    apply Forall_forall. intros c'' _ r g' x Hx. now apply searchNodes_incl.
  - destruct (BloomTree.searchNodes c' value qStart qEnd (results, g)) as [r1 g1].
    now apply IH.
Qed.

Lemma searchNodes_keptPath (value qStart qEnd : string) (n l : Node) :
  keptPath value qStart qEnd n l ->
  forall results g,
    In l (fst (BloomTree.searchNodes n value qStart qEnd (results, g))).
Proof.
  induction 1 as [n [Ho Hb] Hnil | n c l [Ho Hb] Hc _ IH]; intros results g.
  - apply overlaps_overlapping in Ho.
    destruct n as [ch b f s e]. cbn [children bloom] in *. subst ch.
    cbn [BloomTree.searchNodes fst snd bloom children]. rewrite Ho, Hb.
    cbn [fst]. apply in_app_iff. right. now left.
  - apply overlaps_overlapping in Ho.
    destruct n as [ch b f s e]. cbn [children bloom] in *.
    cbn [BloomTree.searchNodes fst snd bloom children]. rewrite Ho, Hb.
    destruct ch as [|c0 ch']; [destruct Hc|].
    now apply searchNodes_fold_found with c.
Qed.

Lemma searchNodes_fold_sound (value qStart qEnd : string) (ch : list Node) :
  Forall (fun c => forall results g x,
            In x (fst (BloomTree.searchNodes c value qStart qEnd (results, g))) ->
            In x results \/ (descends c x /\ children x = [])) ch ->
  forall results g x,
    In x (fst (fold_left (fun st child => BloomTree.searchNodes child value qStart qEnd st)
                         ch (results, g))) ->
    In x results \/ exists c, In c ch /\ descends c x /\ children x = [].
Proof.
  induction 1 as [|c ch Hc _ IH]; intros results g x Hx; [now left|].
  cbn [fold_left] in Hx. specialize (Hc results g x).
  destruct (BloomTree.searchNodes c value qStart qEnd (results, g)) as [r1 g1].
  destruct (IH r1 g1 x Hx) as [H|(c' & Hc' & H)].
  - destruct (Hc H) as [H'|H']; [now left | right]. exists c. split; [now left | exact H'].
  - right. exists c'. split; [now right | exact H].
Qed.

Lemma searchNodes_sound (value qStart qEnd : string) (node : Node) :
  forall results g x,
    In x (fst (BloomTree.searchNodes node value qStart qEnd (results, g))) ->
    In x results \/ (descends node x /\ children x = []).
Proof.
  induction node as [ch b f s e IH] using Node_ind. intros results g x Hx.
  cbn [BloomTree.searchNodes fst snd] in Hx.
  destruct (BloomTree.overlaps _ qStart qEnd); [|now left].
  cbn [bloom] in Hx. destruct (BloomFilter.exists_ b value); [|now left].
  cbn [children] in Hx. destruct ch as [|c0 ch'].
  - cbn [fst] in Hx. apply in_app_iff in Hx as [Hx|[<-|[]]]; [now left | right].
    split; [constructor | reflexivity].
  - destruct (searchNodes_fold_sound value qStart qEnd (c0 :: ch') IH _ _ _ Hx)
      as [H|(c & Hc & Hd & Hnil)]; [now left | right].
    split; [|exact Hnil]. now apply descends_child with c.
Qed.

Lemma Built_keptPath (tr : BloomTree.t) (leaves : list Node) (n : Node) (v : string) :
  Forall (leafFor tr) leaves ->
  Built tr leaves n ->
  forall l, In l (leaves_of n) -> BloomFilter.exists_ (bloom l) v = true ->
            keptPath v "" "" n l.
Proof.
  intros Hok Hb. induction Hb as [l' Hl' | g Hne Hg IH Hfit]; intros l Hl Hbl.
  - destruct (leaf_ok tr leaves Hok l' Hl') as (Hnil & _).
    assert (E : leaves_of l' = [l']) by (destruct l'; simpl in *; now rewrite Hnil).
    rewrite E in Hl. destruct Hl as [<-|[]].
    apply keptPath_leaf; [|exact Hnil]. split; [split; now left | exact Hbl].
  - destruct (parentOf_spec tr g Hne Hfit) as (Hch & _).
    assert (Hb : Built tr leaves (parentOf tr g)) by (now apply built_parent).
    pose proof Hl as Hl0. rewrite (leaves_of_parentOf tr g Hne Hfit) in Hl.
    apply in_concat in Hl as (ls & Hls & Hl).
    apply in_map_iff in Hls as (c & <- & Hcg).
    apply keptPath_child with c.
    + split; [split; now left|].
      now apply (Built_exists tr leaves Hok (parentOf tr g) l v).
    + now rewrite Hch.
    + now apply IH.
Qed.

Lemma Get_In (cf : list (string * string)) (key v : string) :
  DBManager.Get cf key = Some v -> In key (map fst cf).
Proof.
  induction cf as [|[k w] cf IH]; [discriminate|].
  cbn [DBManager.Get fst snd]. destruct (String.eqb_spec k key) as [->|_].
  - intros _. now left.
  - intros H. right. now apply IH.
Qed.

(** The candidates of an index for a value: leaves of the column's files,
    among them the leaf of every entry with the value. *)
Lemma index_candidates (sst : SstStore) (files : list string) (tree : BloomTree.t)
    (v : string) (g : Globals) :
  sortedStore sst -> indexes sst files tree ->
  (forall n, In n (fst (BloomTree.queryNodes tree v "" "" g)) -> In (filename n) files)
  /\ (forall file entries key,
        In file files -> sst !! file = Some entries -> In (key, v) entries ->
        exists l, In l (fst (BloomTree.queryNodes tree v "" "" g))
                  /\ filename l = file /\ covers l key).
Proof.
  intros Hsorted (fuel & fs & fs' & N & m & k & r & HN & Hm & Hm' & Hk & Hr & Hw & Hbuild).
  destruct (hierarchy_built _ _ _ _ _ _ _ _ _ _ Hbuild) as (root & -> & Hlevel & _).
  cbn [BloomTree.leafNodes] in Hw. unfold BloomTree.queryNodes. cbn [BloomTree.root].
  set (leaves := concat (map (fun f => BloomManager.processSSTFile sst f N m k) files)) in *.
  set (tr := BloomTree.mk None r m k leaves) in *.
  assert (Hleaf : forall l, In l leaves -> children l = [] /\ In (filename l) files).
  { intros l Hl. apply in_concat in Hl as (ls & Hls & Hl).
    apply in_map_iff in Hls as (f & <- & Hf).
    destruct (processSSTFile_leaf sst f N m k l HN Hl) as [H1 H2].
    split; [exact H1 | now rewrite H2]. }
  assert (Hok : Forall (leafFor tr) leaves).
  { apply Forall_forall. intros l Hl. apply list_elem_of_In, in_concat in Hl as (ls & Hls & Hl).
    apply in_map_iff in Hls as (f & <- & _).
    apply (processSSTFile_leafFor sst f N m k tr l); auto; lia. }
  assert (Hleaves : leaves_of root = leaves).
  { rewrite (buildLevel_leaves tr fuel Hr leaves root Hw Hlevel).
    apply leaves_of_leaves. intros l Hl. now apply Hleaf. }
  assert (Hb : Built tr leaves root).
  { apply (buildLevel_Built tr Hr leaves fuel leaves root); auto.
    intros n Hn. now apply built_leaf. }
  split.
  - intros n Hn. apply searchNodes_sound in Hn as [[]|[Hd Hnil]].
    apply Hleaf. rewrite <- Hleaves. now apply descends_leaf.
  - intros file entries key Hfile Hentries Hin.
    destruct (leaf_of_entry sst file entries N m k key v Hentries (Hsorted _ _ Hentries)
                HN Hm Hm' Hk Hin) as (l & Hl & Hfl & Hcov & Hbl).
    exists l. split; [|auto].
    apply searchNodes_keptPath.
    apply (Built_keptPath tr leaves root v Hok Hb); [|exact Hbl].
    rewrite Hleaves. apply in_concat.
    exists (BloomManager.processSSTFile sst file N m k). split; [|exact Hl].
    apply (in_map (fun f => BloomManager.processSSTFile sst f N m k)), Hfile.
Qed.

(** X22. The search through the index of the first column finds what the
    scan of the database finds. Let the files be in key order, [hierarchy] be
    the hierarchy that [createPartitionedHierarchy] builds over the files of
    the first column, and these files hold exactly the entries of that
    column's family. Then [findUsingSingleHierarchy] and
    [scanForRecordsInColumns] both return, and every key that is not empty is
    returned by the one exactly when it is returned by the other. *)
Theorem single_hierarchy_agrees_with_scan (sst : SstStore) (db : DBManager.Database)
    (hierarchy : BloomTree.t) (files : list string) (column0 : string)
    (rest values : list string) (base : list (string * string)) (g : Globals) :
  sortedStore sst -> indexes sst files hierarchy ->
  length (column0 :: rest) = length values ->
  db !! column0 = Some base -> stored sst files base ->
  exists keys g' keys',
    DBManager.findUsingSingleHierarchy sst db hierarchy (column0 :: rest) values g
    = Ret (keys, g')
    /\ DBManager.scanForRecordsInColumns db (column0 :: rest) values = Ret keys'
    /\ forall key, key <> "" -> (In key keys <-> In key keys').
Proof.
  intros Hsorted Hidx Hlen Hbase Hstored.
  destruct values as [|v0 vs]; [discriminate|].
  destruct (proj2 (findUsing_parts sst db hierarchy (column0 :: rest) (v0 :: vs) g)
              v0 vs eq_refl Hlen) as (keys & g' & Hfind & _ & _ & Hkeys).
  destruct (proj2 (scanRecords_parts db (column0 :: rest) (v0 :: vs))
              column0 rest eq_refl Hlen) as [_ Hscan].
  destruct (Hscan base Hbase) as (keys' & Hret & _ & Hkeys' & _).
  exists keys, g', keys'. split; [exact Hfind|]. split; [exact Hret|].
  destruct (index_candidates sst files hierarchy v0 g Hsorted Hidx) as [Hcand Hfound].
  intros key Hne. rewrite Hkeys, Hkeys'. split.
  - intros (_ & (n & Hn & Hscanned) & Hrest).
    assert (Hget : DBManager.Get base key = Some v0).
    { apply Hstored.
      destruct (sst !! filename n) as [entries|] eqn:Ef.
      - exists (filename n), entries. split; [now apply Hcand|]. split; [exact Ef|].
        destruct (scan_parts sst (filename n) v0 (startKey n) (endKey n)) as (_ & Hsub & _).
        now apply (Hsub entries key Ef).
      - destruct (scan_parts sst (filename n) v0 (startKey n) (endKey n)) as (Hnone & _).
        rewrite (Hnone Ef) in Hscanned. destruct Hscanned. }
    split; [now apply Get_In with v0|].
    intros [|j] column v Hc Hv.
    + injection Hc as <-. injection Hv as <-. exists base. auto.
    + now apply (Hrest j).
  - intros [_ Hall]. split; [exact Hne|]. split.
    + destruct (Hall 0%nat column0 v0 eq_refl eq_refl) as (cf & Hcf & Hget).
      assert (cf = base) by congruence. subst cf.
      apply Hstored in Hget as (file & entries & Hfile & Hentries & Hin).
      destruct (Hfound file entries key Hfile Hentries Hin) as (l & Hl & Hfl & Hc1 & Hc2).
      exists l. split; [exact Hl|]. rewrite Hfl.
      destruct (scan_parts sst file v0 (startKey l) (endKey l)) as (_ & _ & Hiff).
      apply (Hiff entries key Hentries (Hsorted _ _ Hentries)). auto.
    + intros j column v Hc Hv. now apply (Hall (S j)).
Qed.

Lemma single_hierarchy_agrees_with_scan_witness :
  exists t1 fs1,
    column1 = Ret (t1, fs1)
    /\ exists keys g' keys',
         DBManager.findUsingSingleHierarchy two_column_store two_column_db t1
           ["c1"; "c2"] ["v1"; "v2"] untouched
         = Ret (keys, g')
         /\ DBManager.scanForRecordsInColumns two_column_db ["c1"; "c2"] ["v1"; "v2"]
            = Ret keys'
         /\ forall key, key <> "" -> (In key keys <-> In key keys').
Proof.
  eexists _, _. split; [vm_compute; reflexivity|].
  apply (single_hierarchy_agrees_with_scan two_column_store two_column_db _
           ["c1.sst"] "c1" ["c2"] ["v1"; "v2"] five_entries untouched).
  - exact two_column_store_sorted.
  - exists 8%nat, no_files. eexists _, 2, 64, 3, 2.
    split; [lia|]. split; [lia|]. split; [lia|]. split; [lia|]. split; [lia|].
    split; vm_compute; reflexivity.
  - reflexivity.
  - vm_compute. reflexivity.
  - intros key v. split.
    + intros Hget. exists "c1.sst", five_entries.
      split; [now left|]. split; [vm_compute; reflexivity|].
      unfold five_entries in *. cbn [DBManager.Get fst snd] in Hget.
      repeat match type of Hget with
             | (if String.eqb ?a key then _ else _) = _ =>
                 destruct (String.eqb_spec a key) as [<-|_];
                 [injection Hget as <-; simpl; tauto|]
             end.
      discriminate.
    + intros (file & entries & [<-|[]] & Hentries & Hin).
      assert (entries = five_entries)
        by (vm_compute in Hentries; injection Hentries as <-; reflexivity).
      subst entries. unfold five_entries in Hin. simpl in Hin.
      repeat destruct Hin as [[= <- <-]|Hin]; try reflexivity. destruct Hin.
Defined.

(** The condition of the upper bound cannot be dropped. Two columns that
    both begin with the empty key, indexed with one entry per leaf: with an
    empty [globalStart] the combination of the two first leaves has an empty
    range end, the scans are not bounded above, and the query returns a key
    above [globalEnd]. *)
Lemma end_bound_ignored_after_empty_key :
  exists t1 t2 fs1 fs2 keys g',
    empty_key_column1 = Ret (t1, fs1) /\ empty_key_column2 = Ret (t2, fs2)
    /\ multiColumnQueryHierarchical 10 empty_key_store [t1; t2] ["v1"; "v2"]
         "" "k3" untouched
       = Ret (keys, g')
    /\ In "k9" keys /\ str_le "k9" "k3" = false.
Proof.
  eexists _, _, _, _, _, _.
  split; [vm_compute; reflexivity|]. split; [vm_compute; reflexivity|].
  split; [vm_compute; reflexivity|]. split; [vm_compute; auto | reflexivity].
Qed.

(** ** The intersection law *)

Lemma indexes_holds (sst : SstStore) (files : list string) (tree : BloomTree.t)
    (root : Node) (key v : string) :
  indexes sst files tree -> BloomTree.root tree = Some root ->
  holds sst key root v -> columnHas sst key files v.
Proof.
  intros (fuel & fs & fs' & N & m & k & r & HN & Hm & Hm' & Hk & Hr & Hw & Hbuild) Hroot
         (leaf & entries & Hd & Hmem & Hentries & Hin).
  destruct (hierarchy_built _ _ _ _ _ _ _ _ _ _ Hbuild) as (root' & -> & Hlevel & _).
  cbn [BloomTree.leafNodes BloomTree.root] in *. injection Hroot as ->.
  set (leaves := concat (map (fun f => BloomManager.processSSTFile sst f N m k) files)) in *.
  set (tr := BloomTree.mk None r m k leaves) in *.
  assert (Hok : Forall (leafFor tr) leaves).
  { apply Forall_forall. intros l Hl. apply list_elem_of_In, in_concat in Hl as (ls & Hls & Hl).
    apply in_map_iff in Hls as (f & <- & _).
    apply (processSSTFile_leafFor sst f N m k tr l); auto; lia. }
  assert (Hb : Built tr leaves root).
  { apply (buildLevel_Built tr Hr leaves fuel leaves root); auto.
    intros n Hn. now apply built_leaf. }
  pose proof (Built_descends tr leaves Hok root leaf Hb Hd) as Hbl.
  destruct (Built_inv tr leaves Hok leaf Hbl) as [[Hl _]|(_ & Hf & _)].
  2:{ apply isMemory_false in Hmem. contradiction. }
  apply in_concat in Hl as (ls & Hls & Hl).
  apply in_map_iff in Hls as (f & <- & Hf).
  destruct (processSSTFile_leaf sst f N m k leaf HN Hl) as [_ Hname].
  exists f, entries. rewrite <- Hname. split; [now rewrite Hname|].
  split; [now apply isMemory_false|]. auto.
Qed.

Lemma holds_columns (sst : SstStore) (key : string) (columns : list (list string)) :
  forall (trees : list BloomTree.t) (roots : list Node) (values : list string),
    Forall2 (indexes sst) columns trees ->
    map BloomTree.root trees = map Some roots ->
    Forall2 (holds sst key) roots values ->
    Forall2 (columnHas sst key) columns values.
Proof.
  induction columns as [|files columns IH]; intros trees roots values Hidx Hroots Hholds.
  - inversion Hidx; subst. destruct roots; [|discriminate]. inversion Hholds. constructor.
  - inversion Hidx as [|? tr ? trees' Hi Hidx']; subst.
    destruct roots as [|root roots]; [discriminate|]. simpl in Hroots.
    injection Hroots as Hr Hrest. inversion Hholds as [|? v ? vs Hh Hholds']; subst.
    constructor; [now apply (indexes_holds sst files tr root) | now apply (IH trees' roots)].
Qed.

Lemma indexes_root (sst : SstStore) (files : list string) (tree : BloomTree.t) :
  indexes sst files tree -> is_Some (BloomTree.root tree).
Proof.
  intros (fuel & fs & fs' & N & m & k & r & _ & _ & _ & _ & _ & _ & Hbuild).
  destruct (hierarchy_built _ _ _ _ _ _ _ _ _ _ Hbuild) as (root & -> & _). now exists root.
Qed.

(** X23. The intersection law. Let the files be in key order and every
    column be indexed by the hierarchy that [createPartitionedHierarchy]
    builds over its files, with one value per column. For a non-empty
    [globalStart] and enough recursion depth the query returns exactly the
    keys that are not below [globalStart], not above [globalEnd] unless that
    is empty, and that every column holds with the column's value in one of
    its files. *)
Theorem query_intersection_law (fuel : nat) (sst : SstStore)
    (columns : list (list string)) (trees : list BloomTree.t)
    (values : list string) (globalStart globalEnd : string) (g : Globals) :
  sortedStore sst -> trees <> [] ->
  Forall2 (indexes sst) columns trees ->
  Forall (fun tr => (levels tr < fuel)%nat) trees ->
  length trees = length values ->
  globalStart <> "" ->
  exists keys g',
    multiColumnQueryHierarchical fuel sst trees values globalStart globalEnd g
    = Ret (keys, g')
    /\ forall key,
         In key keys
         <-> globalStart ⪯ key
             /\ (globalEnd = "" \/ key ⪯ globalEnd)
             /\ Forall2 (columnHas sst key) columns values.
Proof.
  intros Hsorted Hne Hidx Hfuel Hlen Hgs.
  assert (Hbuilt : Forall (fun tr => is_Some (BloomTree.root tr) /\ (levels tr < fuel)%nat)
                          trees).
  { apply Forall_forall. intros tr Htr. rewrite Forall_forall in Hfuel.
    split; [|now apply Hfuel].
    apply list_elem_of_lookup_1 in Htr as [i Hi].
    destruct (Forall2_lookup_r _ _ _ _ _ Hidx Hi) as (files & _ & Hfiles).
    now apply (indexes_root sst files). }
  destruct (roots_of_built fuel trees Hbuilt) as (roots & Hroots & Htall).
  assert (Hlr : length trees = length roots).
  { apply (f_equal length) in Hroots. now rewrite !length_map in Hroots. }
  assert (Hrne : roots <> []).
  { intros ->. destruct trees; [contradiction | discriminate]. }
  destruct (query_spec sst trees roots values globalStart globalEnd fuel g true
              Hroots Hrne ltac:(lia) (fun _ => Htall Hrne))
    as (s & e & Hs & He & _ & _ & Hkey & Hwp).
  apply wp_total in Hwp as ([keys g'] & Hret & _ & Hgood & Hfind).
  cbn [fst] in Hgood, Hfind.
  exists keys, g'. split; [exact Hret|]. intros key. split.
  - intros Hin. destruct (Hgood key Hin) as [Hholds Hrange].
    destruct (Hrange Hsorted) as [Hsk Hke]. cbn [rangeStart rangeEnd nodes] in *.
    assert (Hs' : s <> "").
    { intros ->. apply Hgs. now apply sle_empty_inv. }
    split; [now apply sle_trans with s|]. split.
    + destruct (decide (globalEnd = "")) as [E|E]; [now left | right].
      apply sle_trans with e; [now apply Hke | now apply He].
    + now apply (holds_columns sst key columns trees roots values).
  - intros (Hk1 & Hk2 & Hhas). apply Hfind.
    assert (Ht : Forall2 (fun tr v => exists root, BloomTree.root tr = Some root
                                                   /\ target sst key v root) trees values).
    { apply (Forall2_join (indexes sst) (columnHas sst key) _ columns); [|assumption..].
      intros files tr v Hi Hc. now apply (indexes_target sst files tr key v). }
    destruct (roots_of_targets sst key trees values Ht) as (roots' & Hroots' & Htargets).
    assert (roots' = roots).
    { rewrite Hroots in Hroots'. apply (inj (map Some)) in Hroots'. congruence. }
    subst roots'.
    assert (Hc : Forall (fun r => covers r key) roots).
    { apply Forall_forall. intros r Hr. apply list_elem_of_lookup_1 in Hr as [i Hi].
      destruct (Forall2_lookup_l _ _ _ _ _ Htargets Hi) as (v & _ & Hv).
      now apply target_covers in Hv. }
    destruct (Hkey key Hk1 Hk2 Hc) as [Hsk Hke].
    repeat split; assumption.
Qed.

Lemma query_intersection_law_witness :
  exists t1 t2 fs1 fs2,
    column1 = Ret (t1, fs1) /\ column2 = Ret (t2, fs2)
    /\ exists keys g',
         multiColumnQueryHierarchical 10 two_column_store [t1; t2] ["v1"; "v2"]
           "k3" "k5" untouched
         = Ret (keys, g')
         /\ forall key,
              In key keys
              <-> "k3" ⪯ key
                  /\ ("k5" = "" \/ key ⪯ "k5")
                  /\ Forall2 (columnHas two_column_store key)
                             [["c1.sst"]; ["c2.sst"; "c2b.sst"]] ["v1"; "v2"].
Proof.
  eexists _, _, _, _.
  split; [vm_compute; reflexivity|]. split; [vm_compute; reflexivity|].
  apply (query_intersection_law 10 two_column_store [["c1.sst"]; ["c2.sst"; "c2b.sst"]]).
  - exact two_column_store_sorted.
  - discriminate.
  - constructor; [|constructor; [|constructor]].
    + exists 8%nat, no_files. eexists _, 2, 64, 3, 2.
      split; [lia|]. split; [lia|]. split; [lia|]. split; [lia|]. split; [lia|].
      split; vm_compute; reflexivity.
    + exists 8%nat, no_files. eexists _, 2, 64, 3, 2.
      split; [lia|]. split; [lia|]. split; [lia|]. split; [lia|]. split; [lia|].
      split; vm_compute; reflexivity.
  - constructor; [vm_compute; lia|]. constructor; [vm_compute; lia|]. constructor.
  - reflexivity.
  - discriminate.
Defined.
